(** * Verification of the OpenAI rate-limit client (sagentic-ai/bazed-af)

    Shallow embedding of the OpenAI client module (the [OpenAIClient]
    wrapper and its [parseDuration] helper) together with [countTokens] of
    the clients' common module, which it calls; of the class [Timing] and
    the helpers [parseObject] and [parseMultipleObjects] of the utilities
    module; and of the catalog of models.

    Conventions of the embedding:
    - a JavaScript string is a [string]: a sequence of 8-bit code units,
      which is how header values reach the client;
    - a JavaScript number that the code produces from integer text is a
      [number]: [NaN] or an exact integer [Num z] (exact below 2^53);
    - a JavaScript object used as a record of properties is an association
      list in insertion order ([JsObject]); the HTTP [Headers] and the
      runtime's table of pending timers are finite maps ([gmap]);
    - [console.log] appends to a list of log entries;
    - a pending timer holds the delay that Node.js keeps for it;
    - a promise resolves or rejects, and so does an asynchronous method;
    - stateful methods run in a state-and-exception monad over the client
      object, the timer table and the console. *)

From Stdlib Require Import ZArith Ascii String List Bool Lia DecimalString.
From Stdlib Require QArith_base.
From stdpp Require Import base option gmap strings.

Local Open Scope Z_scope.

(** ** JavaScript values *)

Module Js.

(** A number obtained from integer text: [NaN], or the integer that the
    text denotes. JavaScript holds an integer of at most 2^53 - 1 in size as
    it stands and rounds a larger one; what is proved of the value of such a
    number is proved within that range. *)
Inductive number : Type :=
| NaN
| Num (z : Z).

Definition isNaN (n : number) : bool :=
  match n with NaN => true | Num _ => false end.

(** An object with string keys, in property (insertion) order. *)
Definition JsObject (V : Type) : Type := list (string * V).

(** [o[k]] *)
Fixpoint obj_get {V} (o : JsObject V) (k : string) : option V :=
  match o with
  | [] => None
  | (k', v) :: o' => if String.eqb k' k then Some v else obj_get o' k
  end.

(** [o[k] = v]: an existing property keeps its place, a new one is added
    last. *)
Fixpoint obj_set {V} (o : JsObject V) (k : string) (v : V) : JsObject V :=
  match o with
  | [] => [(k, v)]
  | (k', v') :: o' =>
      if String.eqb k' k then (k', v) :: o' else (k', v') :: obj_set o' k v
  end.

Definition keys {V} (o : JsObject V) : list string := map fst o.

(** *** Characters and strings *)

Definition code (c : ascii) : N := N_of_ascii c.

(** [\d] *)
Definition is_digit (c : ascii) : bool :=
  ((48 <=? code c) && (code c <=? 57))%N.

Fixpoint all_digits (s : string) : bool :=
  match s with
  | EmptyString => true
  | String c r => is_digit c && all_digits r
  end.

(** Lower-casing of one code unit: A-Z, and the Latin-1 capitals
    U+00C0-U+00DE except the multiplication sign U+00D7. *)
Definition lower_char (c : ascii) : ascii :=
  let n := code c in
  if (((65 <=? n) && (n <=? 90))
      || ((192 <=? n) && (n <=? 222) && negb (n =? 215)))%N
  then ascii_of_N (n + 32)
  else c.

(** [String.prototype.toLowerCase] on strings of code units below 256,
    where it keeps the length of the string. *)
Fixpoint toLowerCase (s : string) : string :=
  match s with
  | EmptyString => EmptyString
  | String c r => String (lower_char c) (toLowerCase r)
  end.

(** WhiteSpace and LineTerminator code units below 256. *)
Definition is_space (c : ascii) : bool :=
  let n := code c in
  ((n =? 9) || (n =? 10) || (n =? 11) || (n =? 12) || (n =? 13)
   || (n =? 32) || (n =? 160))%N.

Fixpoint trimStart (s : string) : string :=
  match s with
  | String c r => if is_space c then trimStart r else s
  | EmptyString => EmptyString
  end.

(** Value of a character as a digit in radix up to 36. *)
Definition digit_value (c : ascii) : option Z :=
  let n := code c in
  if ((48 <=? n) && (n <=? 57))%N then Some (Z.of_N n - 48)
  else if ((97 <=? n) && (n <=? 122))%N then Some (Z.of_N n - 87)
  else if ((65 <=? n) && (n <=? 90))%N then Some (Z.of_N n - 55)
  else None.

(** The longest prefix of [s] made of digits of [radix], read as a number;
    [acc] is the value read so far ([None]: no digit yet). *)
Fixpoint parse_digits (radix : Z) (acc : option Z) (s : string) : option Z :=
  match s with
  | EmptyString => acc
  | String c r =>
      match digit_value c with
      | Some d =>
          if d <? radix
          then parse_digits radix (Some (default 0 acc * radix + d)) r
          else acc
      | None => acc
      end
  end.

Definition strip_sign (s : string) : Z * string :=
  match s with
  | String c r =>
      if Ascii.eqb c "-" then (-1, r)
      else if Ascii.eqb c "+" then (1, r)
      else (1, s)
  | EmptyString => (1, s)
  end.

Definition strip_hex_prefix (s : string) : option string :=
  match s with
  | String c0 (String c1 r) =>
      if Ascii.eqb c0 "0" && (Ascii.eqb c1 "x" || Ascii.eqb c1 "X")
      then Some r else None
  | _ => None
  end.

(** [parseInt(s, radix)] for radix 10 ([Some 10]) and [parseInt(s)]
    ([None]: radix 16 after a [0x] prefix, 10 otherwise). *)
Definition parseInt (s : string) (radix : option Z) : number :=
  let '(sign, body) := strip_sign (trimStart s) in
  let '(r, body) :=
    match radix with
    | Some r => (r, body)
    | None =>
        match strip_hex_prefix body with
        | Some body' => (16, body')
        | None => (10, body)
        end
    end in
  match parse_digits r None body with
  | Some v => Num (sign * v)
  | None => NaN
  end.

End Js.

Import Js.

(** ** Regular expressions

    A backtracking matcher in the priority order of the JavaScript engine:
    a quantifier is greedy, the alternatives are tried left to right, a
    search tries each start position from left to right, and a group
    captures the text it matched. What follows a pattern is its
    continuation: when the continuation fails, the pattern gives its next
    way to match. *)

Module Regex.

Inductive regex : Type :=
| Class (p : ascii → bool)
| Literal (c : ascii)
| Seq (r1 r2 : regex)
| Alt (r1 r2 : regex)
| Group (index : nat) (r : regex)
| Repeat (min max : nat) (r : regex).

(** The text captured by each group. *)
Abbreviation Captures := (gmap nat string).

(** The first [n] characters of [s]. *)
Fixpoint string_take (n : nat) (s : string) : string :=
  match n, s with
  | S n', String c r => String c (string_take n' r)
  | _, _ => EmptyString
  end.

(** The text between a position [s] and a later position [s'] of one
    input, each given by what is left of the input. *)
Definition text_between (s s' : string) : string :=
  string_take (String.length s - String.length s') s.

Section Exec.

Context {A : Type}.

(** [r{min,max}] with [step] matching [r] once: a further round is
    preferred while [max] allows it, and the continuation is tried when
    that fails and [min] is reached. *)
Fixpoint repeat_loop
    (step : string → Captures → (string → Captures → option A) → option A)
    (min max : nat) (s : string) (caps : Captures)
    (k : string → Captures → option A) : option A :=
  match max with
  | O => match min with O => k s caps | S _ => None end
  | S max' =>
      match min with
      | S min' =>
          step s caps (λ s' caps', repeat_loop step min' max' s' caps' k)
      | O =>
          match
            step s caps (λ s' caps', repeat_loop step O max' s' caps' k)
          with
          | Some result => Some result
          | None => k s caps
          end
      end
  end.

(** [r] at the head of [s], then the continuation [k] on what is left. *)
Fixpoint exec (r : regex) (s : string) (caps : Captures)
    (k : string → Captures → option A) : option A :=
  match r with
  | Class p =>
      match s with
      | String c s' => if p c then k s' caps else None
      | EmptyString => None
      end
  | Literal c =>
      match s with
      | String c' s' => if Ascii.eqb c c' then k s' caps else None
      | EmptyString => None
      end
  | Seq r1 r2 => exec r1 s caps (λ s' caps', exec r2 s' caps' k)
  | Alt r1 r2 =>
      match exec r1 s caps k with
      | Some result => Some result
      | None => exec r2 s caps k
      end
  | Group index r' =>
      exec r' s caps
        (λ s' caps', k s' (<[index := text_between s s']> caps'))
  | Repeat min max r' => repeat_loop (exec r') min max s caps k
  end.

End Exec.

(** A match: its text, its groups and what follows it. *)
Definition Match : Type := string * Captures * string.

(** A match of [r] at the head of [s]. *)
Definition match_at (r : regex) (s : string) : option Match :=
  exec r s ∅ (λ s' caps, Some (text_between s s', caps, s')).

(** The leftmost match of [r] in [s]. *)
Fixpoint find (r : regex) (s : string) : option Match :=
  match match_at r s with
  | Some m => Some m
  | None =>
      match s with
      | EmptyString => None
      | String _ s' => find r s'
      end
  end.

(** The successive matches of a global regular expression: after a match the
    search resumes at its end, one character further after an empty match,
    and stops after an empty match at the end. At most [fuel] matches. *)
Fixpoint find_all (r : regex) (fuel : nat) (s : string) : list string :=
  match fuel with
  | O => []
  | S fuel' =>
      match find r s with
      | None => []
      | Some (text, _, rest) =>
          match text, rest with
          | EmptyString, EmptyString => [text]
          | EmptyString, String _ rest' => text :: find_all r fuel' rest'
          | _, _ => text :: find_all r fuel' rest
          end
      end
  end.

(** [\d{1,5}] *)
Definition digits_1_5 : regex := Repeat 1 5 (Class is_digit).

(** [h|ms|m|s] *)
Definition unit_pattern : regex :=
  Alt (Literal "h")
    (Alt (Seq (Literal "m") (Literal "s"))
       (Alt (Literal "m") (Literal "s"))).

(** [/(\d{1,5}(h|ms|m|s))/g] *)
Definition parts_regex : regex :=
  Group 1 (Seq digits_1_5 (Group 2 unit_pattern)).

(** [/(\d{1,5})(h|ms|m|s)/] *)
Definition part_regex : regex :=
  Seq (Group 1 digits_1_5) (Group 2 unit_pattern).

(** [s.match(/(\d{1,5}(h|ms|m|s))/g)]: all matches, or [None] for
    [null] when there is none. *)
Definition match_global (s : string) : option (list string) :=
  match find_all parts_regex (S (String.length s)) s with
  | [] => None
  | parts => Some parts
  end.

(** [s.match(/(\d{1,5})(h|ms|m|s)/)]: the groups [(s[1], s[2])] of the
    first match, or [None] for [null]. *)
Definition match_groups (s : string) : option (string * string) :=
  match find part_regex s with
  | Some (_, caps, _) => Some (default "" (caps !! 1%nat), default "" (caps !! 2%nat))
  | None => None
  end.

End Regex.

Import Regex.

(** ** The console *)

Inductive LogArg : Type :=
| LogStr (s : string)
| LogNum (n : number)
| LogRatio (q : QArith_base.Q).

(** One call of [console.log]: its arguments. *)
Definition LogEntry : Type := list LogArg.

(** ** moment.js durations

    The part of the library the client calls: [moment.duration] on a number
    and on an object of units, [isValid], [asMilliseconds] and [asSeconds]. *)

Module Moment.

(** The table of unit aliases. *)
Definition aliases : JsObject string :=
  [ ("D", "date"); ("dates", "date"); ("date", "date");
    ("d", "day"); ("days", "day"); ("day", "day");
    ("e", "weekday"); ("weekdays", "weekday"); ("weekday", "weekday");
    ("E", "isoWeekday"); ("isoweekdays", "isoWeekday");
    ("isoweekday", "isoWeekday");
    ("DDD", "dayOfYear"); ("dayofyears", "dayOfYear");
    ("dayofyear", "dayOfYear");
    ("h", "hour"); ("hours", "hour"); ("hour", "hour");
    ("ms", "millisecond"); ("milliseconds", "millisecond");
    ("millisecond", "millisecond");
    ("m", "minute"); ("minutes", "minute"); ("minute", "minute");
    ("M", "month"); ("months", "month"); ("month", "month");
    ("Q", "quarter"); ("quarters", "quarter"); ("quarter", "quarter");
    ("s", "second"); ("seconds", "second"); ("second", "second");
    ("gg", "weekYear"); ("weekyears", "weekYear"); ("weekyear", "weekYear");
    ("GG", "isoWeekYear"); ("isoweekyears", "isoWeekYear");
    ("isoweekyear", "isoWeekYear");
    ("w", "week"); ("weeks", "week"); ("week", "week");
    ("W", "isoWeek"); ("isoweeks", "isoWeek"); ("isoweek", "isoWeek");
    ("y", "year"); ("years", "year"); ("year", "year") ].

(** [aliases[units] || aliases[units.toLowerCase()]] *)
Definition normalizeUnits (units : string) : option string :=
  match obj_get aliases units with
  | Some u => Some u
  | None => obj_get aliases (toLowerCase units)
  end.

(** The properties of the input under their normalized unit names;
    properties that name no unit are dropped. *)
Definition normalizeObjectUnits (inputObject : JsObject number)
  : JsObject number :=
  fold_left
    (fun normalizedInput '(prop, v) =>
       match normalizeUnits prop with
       | Some normalizedProp => obj_set normalizedInput normalizedProp v
       | None => normalizedInput
       end)
    inputObject [].

Definition ordering : list string :=
  [ "year"; "quarter"; "month"; "week"; "day";
    "hour"; "minute"; "second"; "millisecond" ].

(** Every property is a duration unit and none is [NaN]. (The library also
    refuses a fractional value above the smallest unit given; [number] has
    no fractions.) *)
Definition isDurationValid (m : JsObject number) : bool :=
  forallb
    (fun '(key, v) => existsb (String.eqb key) ordering && negb (isNaN v))
    m.

Record Duration : Type := mkDuration {
  _milliseconds : Z;
  _days : Z;
  _months : Z;
  _isValid : bool
}.

(** [normalizedInput.unit || 0] *)
Definition unit_or_0 (m : JsObject number) (unit : string) : Z :=
  match obj_get m unit with
  | Some (Num z) => z
  | _ => 0
  end.

(** The [Duration] constructor. *)
Definition new_Duration (duration : JsObject number) : Duration :=
  let normalizedInput := normalizeObjectUnits duration in
  let years := unit_or_0 normalizedInput "year" in
  let quarters := unit_or_0 normalizedInput "quarter" in
  let months := unit_or_0 normalizedInput "month" in
  let weeks := unit_or_0 normalizedInput "week" in
  let days := unit_or_0 normalizedInput "day" in
  let hours := unit_or_0 normalizedInput "hour" in
  let minutes := unit_or_0 normalizedInput "minute" in
  let seconds := unit_or_0 normalizedInput "second" in
  let milliseconds := unit_or_0 normalizedInput "millisecond" in
  {| _isValid := isDurationValid normalizedInput;
     _milliseconds :=
       milliseconds + seconds * 1000 + minutes * 60000
       + hours * 1000 * 60 * 60;
     _days := days + weeks * 7;
     _months := months + quarters * 3 + years * 12 |}.

(** [moment.duration(n)] for a number [n]: that many milliseconds. *)
Definition duration_of_number (input : Z) : Duration :=
  new_Duration [("milliseconds", Num input)].

(** [moment.duration(o)] for an object of units. *)
Definition duration_of_object (input : JsObject number) : Duration :=
  new_Duration input.

Definition isValid (d : Duration) : bool := _isValid d.

(** [Math.round(months * 146097 / 4800)] *)
Definition monthsToDays_rounded (months : Z) : Z :=
  (2 * months * 146097 + 4800) / 9600.

Definition asMilliseconds (d : Duration) : number :=
  if isValid d then
    let days := _days d + monthsToDays_rounded (_months d) in
    Num (days * 86400000 + _milliseconds d)
  else NaN.

(** [asSeconds]: days * 86400 + milliseconds / 1000, as a fraction over
    1000; [None] is [NaN]. *)
Definition asSeconds (d : Duration) : option QArith_base.Q :=
  if isValid d then
    let days := _days d + monthsToDays_rounded (_months d) in
    Some (QArith_base.Qmake (days * 86400000 + _milliseconds d) 1000)
  else None.

End Moment.

Import Moment.

(** ** [parseDuration] *)

(** A computation that writes to the console. *)
Definition Logged (A : Type) : Type := A * list LogEntry.

(** The table from the unit written in the header to moment's unit name. *)
Definition unit_names : JsObject string :=
  [ ("s", "seconds"); ("m", "minutes"); ("h", "hours");
    ("ms", "milliseconds") ].

(** The callback of [parts.reduce]: one part is added to the units read so
    far. *)
Definition reduce_part (acc : Logged (JsObject number)) (part : string)
  : Logged (JsObject number) :=
  let '(units, out) := acc in
  match match_groups part with
  | None =>
      (units,
       (out ++ [[LogStr "WARNING: invalid part format:"; LogStr part]])%list)
  | Some (s1, s2) =>
      let num := parseInt s1 (Some 10) in
      if isNaN num then
        (units,
         (out ++ [[LogStr "WARNING: NaN when parsing time in client";
                   LogStr s1; LogStr s2]])%list)
      else
        match obj_get unit_names s2 with
        | None =>
            (units,
             (out ++ [[LogStr "WARNING: unknown unit when parsing time in client";
                       LogStr s2]])%list)
        | Some unit => (obj_set units unit num, out)
        end
  end.

Definition parseDuration (duration : string) : Logged Duration :=
  if (64 <? String.length duration)%nat then
    (duration_of_number 0,
     [[LogStr "WARNING: duration too long when parsing time in client:";
       LogStr duration]])
  else
    let duration := toLowerCase duration in
    match match_global duration with
    | None =>
        (duration_of_number 0,
         [[LogStr "WARNING: no parts when parsing time in client:";
           LogStr duration]])
    | Some parts =>
        let '(units, out) := fold_left reduce_part parts ([], []) in
        (duration_of_object units, out)
    end.

(** ** The client object and the runtime around it *)

(** The model data the client reads: [model.id], [model.card.checkpoint] and
    [model.card.supportsImages] (an optional flag). *)
Record ModelCard : Type := {
  checkpoint : string;
  supportsImages : option bool
}.

Record ModelMetadata : Type := {
  id : string;
  card : ModelCard
}.

(** Modelled from the spec: the pool fields of [BaseClient], whose declaration
    is outside the sources at hand. Each pool has a remaining amount, a
    maximum and an optional pending reset timer; [debug] switches the
    diagnostics on. *)
Record ClientState : Type := {
  model : ModelMetadata;
  debug : bool;
  requestPoolMax : number;
  requestPool : number;
  tokenPoolMax : number;
  tokenPool : number;
  requestTimer : option nat;
  tokenTimer : option nat
}.

(** The two callbacks that [updatePools] hands to [setTimeout]:
    [ReqReset] sets [requestPool] to [requestPoolMax], forgets
    [requestTimer] and calls [tick("req reset")]; [TokenReset] does the same
    for the token pool with [tick("token reset")]. *)
Inductive TimerCallback : Type :=
| ReqReset
| TokenReset.

(** A pending timer: what to run and the delay that the runtime keeps for
    it. *)
Record Timer : Type := {
  callback : TimerCallback;
  delay : number
}.

(** The client, the runtime's pending timers (by handle), the next fresh
    handle and the console output. *)
Record World : Type := {
  this : ClientState;
  timers : gmap nat Timer;
  next_timer : nat;
  console : list LogEntry
}.

Definition with_this (f : ClientState → ClientState) (w : World) : World :=
  {| this := f (this w); timers := timers w;
     next_timer := next_timer w; console := console w |}.

(** *** State and exceptions *)

Inductive Outcome (A : Type) : Type :=
| Returned (a : A)
| Thrown (message : string).
Arguments Returned {A} a.
Arguments Thrown {A} message.

(** A method body: it changes the world and returns or throws. What was
    changed before a throw stays changed. *)
Definition M (A : Type) : Type := World → World * Outcome A.

Definition ret {A} (a : A) : M A := λ w, (w, Returned a).

Definition bind {A B} (m : M A) (k : A → M B) : M B :=
  λ w, match m w with
       | (w', Returned a) => k a w'
       | (w', Thrown e) => (w', Thrown e)
       end.

Declare Scope js_scope.
Delimit Scope js_scope with js.
Notation "'let*' x := m 'in' k" := (bind m (λ x, k))
  (at level 10, x name, m at level 100, k at level 200) : js_scope.
Notation "m ;;; k" := (bind m (λ _, k))
  (at level 100, k at level 200, right associativity) : js_scope.

Definition throw {A} (message : string) : M A := λ w, (w, Thrown message).

Definition get_this : M ClientState := λ w, (w, Returned (this w)).

Definition modify_this (f : ClientState → ClientState) : M unit :=
  λ w, (with_this f w, Returned tt).

(** [if (c) { body }] *)
Definition when (c : bool) (body : M unit) : M unit :=
  if c then body else ret tt.

Definition console_log (args : LogEntry) : M unit :=
  λ w, ({| this := this w; timers := timers w; next_timer := next_timer w;
           console := (console w ++ [args])%list |}, Returned tt).

(** The console output of a logging computation joins the console. *)
Definition logged {A} (c : Logged A) : M A :=
  λ w, ({| this := this w; timers := timers w; next_timer := next_timer w;
           console := (console w ++ c.2)%list |}, Returned c.1).

(** [clearTimeout(h)]: the timer of handle [h] is no longer pending;
    nothing happens for [undefined]. *)
Definition clearTimeout (h : option nat) : M unit :=
  λ w, ({| this := this w;
           timers := match h with
                     | Some t => delete t (timers w)
                     | None => timers w
                     end;
           next_timer := next_timer w; console := console w |}, Returned tt).

(** The largest delay of a timer of Node.js: 2^31 - 1 milliseconds. *)
Definition TIMEOUT_MAX : Z := 2147483647.

(** The delay that the runtime keeps: a delay that is not a number from 1 to
    [TIMEOUT_MAX] is set to 1 (for one above [TIMEOUT_MAX] the runtime also
    emits a process warning, which is not a call of [console.log]). *)
Definition timer_delay (ms : number) : number :=
  match ms with
  | Num z => if (1 <=? z) && (z <=? TIMEOUT_MAX) then Num z else Num 1
  | NaN => Num 1
  end.

(** [setTimeout(cb, ms)]: a new pending timer under a fresh handle. *)
Definition setTimeout (cb : TimerCallback) (ms : number) : M nat :=
  λ w, let t := next_timer w in
       ({| this := this w;
           timers :=
             <[t := {| callback := cb; delay := timer_delay ms |}]> (timers w);
           next_timer := S t; console := console w |}, Returned t).

(** *** Field assignments *)

Definition set_requestPoolMax (v : number) (c : ClientState) : ClientState :=
  {| model := model c; debug := debug c; requestPoolMax := v;
     requestPool := requestPool c; tokenPoolMax := tokenPoolMax c;
     tokenPool := tokenPool c; requestTimer := requestTimer c;
     tokenTimer := tokenTimer c |}.

Definition set_requestPool (v : number) (c : ClientState) : ClientState :=
  {| model := model c; debug := debug c; requestPoolMax := requestPoolMax c;
     requestPool := v; tokenPoolMax := tokenPoolMax c;
     tokenPool := tokenPool c; requestTimer := requestTimer c;
     tokenTimer := tokenTimer c |}.

Definition set_tokenPoolMax (v : number) (c : ClientState) : ClientState :=
  {| model := model c; debug := debug c; requestPoolMax := requestPoolMax c;
     requestPool := requestPool c; tokenPoolMax := v;
     tokenPool := tokenPool c; requestTimer := requestTimer c;
     tokenTimer := tokenTimer c |}.

Definition set_tokenPool (v : number) (c : ClientState) : ClientState :=
  {| model := model c; debug := debug c; requestPoolMax := requestPoolMax c;
     requestPool := requestPool c; tokenPoolMax := tokenPoolMax c;
     tokenPool := v; requestTimer := requestTimer c;
     tokenTimer := tokenTimer c |}.

Definition set_requestTimer (v : option nat) (c : ClientState) : ClientState :=
  {| model := model c; debug := debug c; requestPoolMax := requestPoolMax c;
     requestPool := requestPool c; tokenPoolMax := tokenPoolMax c;
     tokenPool := tokenPool c; requestTimer := v;
     tokenTimer := tokenTimer c |}.

Definition set_tokenTimer (v : option nat) (c : ClientState) : ClientState :=
  {| model := model c; debug := debug c; requestPoolMax := requestPoolMax c;
     requestPool := requestPool c; tokenPoolMax := tokenPoolMax c;
     tokenPool := tokenPool c; requestTimer := requestTimer c;
     tokenTimer := v |}.

(** ** [OpenAIClient.updatePools] *)

(** The response headers: each name present with its (combined) value. *)
Abbreviation Headers := (gmap string string).

Definition has (headers : Headers) (name : string) : bool :=
  bool_decide (is_Some (headers !! name)).

(** [headers.get(name) || fallback]: the fallback replaces an absent and an
    empty value. *)
Definition get_or (headers : Headers) (name fallback : string) : string :=
  match headers !! name with
  | Some v => if String.eqb v "" then fallback else v
  | None => fallback
  end.

(** [n > bound]; false for [NaN]. *)
Definition number_gt (n : number) (bound : Z) : bool :=
  match n with
  | Num z => bound <? z
  | NaN => false
  end.

Definition log_ratio (q : option QArith_base.Q) : LogArg :=
  match q with
  | Some q => LogRatio q
  | None => LogNum NaN
  end.

Local Open Scope js_scope.

Definition updatePools (headers : Headers) : M unit :=
  when (has headers "x-ratelimit-limit-requests")
    (modify_this (set_requestPoolMax
       (parseInt (get_or headers "x-ratelimit-limit-requests" "0") None)));;;
  when (has headers "x-ratelimit-remaining-requests")
    (modify_this (set_requestPool
       (parseInt (get_or headers "x-ratelimit-remaining-requests" "0") None)));;;
  when (has headers "x-ratelimit-limit-tokens")
    (modify_this (set_tokenPoolMax
       (parseInt (get_or headers "x-ratelimit-limit-tokens" "0") None)));;;
  when (has headers "x-ratelimit-remaining-tokens")
    (modify_this (set_tokenPool
       (parseInt (get_or headers "x-ratelimit-remaining-tokens" "0") None)));;;
  when (has headers "x-ratelimit-reset-requests")
    (let* c := get_this in
     clearTimeout (requestTimer c);;;
     let* timeToReset :=
       logged (parseDuration (get_or headers "x-ratelimit-reset-requests" "0s")) in
     if negb (isValid timeToReset) then
       throw "Time to reset requests does not have a valid format"
     else
       let* t := setTimeout ReqReset (asMilliseconds timeToReset) in
       modify_this (set_requestTimer (Some t));;;
       when (number_gt (asMilliseconds timeToReset) 10000)
         (let* c := get_this in
          when (debug c)
            (console_log
               [LogStr "WARNING: request reset time is greater than 10 seconds";
                log_ratio (asSeconds timeToReset);
                LogStr (id (model c))])));;;
  when (has headers "x-ratelimit-reset-tokens")
    (let* c := get_this in
     clearTimeout (tokenTimer c);;;
     let* timeToReset :=
       logged (parseDuration (get_or headers "x-ratelimit-reset-tokens" "0s")) in
     if negb (isValid timeToReset) then
       throw "Time to reset tokens does not have a valid format"
     else
       let* t := setTimeout TokenReset (asMilliseconds timeToReset) in
       modify_this (set_tokenTimer (Some t));;;
       when (number_gt (asMilliseconds timeToReset) 10000)
         (let* c := get_this in
          when (debug c)
            (console_log
               [LogStr "WARNING: token reset time is greater than 10 seconds";
                log_ratio (asSeconds timeToReset);
                LogStr (id (model c))]))).

Local Close Scope js_scope.

(** ** [OpenAIClient.parseError] *)

(** Modelled from the spec: the enumeration [RejectionReason] of
    [src/clients/base.ts], which is outside the sources at hand; its five
    members are the ones [parseError] returns. *)
Inductive RejectionReason : Type :=
| BAD_REQUEST
| TOO_MANY_REQUESTS
| INSUFFICIENT_QUOTA
| SERVER_ERROR
| UNKNOWN.

(** A value that a property of an error can hold. *)
#[warnings="-register-all"]
Inductive JsValue : Type :=
| JsUndefined
| JsNull
| JsBool (b : bool)
| JsNumber (n : number)
| JsString (s : string)
| JsObj (props : list (string * JsValue)).

(** [o.name] on an object given by its properties. *)
Definition member (props : JsObject JsValue) (name : string) : JsValue :=
  default JsUndefined (obj_get props name).

(** [v.name] on a value that passed a truthiness test: a primitive has no
    such property. *)
Definition member_of (v : JsValue) (name : string) : JsValue :=
  match v with
  | JsObj props => member props name
  | _ => JsUndefined
  end.

(** The conversion to a boolean used by [&&]. *)
Definition truthy (v : JsValue) : bool :=
  match v with
  | JsUndefined | JsNull => false
  | JsBool b => b
  | JsNumber NaN => false
  | JsNumber (Num z) => negb (z =? 0)
  | JsString s => negb (String.eqb s "")
  | JsObj _ => true
  end.

(** [v === n] for a number literal [n]. *)
Definition is_number (v : JsValue) (n : Z) : bool :=
  match v with
  | JsNumber (Num z) => z =? n
  | _ => false
  end.

(** [v === s] for a string literal [s]. *)
Definition is_string (v : JsValue) (s : string) : bool :=
  match v with
  | JsString s' => String.eqb s' s
  | _ => false
  end.

(** [v.name]: reading a property of [null] or [undefined] throws a
    [TypeError]; a primitive has no such property. *)
Definition read_property (v : JsValue) (name : string) : Outcome JsValue :=
  match v with
  | JsUndefined | JsNull => Thrown "TypeError"
  | _ => Returned (member_of v name)
  end.

(** The error is of type [any]. Once [error.status] has been read, [error]
    is neither [null] nor [undefined], and [error.error] is read without a
    throw; so is [error.error.code] behind the test of [error.error]. *)
Definition parseError (error : JsValue) : Outcome RejectionReason :=
  match read_property error "status" with
  | Thrown e => Thrown e
  | Returned status =>
      if is_number status 400 then Returned BAD_REQUEST
      else if is_number status 429 then
        if truthy (member_of error "error")
           && is_string (member_of (member_of error "error") "code")
                "insufficient_quota"
        then Returned INSUFFICIENT_QUOTA
        else Returned TOO_MANY_REQUESTS
      else if is_number status 500 then Returned SERVER_ERROR
      else Returned UNKNOWN
  end.

(** ** [OpenAIClient.createChatCompletion] *)

Section ChatCompletion.

(** The message type of [src/thread.ts], the values of the untyped option
    fields, the usage record of a completion, the JSON serializer and the
    [cl100k_base] encoder are collaborators. The serializer and the encoder
    return or throw. *)
Variables Message Any Usage : Type.
Variable JSON_stringify : list Message → Outcome string.
Variable encode : string → Outcome (list nat).

(** [countTokens] of [src/clients/common.ts]: the length of what the encoder
    returns, or the error it throws. *)
Definition countTokens (text : string) : Outcome nat :=
  match encode text with
  | Returned tokens => Returned (length tokens)
  | Thrown e => Thrown e
  end.

Record ModelInvocationOptions : Type := {
  tools : option Any;
  response_format : option Any;
  temperature : QArith_base.Q;
  max_tokens : option Z
}.

Record ChatCompletionRequest : Type := {
  options : option ModelInvocationOptions;
  request_model : string;
  messages : list Message
}.

(** [OpenAI.Chat.ChatCompletionCreateParamsNonStreaming], the fields that
    are set. *)
Record OpenAIRequest : Type := {
  oa_model : string;
  oa_temperature : option QArith_base.Q;
  oa_max_tokens : option Z;
  oa_tools : option Any;
  oa_response_format : option Any;
  oa_messages : list Message
}.

Record Choice : Type := { message : Message }.

Record ChatCompletion : Type := {
  completion_usage : option Usage;
  choices : list Choice
}.

Record ChatCompletionResponse : Type := {
  usage : option Usage;
  response_messages : list Message
}.

Definition estimateTokens (request : OpenAIRequest) : Outcome nat :=
  match JSON_stringify (oa_messages request) with
  | Returned text => countTokens text
  | Thrown e => Thrown e
  end.

(** An asynchronous method of the client: it resolves, it rejects (what is
    thrown in its body rejects its promise), or it awaits
    [this.enqueue(tokens, request)] of [BaseClient] and goes on with the
    completion that is delivered. *)
Inductive Async (R : Type) : Type :=
| Resolve (r : R)
| Reject (e : string)
| AwaitEnqueue (tokens : nat) (request : OpenAIRequest)
    (k : ChatCompletion → Async R).
Arguments Resolve {R} r.
Arguments Reject {R} e.
Arguments AwaitEnqueue {R} tokens request k.

(** [flag] as a condition: [undefined] counts as false. *)
Definition flag_set (flag : option bool) : bool := default false flag.

Definition createChatCompletion (model : ModelMetadata)
    (request : ChatCompletionRequest) : Async ChatCompletionResponse :=
  let openaiRequest :=
    {| oa_model := checkpoint (card model);
       oa_temperature := temperature <$> options request;
       oa_max_tokens := options request ≫= max_tokens;
       oa_tools := options request ≫= tools;
       oa_response_format := options request ≫= response_format;
       oa_messages := messages request |} in
  let finish (response : ChatCompletion) :=
    Resolve {| usage := completion_usage response;
               response_messages := map message (choices response) |} in
  if flag_set (supportsImages (card model)) then
    AwaitEnqueue 1000 openaiRequest finish
  else
    match estimateTokens openaiRequest with
    | Returned tokens => AwaitEnqueue tokens openaiRequest finish
    | Thrown e => Reject e
    end.

(** The call of [enqueue] a method makes first: the estimated cost and the
    request. *)
Definition enqueued {R} (p : Async R) : option (nat * OpenAIRequest) :=
  match p with
  | Resolve _ => None
  | Reject _ => None
  | AwaitEnqueue tokens request _ => Some (tokens, request)
  end.

(** How the promise of the method settles, given how the promise of each
    call of [enqueue] does: an awaited rejection rejects the method. *)
Fixpoint run {R} (enqueue : nat → OpenAIRequest → Outcome ChatCompletion)
    (p : Async R) : Outcome R :=
  match p with
  | Resolve r => Returned r
  | Reject e => Thrown e
  | AwaitEnqueue tokens request k =>
      match enqueue tokens request with
      | Returned response => run enqueue (k response)
      | Thrown e => Thrown e
      end
  end.

End ChatCompletion.

Arguments messages {Message Any} _.
Arguments options {Message Any} _.
Arguments oa_messages {Message Any} _.
Arguments Resolve {Message Any Usage R} r.
Arguments Reject {Message Any Usage R} e.
Arguments AwaitEnqueue {Message Any Usage R} tokens request k.
Arguments createChatCompletion {Message Any Usage} JSON_stringify encode model request.
Arguments enqueued {Message Any Usage R} p.
Arguments run {Message Any Usage R} enqueue p.

(** ** [parseObject] and [parseMultipleObjects]

    The two helpers of the utilities module that cut a text into JSON
    objects. [JSON.parse] is a collaborator: it returns a value or throws. *)

(** The double quote and the backslash. *)
Definition double_quote : ascii := "034"%char.
Definition backslash : ascii := "092"%char.

(** [char === " " || char === "\n" || char === "\r" || char === "\t"] *)
Definition is_blank (char : ascii) : bool :=
  Ascii.eqb char " " || Ascii.eqb char "010" || Ascii.eqb char "013"
  || Ascii.eqb char "009".

(** [stack.length === 0] *)
Definition stack_empty (stack : list ascii) : bool :=
  match stack with [] => true | _ => false end.

Section JsonObjects.

Variable Value : Type.
Variable JSON_parse : string → Outcome Value.

(** The loop of [parseObject] from the position [pointer] on: [source] is
    what is left of the input from there, [prev] is [source[pointer - 1]]
    ([None] at position 0), and what is left after the character read is
    [source.slice(pointer + 1)]. *)
Fixpoint parseObject_loop (stack : list ascii) (objStr : string)
    (inString : bool) (prev : option ascii) (source : string)
  : Outcome (Value * string) :=
  match source with
  | EmptyString => Thrown "Invalid JSON"
  | String char rest =>
      if stack_empty stack && is_blank char then
        parseObject_loop stack objStr inString (Some char) rest
      else
        let inString :=
          if Ascii.eqb char double_quote
             && match prev with
                | None => true
                | Some p => negb (Ascii.eqb p backslash)
                end
          then negb inString else inString in
        let stack :=
          if negb inString then
            let stack :=
              if Ascii.eqb char "{" then (stack ++ [char])%list else stack in
            if Ascii.eqb char "}" then removelast stack else stack
          else stack in
        let objStr := objStr +:+ String char EmptyString in
        if stack_empty stack then
          match JSON_parse objStr with
          | Returned value => Returned (value, rest)
          | Thrown e => Thrown e
          end
        else parseObject_loop stack objStr inString (Some char) rest
  end.

Definition parseObject (source : string) : Outcome (Value * string) :=
  parseObject_loop [] "" false None source.

(** The loop of [parseMultipleObjects]; [None] when [fuel] rounds were not
    enough. *)
Fixpoint parseMultipleObjects_loop (fuel : nat) (ret : list Value)
    (rest : string) : option (Outcome (list Value)) :=
  match fuel with
  | O => None
  | S fuel' =>
      if (String.length rest =? 0)%nat then Some (Returned ret)
      else
        match parseObject rest with
        | Returned (obj, next) =>
            parseMultipleObjects_loop fuel' (ret ++ [obj])%list next
        | Thrown e => Some (Thrown e)
        end
  end.

(** Every round but the last takes at least one character, so one round
    more than the input has characters is enough fuel. *)
Definition parseMultipleObjects (source : string)
  : option (Outcome (list Value)) :=
  parseMultipleObjects_loop (S (String.length source)) [] source.

End JsonObjects.

Arguments parseObject_loop {Value} JSON_parse stack objStr inString prev source.
Arguments parseObject {Value} JSON_parse source.
Arguments parseMultipleObjects_loop {Value} JSON_parse fuel ret rest.
Arguments parseMultipleObjects {Value} JSON_parse source.

(** ** The class [Timing]

    A moment is taken by its value: the milliseconds since the epoch of a
    valid moment, [NaN] for an invalid one. The class never changes a moment
    it holds. [moment()], the current time, is what the clock reads when the
    method runs: the argument [now]. *)

Module Timing.

Abbreviation Moment := number.

(** [a.isBefore(b)]: false when either moment is invalid. *)
Definition isBefore (a b : Moment) : bool :=
  match a, b with
  | Num x, Num y => x <? y
  | _, _ => false
  end.

(** [a.diff(b)]: the milliseconds from [b] to [a]. *)
Definition diff (a b : Moment) : number :=
  match a, b with
  | Num x, Num y => Num (x - y)
  | _, _ => NaN
  end.

(** [moment.duration(n)] for a number that may be [NaN]. *)
Definition duration (n : number) : Duration :=
  new_Duration [("milliseconds", n)].

Record Timing : Type := {
  _start : Moment;
  _end : option Moment
}.

(** [new Timing(start, end)] *)
Definition new (now : Z) (start end_ : option Moment) : Outcome Timing :=
  let s := start in
  let e := end_ in
  if match s, e with
     | Some s', Some e' => isBefore e' s'
     | _, _ => false
     end
  then Thrown "Timing end is before start"
  else Returned {| _start := default (Num now) s; _end := e |}.

(** [hasEnded] *)
Definition hasEnded (t : Timing) : bool :=
  match _end t with Some _ => true | None => false end.

(** [finish()]: the timing after the call, or the error. *)
Definition finish (now : Z) (t : Timing) : Outcome Timing :=
  if hasEnded t then Thrown "Timing has already ended"
  else if isBefore (Num now) (_start t)
  then Thrown "Timing start is in the future"
  else Returned {| _start := _start t; _end := Some (Num now) |}.

(** [elapsed] *)
Definition elapsed (now : Z) (t : Timing) : Duration :=
  match _end t with
  | Some e => duration (diff e (_start t))
  | None => duration (diff (Num now) (_start t))
  end.

End Timing.

(** ** The catalog of models ([src/models.ts]) *)

Module Models.

Inductive Provider : Type :=
| OpenAI.

Definition provider_value (p : Provider) : string :=
  match p with
  | OpenAI => "openai"
  end.

Inductive ModelType : Type :=
| GPT4
| GPT4Turbo
| GPT4Vision
| GPT35
| GPT35Turbo.

(** The string of each member of the enumeration. *)
Definition model_value (m : ModelType) : string :=
  match m with
  | GPT4 => "gpt-4"
  | GPT4Turbo => "gpt-4-turbo-preview"
  | GPT4Vision => "gpt-4-vision-preview"
  | GPT35 => "gpt-3.5-turbo-16k"
  | GPT35Turbo => "gpt-3.5-turbo-1106"
  end.

(** Prices are decimal fractions, in USD for one token. *)
Record ModelPricing : Type := {
  pricing_provider : Provider;
  prompt : QArith_base.Q;
  completion : QArith_base.Q;
  contextSize : Z;
  rpm : Z;
  tpm : Z;
  pricing_supportsImages : option bool
}.

Record ModelMetadata : Type := {
  provider : Provider;
  pricing_of : option ModelPricing
}.

(** An object literal: the properties are set in the order written, a
    later one replacing an earlier one of the same name. *)
Definition object_literal {V} (properties : list (string * V)) : JsObject V :=
  fold_left (λ o kv, obj_set o kv.1 kv.2) properties [].

Definition pricing : JsObject ModelPricing :=
  object_literal
    [ (model_value GPT4,
       {| pricing_provider := OpenAI;
          prompt := QArith_base.Qmake 3 100;
          completion := QArith_base.Qmake 6 100;
          contextSize := 8192; rpm := 10000; tpm := 300000;
          pricing_supportsImages := None |});
      (model_value GPT4Turbo,
       {| pricing_provider := OpenAI;
          prompt := QArith_base.Qmake 1 100;
          completion := QArith_base.Qmake 3 100;
          contextSize := 128000; rpm := 5000; tpm := 300000;
          pricing_supportsImages := None |});
      (model_value GPT4Vision,
       {| pricing_provider := OpenAI;
          prompt := QArith_base.Qmake 1 100;
          completion := QArith_base.Qmake 3 100;
          contextSize := 128000; rpm := 80; tpm := 10000;
          pricing_supportsImages := Some true |});
      (model_value GPT35,
       {| pricing_provider := OpenAI;
          prompt := QArith_base.Qmake 1 1000;
          completion := QArith_base.Qmake 2 1000;
          contextSize := 16385; rpm := 10000; tpm := 1000000;
          pricing_supportsImages := None |});
      (model_value GPT35Turbo,
       {| pricing_provider := OpenAI;
          prompt := QArith_base.Qmake 1 1000;
          completion := QArith_base.Qmake 2 1000;
          contextSize := 16385; rpm := 10000; tpm := 1000000;
          pricing_supportsImages := None |}) ].

(** [pricing[m]]: [None] is [undefined]. *)
Definition models : JsObject ModelMetadata :=
  object_literal
    [ (model_value GPT4,
       {| provider := OpenAI;
          pricing_of := obj_get pricing (model_value GPT4) |});
      (model_value GPT4Turbo,
       {| provider := OpenAI;
          pricing_of := obj_get pricing (model_value GPT4Turbo) |});
      (model_value GPT4Vision,
       {| provider := OpenAI;
          pricing_of := obj_get pricing (model_value GPT4Vision) |});
      (model_value GPT35,
       {| provider := OpenAI;
          pricing_of := obj_get pricing (model_value GPT35) |});
      (model_value GPT35Turbo,
       {| provider := OpenAI;
          pricing_of := obj_get pricing (model_value GPT35Turbo) |}) ].

(** [Object.keys(models)] *)
Definition availableModels : list string := keys models.

End Models.

(** * Definitions used to state the properties *)

(** ** The matcher for [\d{1,5}(h|ms|m|s)] written out

    The same search as [find] does for the two patterns of [parseDuration],
    as plain recursion on the input. *)

(** [s] without the prefix [p], when it has it. *)
Fixpoint strip_prefix (p s : string) : option string :=
  match p, s with
  | EmptyString, _ => Some s
  | String a p', String b s' =>
      if Ascii.eqb a b then strip_prefix p' s' else None
  | String _ _, EmptyString => None
  end.

(** An alternation of literals: the first alternative that is a prefix. *)
Fixpoint first_alternative (alts : list string) (s : string)
  : option (string * string) :=
  match alts with
  | [] => None
  | a :: alts' =>
      match strip_prefix a s with
      | Some rest => Some (a, rest)
      | None => first_alternative alts' s
      end
  end.

Definition unit_alternatives : list string := ["h"; "ms"; "m"; "s"].

(** [(h|ms|m|s)] at the head of [s]: the unit and what follows it. *)
Definition match_unit (s : string) : option (string * string) :=
  first_alternative unit_alternatives s.

(** [\d{1,max}(h|ms|m|s)] at the head of [s]: one digit is required; then
    a further digit is preferred while the bound allows it, and the unit is
    tried when that path fails. Result: digits, unit, rest. *)
Fixpoint match_digits (max : nat) (s : string)
  : option (string * string * string) :=
  match max, s with
  | S max', String c r =>
      if is_digit c then
        match match_digits max' r with
        | Some (ds, u, rest) => Some (String c ds, u, rest)
        | None =>
            match match_unit r with
            | Some (u, rest) => Some (String c EmptyString, u, rest)
            | None => None
            end
        end
      else None
  | _, _ => None
  end.

Definition match_here (s : string) : option (string * string * string) :=
  match_digits 5 s.

(** Leftmost match in [s]. *)
Fixpoint search (s : string) : option (string * string * string) :=
  match match_here s with
  | Some m => Some m
  | None =>
      match s with
      | EmptyString => None
      | String _ r => search r
      end
  end.

(** The successive matches of the global regular expression: after each
    match the search resumes at its end. At most [fuel] matches. *)
Fixpoint match_all (fuel : nat) (s : string) : list string :=
  match fuel with
  | O => []
  | S fuel' =>
      match search s with
      | None => []
      | Some (ds, u, rest) => (ds +:+ u) :: match_all fuel' rest
      end
  end.

(** The number a string of decimal digits denotes. *)
Fixpoint decimal_from (acc : Z) (ds : string) : Z :=
  match ds with
  | EmptyString => acc
  | String c r => decimal_from (acc * 10 + (Z.of_N (code c) - 48)) r
  end.

Definition decimal_value (ds : string) : Z := decimal_from 0 ds.

(** [s] without its first [n] characters. *)
Fixpoint string_drop (n : nat) (s : string) : string :=
  match n, s with
  | S n', String _ r => string_drop n' r
  | _, _ => s
  end.

(** The last [n] characters of [s]. *)
Definition last_chars (n : nat) (s : string) : string :=
  string_drop (String.length s - n) s.

(** A match of the regular expression: one to five digits and a unit. *)
Definition is_token (t : string) : Prop :=
  ∃ ds u, t = ds +:+ u ∧ all_digits ds = true ∧ ds ≠ ""
          ∧ (String.length ds ≤ 5)%nat ∧ In u unit_alternatives.

Definition starts_with_digit (s : string) : bool :=
  match s with
  | String c _ => is_digit c
  | EmptyString => false
  end.

(** The unit names that [parseDuration] writes. *)
Definition plural_units : list string :=
  ["seconds"; "minutes"; "hours"; "milliseconds"].

(** The objects [parseDuration] builds: distinct properties among the four
    unit names, none of them [NaN]. *)
Definition units_ok (o : JsObject number) : Prop :=
  List.NoDup (keys o)
  ∧ Forall (λ kv, In kv.1 plural_units ∧ isNaN kv.2 = false) o.

(** moment's name of a unit. *)
Definition singular (prop : string) : string :=
  default "" (normalizeUnits prop).

Definition singular_prop (kv : string * number) : string * number :=
  (singular kv.1, kv.2).

(** The digits of a token. *)
Fixpoint token_digits (t : string) : string :=
  match t with
  | String c r => if is_digit c then String c (token_digits r) else ""
  | EmptyString => ""
  end.

(** The unit of a token: what follows its digits. *)
Fixpoint token_unit (t : string) : string :=
  match t with
  | String c r => if is_digit c then token_unit r else t
  | EmptyString => ""
  end.

Definition token_value (t : string) : Z := decimal_value (token_digits t).

(** The value of the last token of unit [u] among [parts], if there is
    one. *)
Fixpoint last_value (u : string) (parts : list string) : option Z :=
  match parts with
  | [] => None
  | t :: parts' =>
      match last_value u parts' with
      | Some v => Some v
      | None =>
          if String.eqb (token_unit t) u then Some (token_value t) else None
      end
  end.

(** What unit [u] contributes: the value of its last token, or nothing. *)
Definition contribution (u : string) (parts : list string) : Z :=
  default 0 (last_value u parts).

(** The milliseconds in one unit. *)
Definition unit_ms (u : string) : Z :=
  if String.eqb u "h" then 3600000
  else if String.eqb u "m" then 60000
  else if String.eqb u "s" then 1000
  else if String.eqb u "ms" then 1
  else 0.

(** moment's name for the unit written [u]. *)
Definition plural (u : string) : string := default "" (obj_get unit_names u).

Definition write_token (units : JsObject number) (t : string)
  : JsObject number :=
  obj_set units (plural (token_unit t)) (Num (token_value t)).

(** The decimal numeral of a natural number, as JavaScript prints it. *)
Definition decimal_string (n : N) : string :=
  NilEmpty.string_of_uint (N.to_uint n).

Definition numeral_ok (n : N) : bool :=
  let ds := decimal_string n in
  all_digits ds && negb (String.eqb ds "")
  && (String.length ds <=? 5)%nat && (decimal_value ds =? Z.of_N n).

Fixpoint numerals_ok_from (n : N) (count : nat) : bool :=
  match count with
  | O => true
  | S count' => numeral_ok n && numerals_ok_from (N.succ n) count'
  end.

(** All the matches that the written-out matcher finds in [s]. *)
Definition matches (s : string) : list string :=
  match_all (String.length s) s.

Definition extend_rest (x : string) (m : option (string * string * string))
  : option (string * string * string) :=
  match m with
  | Some (ds, u, rest) => Some (ds, u, rest +:+ x)
  | None => None
  end.

(** The four limit and remaining headers applied to the client. *)
Definition limits_applied (headers : Headers) (c : ClientState) : ClientState :=
  let c :=
    if has headers "x-ratelimit-limit-requests" then
      set_requestPoolMax
        (parseInt (get_or headers "x-ratelimit-limit-requests" "0") None) c
    else c in
  let c :=
    if has headers "x-ratelimit-remaining-requests" then
      set_requestPool
        (parseInt (get_or headers "x-ratelimit-remaining-requests" "0") None) c
    else c in
  let c :=
    if has headers "x-ratelimit-limit-tokens" then
      set_tokenPoolMax
        (parseInt (get_or headers "x-ratelimit-limit-tokens" "0") None) c
    else c in
  if has headers "x-ratelimit-remaining-tokens" then
    set_tokenPool
      (parseInt (get_or headers "x-ratelimit-remaining-tokens" "0") None) c
  else c.

(** The warning that a reset time above ten seconds can give. *)
Definition reset_warning (text : string) (w : World) (d : Duration)
  : list LogEntry :=
  if number_gt (asMilliseconds d) 10000 && debug (this w) then
    [[LogStr text; log_ratio (asSeconds d); LogStr (id (model (this w)))]]
  else [].

(** A reset header applied to the world: the old timer of the pool is
    cleared and a new one is pending under the next handle. *)
Definition reset_applied (name : string) (cb : TimerCallback)
    (handle : ClientState → option nat)
    (set_handle : option nat → ClientState → ClientState)
    (text : string) (headers : Headers) (w : World) : World :=
  if has headers name then
    let d := parseDuration (get_or headers name "0s") in
    let t := next_timer w in
    {| this := set_handle (Some t) (this w);
       timers :=
         <[t := {| callback := cb;
                   delay := timer_delay (asMilliseconds d.1) |}]>
           (match handle (this w) with
            | Some t0 => delete t0 (timers w)
            | None => timers w
            end);
       next_timer := S t;
       console := ((console w ++ d.2) ++ reset_warning text w d.1)%list |}
  else w.

Definition request_warning : string :=
  "WARNING: request reset time is greater than 10 seconds".

Definition token_warning : string :=
  "WARNING: token reset time is greater than 10 seconds".

Definition requests_reset_applied : Headers → World → World :=
  reset_applied "x-ratelimit-reset-requests" ReqReset requestTimer
    set_requestTimer request_warning.

Definition tokens_reset_applied : Headers → World → World :=
  reset_applied "x-ratelimit-reset-tokens" TokenReset tokenTimer
    set_tokenTimer token_warning.

Definition updatePools_result (headers : Headers) (w : World) : World :=
  tokens_reset_applied headers
    (requests_reset_applied headers (with_this (limits_applied headers) w)).

(** The two reset blocks of [updatePools] are one block, written once for
    each pool. *)
Definition reset_block (name : string) (cb : TimerCallback)
    (handle : ClientState → option nat)
    (set_handle : option nat → ClientState → ClientState)
    (invalid text : string) (headers : Headers) : M unit :=
  (let* c := get_this in
   clearTimeout (handle c);;;
   let* timeToReset := logged (parseDuration (get_or headers name "0s")) in
   if negb (isValid timeToReset) then throw invalid
   else
     let* t := setTimeout cb (asMilliseconds timeToReset) in
     modify_this (set_handle (Some t));;;
     when (number_gt (asMilliseconds timeToReset) 10000)
       (let* c := get_this in
        when (debug c)
          (console_log
             [LogStr text; log_ratio (asSeconds timeToReset);
              LogStr (id (model c))])))%js.

(** The handles the client holds were given out by [setTimeout]: they are
    below the next fresh handle, and the two pools hold different ones. *)
Definition handles_ok (w : World) : bool :=
  match requestTimer (this w), tokenTimer (this w) with
  | Some r, Some t =>
      (r <? next_timer w)%nat && (t <? next_timer w)%nat && negb (r =? t)%nat
  | Some r, None => (r <? next_timer w)%nat
  | None, Some t => (t <? next_timer w)%nat
  | None, None => true
  end.

(** A client with a pending request timer, and a response that only speaks
    of the token pool. *)
Definition example_client (dbg : bool) : ClientState :=
  {| model := {| id := "gpt-4";
                 card := {| checkpoint := "gpt-4-0613";
                            supportsImages := None |} |};
     debug := dbg;
     requestPoolMax := Num 500; requestPool := Num 120;
     tokenPoolMax := Num 30000; tokenPool := Num 8000;
     requestTimer := Some 3%nat; tokenTimer := None |}.

Definition example_world (dbg : bool) : World :=
  {| this := example_client dbg;
     timers := {[ 3%nat := {| callback := ReqReset; delay := Num 400 |} ]};
     next_timer := 4;
     console := [] |}.

Definition token_headers : Headers :=
  {[ "x-ratelimit-limit-tokens" := "40000";
     "x-ratelimit-remaining-tokens" := "39000";
     "x-ratelimit-reset-tokens" := "1s" ]}.

(** A console entry that starts with [text]. *)
Definition is_warning (text : string) (e : LogEntry) : bool :=
  match e with
  | LogStr s :: _ => String.eqb s text
  | _ => false
  end.

Definition no_warning (text : string) (out : list LogEntry) : Prop :=
  Forall (λ e, is_warning text e = false) out.

Definition long_reset_headers : Headers :=
  {[ "x-ratelimit-reset-requests" := "11s";
     "x-ratelimit-reset-tokens" := "6h10m0s0ms" ]}.

(** The [code] of the error nested under [error], when [error.error] is an
    object that has one. *)
Definition nested_code (error : JsValue) : option JsValue :=
  match error with
  | JsObj fields =>
      match obj_get fields "error" with
      | Some (JsObj props) => obj_get props "code"
      | _ => None
      end
  | _ => None
  end.

(** A text model, a model that supports images, an encoder that makes one
    token of every character, a serializer for messages that are strings,
    and a serializer that throws. *)
Definition text_model : ModelMetadata :=
  {| id := "gpt-4";
     card := {| checkpoint := "gpt-4-0613"; supportsImages := None |} |}.

Definition image_model : ModelMetadata :=
  {| id := "gpt-4-vision-preview";
     card := {| checkpoint := "gpt-4-vision-preview";
                supportsImages := Some true |} |}.

Definition one_token_per_character (text : string) : Outcome (list nat) :=
  Returned (map nat_of_ascii (list_ascii_of_string text)).

Definition bracketed (messages : list string) : Outcome string :=
  Returned ("[" +:+ String.concat "," messages +:+ "]").

Definition circular (messages : list string) : Outcome string :=
  Thrown "TypeError".

(** A toy [JSON.parse] for the examples: it accepts a text that starts with
    an opening brace and ends with a closing one, and gives its length. *)
Definition toy_parse (text : string) : Outcome nat :=
  match text with
  | String c _ =>
      if Ascii.eqb c "{"
         && String.eqb (last_chars 1 text) "}"
      then Returned (String.length text)
      else Thrown "SyntaxError"
  | EmptyString => Thrown "SyntaxError"
  end.

(** [s] between double quotes. *)
Definition quoted (s : string) : string :=
  String double_quote s +:+ String double_quote "".

(** The inside of an object with the key a and, as its value, the string
    of one closing brace; and the object. *)
Definition string_with_brace : string := quoted "a" +:+ ":" +:+ quoted "}".

Definition brace_in_string : string :=
  "{" +:+ string_with_brace +:+ "}".

Fixpoint all_blank (s : string) : bool :=
  match s with
  | EmptyString => true
  | String c r => is_blank c && all_blank r
  end.

(** The first character of [s] is there and is not blank. *)
Definition starts_with_text (s : string) : bool :=
  match s with
  | EmptyString => false
  | String c _ => negb (is_blank c)
  end.

(** A character that [parseObject] reads without changing its state:
    neither brace, no double quote and no backslash. *)
Definition is_plain (c : ascii) : bool :=
  negb (Ascii.eqb c "{") && negb (Ascii.eqb c "}")
  && negb (Ascii.eqb c double_quote) && negb (Ascii.eqb c backslash).

(** The inside of a string as [parseObject] sees it, after the character
    [prev]: every double quote in it follows a backslash, and it does not
    end in a backslash. *)
Fixpoint string_body (prev : ascii) (body : string) : bool :=
  match body with
  | EmptyString => negb (Ascii.eqb prev backslash)
  | String c r =>
      (if Ascii.eqb c double_quote then Ascii.eqb prev backslash else true)
      && string_body c r
  end.

(** The inside of an object: plain characters, strings, and objects in
    braces. *)
Inductive items : string → Prop :=
| items_end : items ""
| items_plain (c : ascii) (r : string) :
    is_plain c = true → items r → items (String c r)
| items_string (body r : string) :
    string_body double_quote body = true → items r →
    items (String double_quote body +:+ String double_quote r)
| items_object (inner r : string) :
    items inner → items r → items ("{" +:+ inner +:+ "}" +:+ r).



(** [values] in front of the values of a result. *)
Definition prepend {Value} (values : list Value)
    (result : option (Outcome (list Value))) : option (Outcome (list Value)) :=
  match result with
  | Some (Returned more) => Some (Returned (values ++ more)%list)
  | other => other
  end.

(** Every double quote of [s], read after the character [prev], follows a
    backslash: [parseObject] takes none of them for the end of a string. *)
Fixpoint escaped_quotes (prev : ascii) (s : string) : bool :=
  match s with
  | EmptyString => true
  | String c r =>
      (if Ascii.eqb c double_quote then Ascii.eqb prev backslash else true)
      && escaped_quotes c r
  end.

(** The object with the key a and, as its value, the string of one escaped
    backslash (two backslashes between double quotes). *)
Definition escaped_backslash_object : string :=
  "{" +:+ quoted "a" +:+ ":" +:+ quoted "\\" +:+ "}".

(** The timing after a call of [finish] at the time [now]: unchanged when
    the call throws. *)
Definition finish_at (t : Timing.Timing) (now : Z) : Timing.Timing :=
  match Timing.finish now t with
  | Returned t' => t'
  | Thrown _ => t
  end.

(** The end of a timing is not before its start. *)
Definition in_order (t : Timing.Timing) : Prop :=
  match Timing._end t with
  | Some e => Timing.isBefore e (Timing._start t) = false
  | None => True
  end.

(** ** Durations as the API writes them *)

(** A token as written: its digits, then its unit. *)
Definition token_text (t : string * string) : string := t.1 +:+ t.2.

(** Tokens written one after the other. *)
Fixpoint written (tokens : list (string * string)) : string :=
  match tokens with
  | [] => ""
  | t :: tokens' => t.1 +:+ t.2 +:+ written tokens'
  end.

(** One to five digits and one of the four units. *)
Definition well_formed (t : string * string) : Prop :=
  all_digits t.1 = true ∧ t.1 ≠ "" ∧ (String.length t.1 ≤ 5)%nat
  ∧ In t.2 unit_alternatives.

(** The milliseconds that the tokens add up to. *)
Fixpoint total_ms (tokens : list (string * string)) : Z :=
  match tokens with
  | [] => 0
  | t :: tokens' => decimal_value t.1 * unit_ms t.2 + total_ms tokens'
  end.

(** The characters that a unit starts with. *)
Definition begins_unit (c : ascii) : bool :=
  Ascii.eqb "h" c || Ascii.eqb "m" c || Ascii.eqb "s" c.

(** The largest duration [parseDuration] can give: 99999 of each unit. *)
Definition largest_ms : Z := 99999 * (3600000 + 60000 + 1000 + 1).

(** ** What [updatePools] reads from a header *)

(** [parseInt(value || "0")] for the value of a header that is there. *)
Definition header_number (value : string) : number :=
  parseInt (if String.eqb value "" then "0" else value) None.

(** The largest integer below which every integer is a double:
    2^53 - 1. *)
Definition MAX_SAFE_INTEGER : Z := 9007199254740991.

(** A result of [parseInt] that JavaScript holds as it is: [NaN], or an
    integer that is a double as it stands. Beyond that range JavaScript
    rounds the integer that the digits denote. *)
Definition safe (n : number) : Prop :=
  match n with
  | NaN => True
  | Num z => Z.abs z ≤ MAX_SAFE_INTEGER
  end.

(** [parseDuration(value || "0s")] for the value of a header that is
    there. *)
Definition header_duration (value : string) : Logged Duration :=
  parseDuration (if String.eqb value "" then "0s" else value).

(** The client after a response with these headers. *)
Definition receive (w : World) (headers : Headers) : World :=
  (updatePools headers w).1.

(** Every pending timer is the one that its pool holds. *)
Definition timers_ok (w : World) : Prop :=
  handles_ok w = true
  ∧ ∀ h tm, timers w !! h = Some tm →
      match callback tm with
      | ReqReset => requestTimer (this w) = Some h
      | TokenReset => tokenTimer (this w) = Some h
      end.

(** A client that has not heard from the API yet. *)
Definition fresh_world (c : ClientState) : World :=
  {| this := set_tokenTimer None (set_requestTimer None c);
     timers := ∅; next_timer := 0; console := [] |}.

(** ** A request without its model *)

(** The request with another model name. *)
Definition with_model {Message Any : Type} (name : string)
    (request : ChatCompletionRequest Message Any)
  : ChatCompletionRequest Message Any :=
  {| options := options request; request_model := name;
     messages := messages request |}.

Arguments oa_model {Message Any} _.
Arguments oa_temperature {Message Any} _.
Arguments oa_max_tokens {Message Any} _.
Arguments oa_tools {Message Any} _.
Arguments oa_response_format {Message Any} _.
Arguments temperature {Any} _.
Arguments max_tokens {Any} _.
Arguments tools {Any} _.
Arguments response_format {Any} _.
Arguments message {Message} _.
Arguments completion_usage {Message Usage} _.
Arguments choices {Message Usage} _.
Arguments usage {Message Usage} _.
Arguments response_messages {Message Usage} _.

(** The members of [ModelType], in the order of their declaration. *)
Definition model_types : list Models.ModelType :=
  [Models.GPT4; Models.GPT4Turbo; Models.GPT4Vision; Models.GPT35;
   Models.GPT35Turbo].

(** * Properties *)

#[local] Arguments String.append !s1 s2 : simpl nomatch.

(** ** The embedding on small inputs *)

Example match_global_units :
  match_global "5ms3m2s" = Some ["5ms"; "3m"; "2s"]
  ∧ match_global "1h 30 m" = Some ["1h"]
  ∧ match_global "half an hour" = None.
Proof. by vm_compute. Qed.

Example regex_backtracks :
  match_at (Seq (Repeat 1 5 (Class is_digit)) (Literal "5")) "12355!"
  = Some ("12355", ∅, "!")
  ∧ match_at (Seq (Repeat 1 5 (Class is_digit)) (Literal "5")) "123456"
    = Some ("12345", ∅, "6")
  ∧ find_all (Repeat 0 3 (Literal "a")) 4 "baa" = [""; "aa"; ""].
Proof. by vm_compute. Qed.

Example match_groups_parts :
  match_groups "200ms" = Some ("200", "ms")
  ∧ match_groups "ms" = None.
Proof. by vm_compute. Qed.

Example parseInt_values :
  parseInt "00123" (Some 10) = Num 123
  ∧ parseInt "  -42 requests" None = Num (-42)
  ∧ parseInt "0x1F" None = Num 31
  ∧ parseInt "" None = NaN
  ∧ parseInt "many" None = NaN.
Proof. by vm_compute. Qed.

Example parseDuration_upper_case :
  asMilliseconds (parseDuration "1H30M").1 = Num 5400000.
Proof. by vm_compute. Qed.

Example parseDuration_console :
  (parseDuration "later").2
  = [[LogStr "WARNING: no parts when parsing time in client:";
      LogStr "later"]]
  ∧ (parseDuration "2m").2 = [].
Proof. by vm_compute. Qed.

Example updatePools_token_headers :
  let w' := (updatePools token_headers (example_world false)).1 in
  tokenPoolMax (this w') = Num 40000
  ∧ tokenPool (this w') = Num 39000
  ∧ tokenTimer (this w') = Some 4%nat
  ∧ timers w' !! 4%nat = Some {| callback := TokenReset; delay := Num 1000 |}
  ∧ next_timer w' = 5%nat.
Proof. by vm_compute. Qed.

Example updatePools_replaces_timer :
  let headers : Headers := {[ "x-ratelimit-reset-requests" := "250ms" ]} in
  let w' := (updatePools headers (example_world false)).1 in
  requestTimer (this w') = Some 4%nat
  ∧ timers w' !! 3%nat = None
  ∧ timers w' !! 4%nat = Some {| callback := ReqReset; delay := Num 250 |}.
Proof. by vm_compute. Qed.

(** ** Strings and characters *)

Ltac ascii_cases c := destruct c as [[|] [|] [|] [|] [|] [|] [|] [|]].

Lemma length_app (a b : string) :
  String.length (a +:+ b) = (String.length a + String.length b)%nat.
Proof. induction a as [|c a IH]; simpl; [done | by rewrite IH]. Qed.

Lemma app_empty_r (a : string) : a +:+ "" = a.
Proof. induction a as [|c a IH]; simpl; [done | by rewrite IH]. Qed.

Lemma app_assoc_str (a b c : string) : (a +:+ b) +:+ c = a +:+ b +:+ c.
Proof. induction a as [|x a IH]; simpl; [done | by rewrite IH]. Qed.

Lemma digit_facts (c : ascii) :
  is_digit c = true →
  lower_char c = c ∧ is_space c = false
  ∧ digit_value c = Some (Z.of_N (code c) - 48)
  ∧ 0 ≤ Z.of_N (code c) - 48 < 10
  ∧ Ascii.eqb c "-" = false ∧ Ascii.eqb c "+" = false.
Proof. ascii_cases c; vm_compute; intros; try discriminate; repeat split; congruence. Qed.

Lemma toLowerCase_length (s : string) :
  String.length (toLowerCase s) = String.length s.
Proof. induction s as [|c s IH]; simpl; [done | by rewrite IH]. Qed.

Lemma toLowerCase_app (a b : string) :
  toLowerCase (a +:+ b) = toLowerCase a +:+ toLowerCase b.
Proof. induction a as [|c a IH]; simpl; [done | by rewrite IH]. Qed.

Lemma toLowerCase_digits (ds : string) :
  all_digits ds = true → toLowerCase ds = ds.
Proof.
  induction ds as [|c ds IH]; simpl; [done |].
  intros [Hc Hds]%andb_prop.
  rewrite IH by done. by destruct (digit_facts c Hc) as [-> _].
Qed.

Lemma all_digits_app (a b : string) :
  all_digits (a +:+ b) = all_digits a && all_digits b.
Proof. induction a as [|c a IH]; simpl; [done | by rewrite IH, andb_assoc]. Qed.

Lemma all_digits_drop (n : nat) (s : string) :
  all_digits s = true → all_digits (string_drop n s) = true.
Proof.
  revert s; induction n as [|n IH]; intros [|c s]; simpl; try done.
  intros [_ Hs]%andb_prop. by apply IH.
Qed.

Lemma length_drop (n : nat) (s : string) :
  String.length (string_drop n s) = (String.length s - n)%nat.
Proof.
  revert s; induction n as [|n IH]; intros [|c s]; simpl; try done.
Qed.

(** [parseInt(ds, 10)] reads a string of digits as its decimal value. *)
Lemma parse_digits_decimal (ds : string) (acc : Z) :
  all_digits ds = true →
  parse_digits 10 (Some acc) ds = Some (decimal_from acc ds).
Proof.
  revert acc; induction ds as [|c ds IH]; intros acc; simpl; [done |].
  intros [Hc Hds]%andb_prop.
  destruct (digit_facts c Hc) as (_ & _ & -> & Hr & _).
  replace (_ <? 10) with true by (symmetry; apply Z.ltb_lt; lia).
  by apply IH.
Qed.

Lemma parseInt_digits (ds : string) :
  all_digits ds = true → ds ≠ "" →
  parseInt ds (Some 10) = Num (decimal_value ds).
Proof.
  destruct ds as [|c ds]; [done |]. simpl. intros [Hc Hds]%andb_prop _.
  destruct (digit_facts c Hc) as (_ & Hsp & Hv & Hr & Hm & Hp).
  unfold parseInt. simpl. rewrite Hsp. simpl. rewrite Hm, Hp. simpl.
  rewrite Hv. replace (_ <? 10) with true by (symmetry; apply Z.ltb_lt; lia).
  rewrite parse_digits_decimal by done.
  unfold decimal_value. simpl. f_equal. by destruct (decimal_from _ _).
Qed.

(** ** The matcher *)

Lemma match_unit_digit (c : ascii) (r : string) :
  is_digit c = true → match_unit (String c r) = None.
Proof. ascii_cases c; intros H; (by vm_compute in H) || reflexivity. Qed.

Lemma match_unit_starts (s : string) (m : string * string) :
  match_unit s = Some m → starts_with_digit s = false.
Proof.
  destruct s as [|c r]; [done |]. simpl.
  destruct (is_digit c) eqn:Hc; [|done].
  by rewrite match_unit_digit.
Qed.

Lemma strip_prefix_sound (p s r : string) :
  strip_prefix p s = Some r → s = p +:+ r.
Proof.
  revert s; induction p as [|a p IH]; intros [|b s]; simpl; try congruence.
  destruct (Ascii.eqb_spec a b) as [->|]; [|done].
  intros H. by rewrite (IH _ H).
Qed.

Lemma first_alternative_sound (alts : list string) (s u r : string) :
  first_alternative alts s = Some (u, r) → In u alts ∧ s = u +:+ r.
Proof.
  induction alts as [|a alts IH]; simpl; [done |].
  destruct (strip_prefix a s) as [r'|] eqn:Hp.
  - intros [= <- <-]. split; [by left | by apply strip_prefix_sound].
  - intros H. destruct (IH H). split; [by right | done].
Qed.

Lemma match_unit_sound (s u r : string) :
  match_unit s = Some (u, r) → In u unit_alternatives ∧ s = u +:+ r.
Proof. apply first_alternative_sound. Qed.

Lemma match_unit_alone (u : string) :
  In u unit_alternatives → match_unit u = Some (u, "").
Proof. simpl. intros [<-|[<-|[<-|[<-|[]]]]]; reflexivity. Qed.

Lemma match_digits_starts (max : nat) (s : string) :
  starts_with_digit s = false → match_digits max s = None.
Proof. destruct max, s as [|c r]; simpl; try done. by intros ->. Qed.

(** More digits than the bound allows: no match at this position. *)
Lemma match_digits_long (max : nat) (ds r : string) :
  all_digits ds = true → (max < String.length ds)%nat →
  match_digits max (ds +:+ r) = None.
Proof.
  revert ds; induction max as [|max IH]; intros [|c ds]; simpl; try done; try lia.
  intros [Hc Hds]%andb_prop Hlen. rewrite Hc.
  rewrite IH by (done || lia).
  destruct ds as [|c' ds]; simpl in *; [lia |].
  apply andb_prop in Hds as [Hc' _]. by rewrite match_unit_digit.
Qed.

(** Digits within the bound, followed by a unit: the match takes them all. *)
Lemma match_digits_exact (max : nat) (ds r u rest : string) :
  all_digits ds = true → ds ≠ "" → (String.length ds ≤ max)%nat →
  match_unit r = Some (u, rest) →
  match_digits max (ds +:+ r) = Some (ds, u, rest).
Proof.
  intros Hds Hne Hlen Hu. revert max Hds Hne Hlen.
  induction ds as [|c ds IH]; intros max Hds Hne Hlen; [done |].
  destruct max as [|max]; simpl in *; [lia |].
  apply andb_prop in Hds as [Hc Hds]. rewrite Hc.
  destruct ds as [|c' ds].
  - simpl. rewrite match_digits_starts by eauto using match_unit_starts.
    by rewrite Hu.
  - rewrite IH; [done | done | done | simpl in *; lia].
Qed.

Lemma match_digits_sound (max : nat) (s ds u rest : string) :
  match_digits max s = Some (ds, u, rest) →
  all_digits ds = true ∧ ds ≠ "" ∧ (String.length ds ≤ max)%nat
  ∧ In u unit_alternatives ∧ s = ds +:+ u +:+ rest.
Proof.
  revert s ds; induction max as [|max IH]; intros [|c r] ds; simpl; try done.
  destruct (is_digit c) eqn:Hc; [|done].
  destruct (match_digits max r) as [[[ds' u'] rest']|] eqn:Hm.
  - intros [= <- <- <-]. destruct (IH _ _ Hm) as (? & ? & ? & ? & ->).
    simpl. rewrite Hc. repeat split; try done. lia.
  - destruct (match_unit r) as [[u' rest']|] eqn:Hu; [|done].
    intros [= <- <- <-]. destruct (match_unit_sound _ _ _ Hu) as [? ->].
    simpl. rewrite Hc. repeat split; try done. lia.
Qed.

Lemma search_sound (s ds u rest : string) :
  search s = Some (ds, u, rest) →
  is_token (ds +:+ u) ∧ (String.length rest < String.length s)%nat.
Proof.
  induction s as [|c s IH]; cbn [search].
  - done.
  - unfold match_here. destruct (match_digits 5 (String c s)) as [m|] eqn:Hm.
    + intros [= ->]. destruct (match_digits_sound _ _ _ _ _ Hm)
        as (Hd & Hne & Hlen & Hu & Hs).
      split; [by exists ds, u |].
      rewrite Hs, !length_app. destruct ds; [done | simpl; lia].
    + intros H. destruct (IH H) as [? ?].
      split; [done | simpl String.length; lia].
Qed.

Lemma match_all_tokens (fuel : nat) (s : string) :
  Forall is_token (match_all fuel s).
Proof.
  revert s; induction fuel as [|fuel IH]; intros s; simpl; [constructor |].
  destruct (search s) as [[[ds u] rest]|] eqn:Hs; [|constructor].
  constructor; [by destruct (search_sound _ _ _ _ Hs) | apply IH].
Qed.

(** The loop of the global match ends before its fuel does. *)
Lemma match_all_fuel (n fuel1 fuel2 : nat) (s : string) :
  (String.length s ≤ n)%nat → (n ≤ fuel1)%nat → (n ≤ fuel2)%nat →
  match_all fuel1 s = match_all fuel2 s.
Proof.
  revert fuel1 fuel2 s; induction n as [|n IH]; intros fuel1 fuel2 s Hs H1 H2.
  - destruct s; [|simpl in Hs; lia]. by destruct fuel1, fuel2.
  - destruct fuel1 as [|fuel1], fuel2 as [|fuel2]; try lia. simpl.
    destruct (search s) as [[[ds u] rest]|] eqn:Hm; [|done].
    destruct (search_sound _ _ _ _ Hm) as [_ Hlt].
    f_equal. apply IH; lia.
Qed.

Lemma match_all_unfold (s : string) :
  match_all (String.length s) s =
  match search s with
  | None => []
  | Some (ds, u, rest) => (ds +:+ u) :: match_all (String.length rest) rest
  end.
Proof.
  destruct s as [|c s]; [done |].
  change (String.length (String c s)) with (S (String.length s)).
  cbn [match_all]. destruct (search (String c s)) as [[[ds u] rest]|] eqn:Hm; [|done].
  destruct (search_sound _ _ _ _ Hm) as [_ Hlt]. simpl in Hlt.
  f_equal. apply (match_all_fuel (String.length rest)); lia.
Qed.

(** ** The written-out matcher is the search of the two patterns *)

Lemma string_take_app (a b : string) :
  string_take (String.length a) (a +:+ b) = a.
Proof. induction a as [|c a IH]; simpl; [by destruct b | by rewrite IH]. Qed.

Lemma text_between_app (a b : string) : text_between (a +:+ b) b = a.
Proof.
  unfold text_between. rewrite length_app.
  replace (String.length a + String.length b - String.length b)%nat
    with (String.length a) by lia.
  apply string_take_app.
Qed.

(** The alternation of the units, before a continuation that accepts. *)
Lemma exec_unit_pattern {A} (s : string) (caps : Captures)
    (k : string → Captures → option A) :
  (∀ s' caps', is_Some (k s' caps')) →
  exec unit_pattern s caps k
  = match match_unit s with
    | Some (u, rest) => k rest caps
    | None => None
    end.
Proof.
  intros Hk. unfold unit_pattern, match_unit, unit_alternatives.
  destruct s as [|c [|c2 r]];
    cbn [exec first_alternative strip_prefix]; try reflexivity;
    repeat match goal with
           | |- context [Ascii.eqb ?a ?b] => destruct (Ascii.eqb a b)
           end;
    repeat match goal with
           | |- context [k ?x ?y] =>
               let v := fresh "v" in
               let Hv := fresh "Hv" in
               destruct (Hk x y) as [v Hv]; rewrite Hv; clear Hv
           end;
    reflexivity.
Qed.

Lemma exec_unit_group {A} (s : string) (caps : Captures)
    (k : string → Captures → option A) :
  (∀ s' caps', is_Some (k s' caps')) →
  exec (Group 2 unit_pattern) s caps k
  = match match_unit s with
    | Some (u, rest) => k rest (<[2%nat := u]> caps)
    | None => None
    end.
Proof.
  intros Hk. cbn [exec]. rewrite exec_unit_pattern by (intros; apply Hk).
  destruct (match_unit s) as [[u rest]|] eqn:Hu; [|done].
  destruct (match_unit_sound _ _ _ Hu) as [_ ->].
  by rewrite text_between_app.
Qed.

Lemma exec_class {A} (p : ascii → bool) (c : ascii) (r : string)
    (caps : Captures) (k : string → Captures → option A) :
  exec (Class p) (String c r) caps k = if p c then k r caps else None.
Proof. reflexivity. Qed.

Lemma match_digits_cons (max : nat) (c : ascii) (r : string) :
  match_digits (S max) (String c r)
  = if is_digit c then
      match match_digits max r with
      | Some (ds, u, rest) => Some (String c ds, u, rest)
      | None =>
          match match_unit r with
          | Some (u, rest) => Some (String c EmptyString, u, rest)
          | None => None
          end
      end
    else None.
Proof. reflexivity. Qed.

Lemma exec_seq {A} (r1 r2 : regex) (s : string) (caps : Captures)
    (k : string → Captures → option A) :
  exec (Seq r1 r2) s caps k = exec r1 s caps (λ s' caps', exec r2 s' caps' k).
Proof. reflexivity. Qed.

Lemma exec_group {A} (index : nat) (r : regex) (s : string) (caps : Captures)
    (k : string → Captures → option A) :
  exec (Group index r) s caps k
  = exec r s caps (λ s' caps', k s' (<[index := text_between s s']> caps')).
Proof. reflexivity. Qed.

Lemma repeat_loop_required {A}
    (step : string → Captures → (string → Captures → option A) → option A)
    (min max : nat) (s : string) (caps : Captures)
    (k : string → Captures → option A) :
  repeat_loop step (S min) (S max) s caps k
  = step s caps (λ s' caps', repeat_loop step min max s' caps' k).
Proof. reflexivity. Qed.

(** The digits, before a continuation that is the match of a unit. *)
Lemma repeat_digits_loop {A} (K : string → Captures → option A)
    (F : string → string → string → A) (caps : Captures) :
  (∀ s1, K s1 caps = match match_unit s1 with
                     | Some (u, rest) => Some (F s1 u rest)
                     | None => None
                     end) →
  ∀ (m : nat) (s : string),
    repeat_loop (exec (Class is_digit)) 0 m s caps K
    = match match_digits m s with
      | Some (ds, u, rest) => Some (F (u +:+ rest) u rest)
      | None => K s caps
      end.
Proof.
  intros HK. induction m as [|m IH]; intros s.
  - by destruct s.
  - cbn [repeat_loop]. destruct s as [|c r]; [done |].
    rewrite exec_class, match_digits_cons.
    destruct (is_digit c) eqn:Hc; [|done].
    rewrite IH. destruct (match_digits m r) as [[[ds u] rest]|]; [done |].
    rewrite !HK. rewrite (match_unit_digit c r Hc).
    destruct (match_unit r) as [[u rest]|] eqn:Hu; [|done].
    by destruct (match_unit_sound _ _ _ Hu) as [_ ->].
Qed.

Lemma exec_digits_1_5 {A} (K : string → Captures → option A)
    (F : string → string → string → A) (caps : Captures) (s : string) :
  (∀ s1, K s1 caps = match match_unit s1 with
                     | Some (u, rest) => Some (F s1 u rest)
                     | None => None
                     end) →
  exec digits_1_5 s caps K
  = match match_digits 5 s with
    | Some (ds, u, rest) => Some (F (u +:+ rest) u rest)
    | None => None
    end.
Proof.
  intros HK. unfold digits_1_5.
  change (exec (Repeat 1 5 (Class is_digit)) s caps K)
    with (repeat_loop (exec (Class is_digit)) 1 5 s caps K).
  rewrite (repeat_loop_required _ 0 4). destruct s as [|c r]; [reflexivity |].
  rewrite exec_class, match_digits_cons.
  destruct (is_digit c) eqn:Hc; [|done].
  rewrite (repeat_digits_loop K F caps HK).
  destruct (match_digits 4 r) as [[[ds u] rest]|]; [done |].
  rewrite HK. destruct (match_unit r) as [[u rest]|] eqn:Hu; [|done].
  by destruct (match_unit_sound _ _ _ Hu) as [_ ->].
Qed.

(** A match of the global pattern at the head of [s]. *)
Lemma match_at_parts (s : string) :
  match_at parts_regex s
  = match match_here s with
    | Some (ds, u, rest) =>
        Some (ds +:+ u,
              <[1%nat := ds +:+ u]> (<[2%nat := u]> (∅ : Captures)), rest)
    | None => None
    end.
Proof.
  unfold match_at, parts_regex, match_here. rewrite exec_group, exec_seq.
  rewrite (exec_digits_1_5 _
             (λ _ u rest,
                (text_between s rest,
                 <[1%nat := text_between s rest]> (<[2%nat := u]> ∅), rest))).
  - destruct (match_digits 5 s) as [[[ds u] rest]|] eqn:Hm; [|done].
    destruct (match_digits_sound _ _ _ _ _ Hm) as (_ & _ & _ & _ & ->).
    by rewrite <- app_assoc_str, text_between_app.
  - intros s1. rewrite exec_unit_group by (intros; by eexists).
    by destruct (match_unit s1) as [[u rest]|].
Qed.

(** A match of the pattern with two groups at the head of [s]. *)
Lemma match_at_part (s : string) :
  match_at part_regex s
  = match match_here s with
    | Some (ds, u, rest) =>
        Some (ds +:+ u,
              <[2%nat := u]> (<[1%nat := ds]> (∅ : Captures)), rest)
    | None => None
    end.
Proof.
  unfold match_at, part_regex, match_here. rewrite exec_seq, exec_group.
  rewrite (exec_digits_1_5 _
             (λ s1 u rest,
                (text_between s rest,
                 <[2%nat := u]> (<[1%nat := text_between s s1]> ∅), rest))).
  - destruct (match_digits 5 s) as [[[ds u] rest]|] eqn:Hm; [|done].
    destruct (match_digits_sound _ _ _ _ _ Hm) as (_ & _ & _ & _ & ->).
    rewrite text_between_app.
    by rewrite <- app_assoc_str, text_between_app.
  - intros s1. rewrite exec_unit_group by (intros; by eexists).
    by destruct (match_unit s1) as [[u rest]|].
Qed.

Lemma find_parts (s : string) :
  find parts_regex s
  = match search s with
    | Some (ds, u, rest) =>
        Some (ds +:+ u,
              <[1%nat := ds +:+ u]> (<[2%nat := u]> (∅ : Captures)), rest)
    | None => None
    end.
Proof.
  induction s as [|c s IH]; cbn [find search]; rewrite match_at_parts.
  - by destruct (match_here "") as [[[ds u] rest]|].
  - destruct (match_here (String c s)) as [[[ds u] rest]|]; [done |].
    exact IH.
Qed.

Lemma find_part (s : string) :
  find part_regex s
  = match search s with
    | Some (ds, u, rest) =>
        Some (ds +:+ u,
              <[2%nat := u]> (<[1%nat := ds]> (∅ : Captures)), rest)
    | None => None
    end.
Proof.
  induction s as [|c s IH]; cbn [find search]; rewrite match_at_part.
  - by destruct (match_here "") as [[[ds u] rest]|].
  - destruct (match_here (String c s)) as [[[ds u] rest]|]; [done |].
    exact IH.
Qed.

Lemma find_all_parts (fuel : nat) (s : string) :
  find_all parts_regex fuel s = match_all fuel s.
Proof.
  revert s; induction fuel as [|fuel IH]; intros s; [done |].
  cbn [find_all match_all]. rewrite find_parts.
  destruct (search s) as [[[ds u] rest]|] eqn:Hs; [|done].
  destruct (search_sound _ _ _ _ Hs) as [(ds' & u' & Heq & _ & Hne & _) _].
  rewrite IH. destruct (ds +:+ u) as [|c t] eqn:Ht; [|done].
  destruct ds'; [done | discriminate Heq].
Qed.

(** The global match gives the matches of the written-out matcher. *)
Lemma match_global_matches (s : string) :
  match_global s
  = match matches s with
    | [] => None
    | parts => Some parts
    end.
Proof.
  unfold match_global, matches. rewrite find_all_parts.
  by rewrite (match_all_fuel (String.length s) (S (String.length s))
                (String.length s) s) by lia.
Qed.

(** The groups of the first match are its digits and its unit. *)
Lemma match_groups_search (s : string) :
  match_groups s
  = match search s with
    | Some (ds, u, _) => Some (ds, u)
    | None => None
    end.
Proof.
  unfold match_groups. rewrite find_part.
  destruct (search s) as [[[ds u] rest]|]; [|done].
  rewrite lookup_insert_ne by done.
  by rewrite !lookup_insert_eq.
Qed.

Lemma match_global_tokens (s : string) (parts : list string) :
  match_global s = Some parts → Forall is_token parts.
Proof.
  rewrite match_global_matches. unfold matches.
  pose proof (match_all_tokens (String.length s) s) as H.
  destruct (match_all _ s); [done |]. by intros [= <-].
Qed.

(** A token matched again on its own gives back its digits and its unit. *)
Lemma match_groups_token (ds u : string) :
  all_digits ds = true → ds ≠ "" → (String.length ds ≤ 5)%nat →
  In u unit_alternatives →
  match_groups (ds +:+ u) = Some (ds, u).
Proof.
  intros Hd Hne Hlen Hu. rewrite match_groups_search.
  assert (match_here (ds +:+ u) = Some (ds, u, "")) as Hm.
  { apply match_digits_exact; auto using match_unit_alone. }
  destruct ds as [|c ds]; [done |]. simpl in *. by rewrite Hm.
Qed.

(** A run of more than five digits is entered at its fifth digit from the
    end. *)
Lemma search_long_run (ds r : string) :
  all_digits ds = true → (5 < String.length ds)%nat →
  search (ds +:+ r) = search (last_chars 5 ds +:+ r).
Proof.
  unfold last_chars.
  remember (String.length ds - 5)%nat as k eqn:Hk.
  revert ds Hk; induction k as [|k IH]; intros ds Hk Hd Hlen; [lia |].
  destruct ds as [|c ds]; [simpl in Hlen; lia |].
  simpl string_drop. simpl in Hk, Hlen.
  change (String c ds +:+ r) with (String c (ds +:+ r)).
  cbn [search]. unfold match_here.
  change (String c (ds +:+ r)) with (String c ds +:+ r) at 1.
  rewrite match_digits_long by (done || simpl; lia).
  simpl in Hd. apply andb_prop in Hd as [_ Hd].
  destruct (decide (k = 0%nat)) as [->|].
  - done.
  - apply IH; [lia | done | lia].
Qed.

(** ** Objects of units *)

Lemma obj_get_set {V} (o : JsObject V) (k k' : string) (v : V) :
  obj_get (obj_set o k v) k' = if String.eqb k k' then Some v else obj_get o k'.
Proof.
  induction o as [|[k0 v0] o IH]; simpl.
  - done.
  - destruct (String.eqb_spec k0 k) as [->|Hne]; simpl.
    + by destruct (String.eqb k k').
    + rewrite IH. destruct (String.eqb_spec k0 k') as [->|]; [|done].
      rewrite String.eqb_sym. by apply String.eqb_neq in Hne as ->.
Qed.

Lemma keys_obj_set {V} (o : JsObject V) (k k' : string) (v : V) :
  In k' (keys (obj_set o k v)) ↔ k' = k ∨ In k' (keys o).
Proof.
  induction o as [|[k0 v0] o IH]; simpl.
  - intuition.
  - destruct (String.eqb_spec k0 k) as [->|Hne]; simpl; [intuition |].
    rewrite IH. intuition.
Qed.

Lemma NoDup_obj_set {V} (o : JsObject V) (k : string) (v : V) :
  List.NoDup (keys o) → List.NoDup (keys (obj_set o k v)).
Proof.
  induction o as [|[k0 v0] o IH]; simpl; intros Hnd.
  - constructor; [by intros [] | constructor].
  - inversion_clear Hnd as [|? ? Hin Hnd'].
    destruct (String.eqb_spec k0 k) as [->|Hne]; simpl.
    + by constructor.
    + constructor; [|by apply IH].
      rewrite keys_obj_set. intros [->|?]; done.
Qed.

Lemma obj_set_fresh {V} (o : JsObject V) (k : string) (v : V) :
  ¬ In k (keys o) → obj_set o k v = (o ++ [(k, v)])%list.
Proof.
  induction o as [|[k0 v0] o IH]; simpl; intros Hk; [done |].
  destruct (String.eqb_spec k0 k) as [->|Hne]; [destruct Hk; by left |].
  rewrite IH; [done | intros ?; apply Hk; by right].
Qed.

Lemma units_ok_nil : units_ok [].
Proof. split; constructor. Qed.

Lemma units_ok_set (o : JsObject number) (k : string) (z : Z) :
  units_ok o → In k plural_units → units_ok (obj_set o k (Num z)).
Proof.
  intros [Hnd Hall] Hk. split; [by apply NoDup_obj_set |].
  clear Hnd. induction o as [|[k0 v0] o IH]; simpl.
  - constructor; [by split | constructor].
  - inversion_clear Hall as [|? ? H0 Hall'].
    destruct (String.eqb_spec k0 k) as [->|Hne]; constructor; auto.
Qed.

Lemma singular_inj (k k' : string) :
  In k plural_units → In k' plural_units → singular k = singular k' → k = k'.
Proof.
  simpl. intros [<-|[<-|[<-|[<-|[]]]]] [<-|[<-|[<-|[<-|[]]]]];
    vm_compute; congruence.
Qed.

Lemma normalize_step (acc o : JsObject number) :
  Forall (λ kv, In kv.1 plural_units) o →
  List.NoDup (keys acc ++ map singular (keys o)) →
  fold_left
    (λ normalizedInput '(prop, v),
       match normalizeUnits prop with
       | Some normalizedProp => obj_set normalizedInput normalizedProp v
       | None => normalizedInput
       end) o acc
  = (acc ++ map singular_prop o)%list.
Proof.
  revert acc; induction o as [|[k v] o IH]; intros acc Hall Hnd; simpl.
  - by rewrite app_nil_r.
  - inversion_clear Hall as [|? ? Hk Hall']. simpl in Hk, Hnd.
    assert (normalizeUnits k = Some (singular k)) as ->.
    { destruct Hk as [<-|[<-|[<-|[<-|[]]]]]; reflexivity. }
    apply NoDup_remove in Hnd as [Hnd Hfresh].
    rewrite obj_set_fresh by (intros Hin; apply Hfresh, in_or_app; by left).
    rewrite IH; [by rewrite <- app_assoc | done |].
    unfold keys. rewrite map_app, <- app_assoc. simpl.
    apply NoDup_Add with (a := singular k) (l := (map fst acc ++ map singular (map fst o))%list);
      [|by constructor].
    apply Add_app.
Qed.

Lemma NoDup_map_singular (ks : list string) :
  Forall (λ k, In k plural_units) ks → List.NoDup ks →
  List.NoDup (map singular ks).
Proof.
  induction ks as [|k ks IH]; simpl; intros Hall Hnd; [constructor |].
  inversion_clear Hall as [|? ? Hk Hall']. inversion_clear Hnd as [|? ? Hin Hnd'].
  constructor; [|by apply IH].
  intros (k' & Heq & Hin')%List.in_map_iff.
  apply singular_inj in Heq; [congruence | | done].
  rewrite List.Forall_forall in Hall'. by apply Hall'.
Qed.

Lemma normalize_units_ok (o : JsObject number) :
  units_ok o → normalizeObjectUnits o = map singular_prop o.
Proof.
  intros [Hnd Hall]. unfold normalizeObjectUnits.
  rewrite normalize_step; [done | |].
  - eapply List.Forall_impl; [|exact Hall]. by intros ? [? _].
  - simpl. apply NoDup_map_singular; [|done].
    unfold keys. apply List.Forall_map. eapply List.Forall_impl; [|exact Hall].
    by intros ? [? _].
Qed.

Lemma valid_units_ok (o : JsObject number) :
  units_ok o → isDurationValid (normalizeObjectUnits o) = true.
Proof.
  intros Hok. rewrite normalize_units_ok by done. destruct Hok as [_ Hall].
  unfold isDurationValid. rewrite forallb_forall.
  intros [k v] ([k0 v0] & [= <- <-] & Hin)%List.in_map_iff.
  rewrite List.Forall_forall in Hall. destruct (Hall _ Hin) as [Hk Hv].
  simpl in Hk, Hv. unfold singular_prop. cbn [fst snd]. rewrite Hv.
  destruct Hk as [<-|[<-|[<-|[<-|[]]]]]; reflexivity.
Qed.

Lemma obj_get_singular (o : JsObject number) (k : string) :
  Forall (λ kv, In kv.1 plural_units) o → In k plural_units →
  obj_get (map singular_prop o) (singular k) = obj_get o k.
Proof.
  intros Hall Hk. induction o as [|[k0 v0] o IH]; simpl; [done |].
  inversion_clear Hall as [|? ? Hk0 Hall']. simpl in Hk0.
  destruct (String.eqb_spec k0 k) as [->|Hne].
  - by rewrite String.eqb_refl.
  - destruct (String.eqb_spec (singular k0) (singular k)) as [Heq|_]; [|auto].
    by apply singular_inj in Heq.
Qed.

Lemma obj_get_other_unit (o : JsObject number) (u : string) :
  Forall (λ kv, In kv.1 plural_units) o →
  ¬ In u (map singular plural_units) →
  obj_get (map singular_prop o) u = None.
Proof.
  intros Hall Hu. induction o as [|[k0 v0] o IH]; simpl; [done |].
  inversion_clear Hall as [|? ? Hk0 Hall']. simpl in Hk0.
  destruct (String.eqb_spec (singular k0) u) as [<-|_]; [|auto].
  destruct Hu. by apply in_map.
Qed.

(** The duration moment builds from such an object. *)
Lemma new_Duration_units_ok (o : JsObject number) :
  units_ok o →
  new_Duration o =
  {| _milliseconds :=
       unit_or_0 o "milliseconds" + unit_or_0 o "seconds" * 1000
       + unit_or_0 o "minutes" * 60000 + unit_or_0 o "hours" * 1000 * 60 * 60;
     _days := 0; _months := 0; _isValid := true |}.
Proof.
  intros Hok. unfold new_Duration. rewrite valid_units_ok by done.
  rewrite normalize_units_ok by done. destruct Hok as [_ Hall].
  assert (Forall (λ kv, In kv.1 plural_units) o) as Hkeys.
  { eapply List.Forall_impl; [|exact Hall]. by intros ? [? _]. }
  unfold unit_or_0.
  assert (∀ u, In u ["year"; "quarter"; "month"; "week"; "day"] →
               obj_get (map singular_prop o) u = None) as Hnone.
  { intros u Hu. apply obj_get_other_unit; [done |].
    simpl in Hu. destruct Hu as [<-|[<-|[<-|[<-|[<-|[]]]]]];
      vm_compute; intuition congruence. }
  rewrite (Hnone "year"), (Hnone "quarter"), (Hnone "month"),
    (Hnone "week"), (Hnone "day") by (simpl; tauto).
  change "millisecond" with (singular "milliseconds").
  change "hour" with (singular "hours").
  change "minute" with (singular "minutes").
  change "second" with (singular "seconds").
  rewrite !obj_get_singular by (done || simpl; tauto).
  done.
Qed.

(** ** The units [parseDuration] reads from the matched tokens *)

Lemma token_split (ds u : string) :
  all_digits ds = true → In u unit_alternatives →
  token_digits (ds +:+ u) = ds ∧ token_unit (ds +:+ u) = u.
Proof.
  intros Hd Hu. induction ds as [|c ds IH]; simpl.
  - simpl in Hu. destruct Hu as [<-|[<-|[<-|[<-|[]]]]]; by vm_compute.
  - simpl in Hd. apply andb_prop in Hd as [-> Hd].
    destruct (IH Hd) as [-> ->]. done.
Qed.

Lemma plural_in (u : string) :
  In u unit_alternatives →
  obj_get unit_names u = Some (plural u) ∧ In (plural u) plural_units.
Proof.
  simpl. intros [<-|[<-|[<-|[<-|[]]]]]; vm_compute; tauto.
Qed.

Lemma plural_eqb (u u' : string) :
  In u unit_alternatives → In u' unit_alternatives →
  String.eqb (plural u) (plural u') = String.eqb u u'.
Proof.
  simpl. intros [<-|[<-|[<-|[<-|[]]]]] [<-|[<-|[<-|[<-|[]]]]]; reflexivity.
Qed.

Lemma unit_names_plural (u name : string) :
  obj_get unit_names u = Some name → In name plural_units.
Proof.
  unfold unit_names. cbn [obj_get].
  do 4 (destruct (String.eqb _ u); [intros [= <-]; simpl; tauto |]).
  done.
Qed.

Lemma token_parts (t : string) :
  is_token t →
  t = token_digits t +:+ token_unit t
  ∧ all_digits (token_digits t) = true ∧ token_digits t ≠ ""
  ∧ (String.length (token_digits t) ≤ 5)%nat
  ∧ In (token_unit t) unit_alternatives.
Proof.
  intros (ds & u & -> & Hd & Hne & Hlen & Hu).
  by destruct (token_split ds u Hd Hu) as [-> ->].
Qed.

(** One step of the reduction on a matched token: its unit is overwritten
    with its value. *)
Lemma reduce_part_token (units : JsObject number) (out : list LogEntry)
    (t : string) :
  is_token t → reduce_part (units, out) t = (write_token units t, out).
Proof.
  intros (Ht & Hd & Hne & Hlen & Hu)%token_parts.
  unfold reduce_part, write_token. rewrite Ht at 1.
  rewrite match_groups_token by done.
  rewrite parseInt_digits by done. simpl isNaN. cbv iota.
  by destruct (plural_in _ Hu) as [-> _].
Qed.

Lemma fold_tokens (parts : list string) (units : JsObject number)
    (out : list LogEntry) :
  Forall is_token parts →
  fold_left reduce_part parts (units, out)
  = (fold_left write_token parts units, out).
Proof.
  intros Hall. revert units.
  induction Hall as [|t parts Ht _ IH]; intros units; cbn [fold_left];
    [done |].
  by rewrite reduce_part_token, IH.
Qed.

Lemma fold_write_ok (parts : list string) (units : JsObject number) :
  Forall is_token parts → units_ok units →
  units_ok (fold_left write_token parts units).
Proof.
  intros Hall. revert units.
  induction Hall as [|t parts Ht _ IH]; intros units Hok; simpl; [done |].
  apply IH, units_ok_set; [done |].
  apply token_parts in Ht as (_ & _ & _ & _ & Hu). by apply plural_in.
Qed.

(** After the reduction a unit holds the value of its last token. *)
Lemma obj_get_fold_tokens (parts : list string) (units : JsObject number)
    (u : string) :
  Forall is_token parts → In u unit_alternatives →
  obj_get (fold_left write_token parts units) (plural u)
  = match last_value u parts with
    | Some v => Some (Num v)
    | None => obj_get units (plural u)
    end.
Proof.
  intros Hall Hu. revert units.
  induction Hall as [|t parts Ht _ IH]; intros units; simpl; [done |].
  rewrite IH. destruct (last_value u parts); [done |].
  unfold write_token. rewrite obj_get_set.
  apply token_parts in Ht as (_ & _ & _ & _ & Ht).
  rewrite plural_eqb by done. by destruct (String.eqb _ u).
Qed.

Lemma reduce_part_ok (acc : Logged (JsObject number)) (part : string) :
  units_ok acc.1 → units_ok (reduce_part acc part).1.
Proof.
  destruct acc as [units out]. cbn [fst]. intros Hok. unfold reduce_part.
  destruct (match_groups part) as [[s1 s2]|]; [|done].
  destruct (parseInt s1 (Some 10)) as [|z]; cbn [isNaN fst]; [done |].
  destruct (obj_get unit_names s2) as [name|] eqn:Hname; [|done].
  cbn [fst]. apply units_ok_set; eauto using unit_names_plural.
Qed.

Lemma fold_reduce_ok (parts : list string) (acc : Logged (JsObject number)) :
  units_ok acc.1 → units_ok (fold_left reduce_part parts acc).1.
Proof.
  revert acc; induction parts as [|t parts IH]; intros acc Hok;
    cbn [fold_left]; [done |].
  by apply IH, reduce_part_ok.
Qed.

(** Every duration that [parseDuration] returns is valid. *)
Lemma parseDuration_valid (s : string) : isValid (parseDuration s).1 = true.
Proof.
  unfold parseDuration. destruct (64 <? String.length s)%nat; [done |].
  destruct (match_global (toLowerCase s)) as [parts|]; [|done].
  pose proof (fold_reduce_ok parts ([], []) units_ok_nil) as Hok.
  destruct (fold_left reduce_part parts ([], [])) as [units out].
  cbn [fst] in *. unfold isValid, duration_of_object.
  by rewrite new_Duration_units_ok.
Qed.

(** The duration read from the matched tokens. *)
Lemma parseDuration_tokens (s : string) (parts : list string) :
  (String.length s ≤ 64)%nat →
  match_global (toLowerCase s) = Some parts →
  parseDuration s =
  ({| _milliseconds :=
        contribution "ms" parts + contribution "s" parts * 1000
        + contribution "m" parts * 60000
        + contribution "h" parts * 1000 * 60 * 60;
      _days := 0; _months := 0; _isValid := true |}, []).
Proof.
  intros Hlen Hparts. unfold parseDuration.
  replace (64 <? String.length s)%nat with false
    by (symmetry; apply Nat.ltb_ge; lia).
  rewrite Hparts. pose proof (match_global_tokens _ _ Hparts) as Hall.
  rewrite fold_tokens by done. unfold duration_of_object.
  rewrite new_Duration_units_ok by (apply fold_write_ok; auto using units_ok_nil).
  unfold unit_or_0, contribution.
  change "milliseconds" with (plural "ms").
  change "seconds" with (plural "s").
  change "minutes" with (plural "m").
  change "hours" with (plural "h").
  rewrite !obj_get_fold_tokens by (done || simpl; tauto).
  simpl obj_get.
  by destruct (last_value "ms" parts), (last_value "s" parts),
    (last_value "m" parts), (last_value "h" parts).
Qed.

(** Nothing matched, or too long: the zero duration. *)
Lemma parseDuration_zero (s : string) :
  (64 < String.length s)%nat ∨ match_global (toLowerCase s) = None →
  (parseDuration s).1 = duration_of_number 0.
Proof.
  unfold parseDuration. intros [Hlong|Hnone].
  - by apply Nat.ltb_lt in Hlong as ->.
  - rewrite Hnone. by destruct (64 <? String.length s)%nat.
Qed.

Lemma asMilliseconds_plain (ms : Z) :
  asMilliseconds
    {| _milliseconds := ms; _days := 0; _months := 0; _isValid := true |}
  = Num ms.
Proof.
  unfold asMilliseconds, isValid. cbn [_isValid _days _months _milliseconds].
  change (monthsToDays_rounded 0) with 0. f_equal.
Qed.

(** ** Claims about [parseDuration] *)

(** C3: [parseDuration("6h10m0s0ms")] is 6 hours and 10 minutes, 22200000
    milliseconds; [parseDuration("20s200ms")] is 20200 milliseconds; the
    empty string and every input in which no token matches give a valid
    duration of zero milliseconds. [parseDuration] is a total function: it
    has no outcome other than a duration and its console output. *)
Theorem parseDuration_examples :
  asMilliseconds (parseDuration "6h10m0s0ms").1 = Num 22200000
  ∧ asMilliseconds (parseDuration "20s200ms").1 = Num 20200
  ∧ asMilliseconds (parseDuration "").1 = Num 0
  ∧ ∀ s : string,
      match_global (toLowerCase s) = None →
      isValid (parseDuration s).1 = true
      ∧ asMilliseconds (parseDuration s).1 = Num 0.
Proof.
  split; [by vm_compute |]. split; [by vm_compute |]. split; [by vm_compute |].
  intros s Hs. split; [apply parseDuration_valid |].
  rewrite parseDuration_zero by auto. reflexivity.
Qed.

Lemma parseDuration_examples_witness :
  match_global (toLowerCase "soon, not 5 sec") = None
  ∧ isValid (parseDuration "soon, not 5 sec").1 = true
  ∧ asMilliseconds (parseDuration "soon, not 5 sec").1 = Num 0.
Proof.
  split; [reflexivity |].
  destruct parseDuration_examples as (_ & _ & _ & H).
  apply (H "soon, not 5 sec"). reflexivity.
Defined.

(** C4: an input longer than 64 characters, and an input in which no token
    matches, give a valid duration of zero milliseconds; so does every input
    of 65 characters. *)
Theorem parseDuration_fail_soft (s : string) :
  ((64 < String.length s)%nat ∨ match_global (toLowerCase s) = None →
   isValid (parseDuration s).1 = true
   ∧ asMilliseconds (parseDuration s).1 = Num 0)
  ∧ (String.length s = 65%nat →
     isValid (parseDuration s).1 = true
     ∧ asMilliseconds (parseDuration s).1 = Num 0).
Proof.
  assert ((64 < String.length s)%nat ∨ match_global (toLowerCase s) = None →
          isValid (parseDuration s).1 = true
          ∧ asMilliseconds (parseDuration s).1 = Num 0) as H.
  { intros Hs. split; [apply parseDuration_valid |].
    by rewrite parseDuration_zero. }
  split; [done |]. intros Hlen. apply H. left. lia.
Qed.

Lemma parseDuration_fail_soft_witness :
  let s := "1h30m, then padding up to sixty-five characters, one over the lim" in
  String.length s = 65%nat
  ∧ isValid (parseDuration s).1 = true
  ∧ asMilliseconds (parseDuration s).1 = Num 0.
Proof.
  intros s. split; [reflexivity |].
  apply (parseDuration_fail_soft s). reflexivity.
Defined.

Lemma numerals_ok_from_spec (count : nat) (n k : N) :
  numerals_ok_from n count = true →
  (n ≤ k < n + N.of_nat count)%N → numeral_ok k = true.
Proof.
  revert n; induction count as [|count IH]; intros n; simpl numerals_ok_from.
  - lia.
  - intros [H0 Hrest]%andb_prop Hk.
    destruct (decide (k = n)) as [->|Hne]; [done |].
    apply (IH (N.succ n)); [done | lia].
Qed.

Lemma numerals_upto_five_digits :
  numerals_ok_from 0 (N.to_nat 100000) = true.
Proof. vm_compute. reflexivity. Qed.

(** The numerals of the numbers below 100000 are the canonical strings of
    one to five digits. *)
Lemma decimal_string_ok (n : N) :
  (n < 100000)%N →
  all_digits (decimal_string n) = true ∧ decimal_string n ≠ ""
  ∧ (String.length (decimal_string n) ≤ 5)%nat
  ∧ decimal_value (decimal_string n) = Z.of_N n.
Proof.
  intros Hn.
  assert (numeral_ok n = true) as H.
  { apply (numerals_ok_from_spec _ 0 n numerals_upto_five_digits). lia. }
  unfold numeral_ok in H.
  apply andb_prop in H as [H H4]. apply andb_prop in H as [H H3].
  apply andb_prop in H as [H1 H2].
  repeat split; [done | | by apply Nat.leb_le | by apply Z.eqb_eq].
  intros Heq. rewrite Heq in H2. done.
Qed.

(** C5: for every string of one to five digits, [parseDuration] of the
    digits followed by "ms" is the one token "<digits>ms" and its duration is
    the number the digits denote, in milliseconds (not minutes, and no
    seconds); in particular for the numeral of every integer below 100000. *)
Theorem parseDuration_milliseconds :
  (∀ ds : string,
     all_digits ds = true → (1 ≤ String.length ds ≤ 5)%nat →
     match_global (toLowerCase (ds +:+ "ms")) = Some [ds +:+ "ms"]
     ∧ asMilliseconds (parseDuration (ds +:+ "ms")).1 = Num (decimal_value ds))
  ∧ (∀ n : N,
       (n < 100000)%N →
       asMilliseconds (parseDuration (decimal_string n +:+ "ms")).1
       = Num (Z.of_N n)).
Proof.
  assert (∀ ds : string,
     all_digits ds = true → (1 ≤ String.length ds ≤ 5)%nat →
     match_global (toLowerCase (ds +:+ "ms")) = Some [ds +:+ "ms"]
     ∧ asMilliseconds (parseDuration (ds +:+ "ms")).1 = Num (decimal_value ds))
    as Hds.
  { intros ds Hd [Hlo Hhi].
    assert (ds ≠ "") as Hne by (intros ->; simpl in Hlo; lia).
    assert (match_global (toLowerCase (ds +:+ "ms")) = Some [ds +:+ "ms"])
      as Hparts.
    { rewrite toLowerCase_app, toLowerCase_digits by done.
      change (toLowerCase "ms") with "ms".
      rewrite match_global_matches. unfold matches.
      rewrite match_all_unfold.
      assert (search (ds +:+ "ms") = Some (ds, "ms", "")) as ->.
      { assert (match_here (ds +:+ "ms") = Some (ds, "ms", "")) as Hm
          by (by apply match_digits_exact).
        destruct ds; [done |]. cbn [String.append search]. cbn [String.append] in Hm.
        by rewrite Hm. }
      done. }
    split; [done |].
    rewrite (parseDuration_tokens _ _) by
      (done || rewrite length_app; simpl; lia).
    unfold contribution. simpl last_value.
    destruct (token_split ds "ms" Hd) as [Hdigits Hunit]; [simpl; tauto |].
    unfold token_value. rewrite Hunit, Hdigits. simpl.
    rewrite asMilliseconds_plain. f_equal. lia. }
  split; [done |].
  intros n Hn. destruct (decimal_string_ok n Hn) as (Hd & Hne & Hlen & Hv).
  rewrite <- Hv. apply Hds; [done |].
  destruct (decimal_string n); [done | simpl in *; lia].
Qed.

Lemma parseDuration_milliseconds_witness :
  asMilliseconds (parseDuration "01500ms").1 = Num 1500
  ∧ asMilliseconds (parseDuration "250ms").1 = Num 250.
Proof.
  destruct parseDuration_milliseconds as [Hds Hn]. split.
  - apply (Hds "01500"); [reflexivity | simpl; lia].
  - apply (Hn 250%N). reflexivity.
Defined.

Lemma last_value_none (u : string) (parts : list string) :
  Forall (λ t, token_unit t ≠ u) parts → last_value u parts = None.
Proof.
  induction 1 as [|t parts Ht _ IH]; simpl; [done |].
  rewrite IH. by apply String.eqb_neq in Ht as ->.
Qed.

Lemma last_value_split (u t : string) (pre post : list string) :
  token_unit t = u → Forall (λ t', token_unit t' ≠ u) post →
  last_value u (pre ++ t :: post) = Some (token_value t).
Proof.
  intros Ht Hpost. induction pre as [|t0 pre IH]; simpl.
  - by rewrite last_value_none, Ht, String.eqb_refl.
  - by rewrite IH.
Qed.

(** C6: each unit contributes the value of its last token alone, whatever
    the earlier tokens of that unit say: the duration is the sum, over the
    four units, of the value of the unit's last token. "5s10s" is 10
    seconds. *)
Theorem parseDuration_last_occurrence :
  (∀ (s : string) (parts : list string),
     (String.length s ≤ 64)%nat →
     match_global (toLowerCase s) = Some parts →
     asMilliseconds (parseDuration s).1
     = Num (contribution "h" parts * 3600000 + contribution "m" parts * 60000
            + contribution "s" parts * 1000 + contribution "ms" parts)
     ∧ ∀ (u t : string) (pre post : list string),
         parts = (pre ++ t :: post)%list → token_unit t = u →
         Forall (λ t', token_unit t' ≠ u) post →
         contribution u parts = token_value t)
  ∧ match_global (toLowerCase "5s10s") = Some ["5s"; "10s"]
  ∧ asMilliseconds (parseDuration "5s10s").1 = Num 10000.
Proof.
  split; [|split; by vm_compute].
  intros s parts Hlen Hparts. split.
  - rewrite (parseDuration_tokens s parts) by done. cbn [fst].
    rewrite asMilliseconds_plain. f_equal. lia.
  - intros u t pre post -> Ht Hpost. unfold contribution.
    by rewrite last_value_split.
Qed.

Lemma parseDuration_last_occurrence_witness :
  asMilliseconds (parseDuration "1m5s2m10s").1 = Num (2 * 60000 + 10 * 1000)
  ∧ contribution "s" ["1m"; "5s"; "2m"; "10s"] = 10.
Proof.
  destruct parseDuration_last_occurrence as [H _].
  destruct (H "1m5s2m10s" ["1m"; "5s"; "2m"; "10s"]) as [Hms Hlast];
    [simpl; lia | reflexivity |].
  split; [exact Hms |].
  apply (Hlast "s" "10s" ["1m"; "5s"; "2m"] []); [reflexivity.. | constructor].
Defined.

(** ** Runs of more than five digits *)

Lemma match_unit_context (p x : string) :
  p ≠ "" → starts_with_digit x = true →
  match_unit (p +:+ x)
  = match match_unit p with
    | Some (u, rest) => Some (u, rest +:+ x)
    | None => None
    end.
Proof.
  intros Hp Hx. destruct p as [|c p]; [done |].
  destruct x as [|d x]; [done |]. simpl in Hx.
  assert (Ascii.eqb "s" d = false) as Hd.
  { clear -Hx. ascii_cases d; (by vm_compute in Hx) || reflexivity. }
  unfold match_unit, unit_alternatives.
  destruct p as [|c2 p]; cbn [first_alternative strip_prefix String.append];
    rewrite ?Hd;
    destruct (Ascii.eqb "h" c), (Ascii.eqb "m" c), (Ascii.eqb "s" c);
    try destruct (Ascii.eqb "s" c2); reflexivity.
Qed.

Lemma match_unit_starts_digit (x : string) :
  starts_with_digit x = true → match_unit x = None.
Proof. destruct x as [|d x]; [done |]. apply match_unit_digit. Qed.

(** Before a run of digits as long as the bound, a match is decided by what
    precedes the run. *)
Lemma match_digits_context (max : nat) (p ds y : string) :
  p ≠ "" → all_digits ds = true → (max ≤ String.length ds)%nat →
  match_digits max (p +:+ ds +:+ y) = extend_rest (ds +:+ y) (match_digits max p).
Proof.
  intros Hp Hd. revert p Hp.
  induction max as [|max IH]; intros p Hp Hlen.
  - by destruct p.
  - destruct p as [|c p]; [done |]. cbn [String.append match_digits].
    destruct (is_digit c); [|done].
    assert (starts_with_digit (ds +:+ y) = true) as Hstart.
    { destruct ds as [|d ds]; [simpl in Hlen; lia |].
      simpl in *. by apply andb_prop in Hd as [-> _]. }
    destruct p as [|c2 p].
    + cbn [String.append]. rewrite match_digits_long by (done || lia).
      rewrite match_unit_starts_digit by done. by destruct max.
    + rewrite IH by (done || lia).
      destruct (match_digits max (String c2 p)) as [[[ds' u'] rest']|];
        [done |].
      rewrite match_unit_context by done.
      by destruct (match_unit (String c2 p)) as [[u' rest']|].
Qed.

Lemma search_context (p ds y : string) :
  all_digits ds = true → (5 ≤ String.length ds)%nat →
  search (p +:+ ds +:+ y)
  = match search p with
    | Some (d, u, rest) => Some (d, u, rest +:+ ds +:+ y)
    | None => search (ds +:+ y)
    end.
Proof.
  intros Hd Hlen. induction p as [|c p IH]; [done |].
  cbn [String.append search]. unfold match_here.
  change (String c (p +:+ ds +:+ y)) with (String c p +:+ ds +:+ y).
  rewrite match_digits_context by done.
  destruct (match_digits 5 (String c p)) as [[[d u] rest]|]; [done |].
  cbn [extend_rest]. exact IH.
Qed.

Lemma matches_unfold (s : string) :
  matches s =
  match search s with
  | None => []
  | Some (ds, u, rest) => (ds +:+ u) :: matches rest
  end.
Proof. apply match_all_unfold. Qed.

(** The matches before such a run and the matches from it on are found
    independently. *)
Lemma matches_app (p ds y : string) :
  all_digits ds = true → (5 ≤ String.length ds)%nat →
  matches (p +:+ ds +:+ y) = (matches p ++ matches (ds +:+ y))%list.
Proof.
  intros Hd Hlen.
  remember (String.length p) as n eqn:Hn.
  revert p Hn. induction n as [n IH] using lt_wf_ind. intros p ->.
  rewrite (matches_unfold (p +:+ ds +:+ y)), (matches_unfold p).
  rewrite search_context by done.
  destruct (search p) as [[[d u] rest]|] eqn:Hs.
  - destruct (search_sound _ _ _ _ Hs) as [_ Hlt].
    cbn [app]. f_equal. by apply (IH (String.length rest)).
  - by rewrite <- matches_unfold.
Qed.

Lemma last_chars_digits (ds : string) :
  all_digits ds = true → (5 < String.length ds)%nat →
  all_digits (last_chars 5 ds) = true
  ∧ String.length (last_chars 5 ds) = 5%nat.
Proof.
  intros Hd Hlen. unfold last_chars. split.
  - by apply all_digits_drop.
  - rewrite length_drop. lia.
Qed.

(** A run of more than five digits before a unit gives the token of its last
    five digits. *)
Lemma matches_long_run (p ds y u rest : string) :
  all_digits ds = true → (5 < String.length ds)%nat →
  match_unit y = Some (u, rest) →
  matches (p +:+ ds +:+ y)
  = (matches p ++ (last_chars 5 ds +:+ u) :: matches rest)%list.
Proof.
  intros Hd Hlen Hu. rewrite matches_app by (done || lia). f_equal.
  rewrite matches_unfold, search_long_run by done.
  destruct (last_chars_digits ds Hd Hlen) as [Hd5 Hlen5].
  assert (match_here (last_chars 5 ds +:+ y) = Some (last_chars 5 ds, u, rest))
    as Hm.
  { apply match_digits_exact; try done; [|lia].
    intros Heq. rewrite Heq in Hlen5. done. }
  destruct (last_chars 5 ds) as [|c l5]; [done |].
  cbn [String.append search]. cbn [String.append] in Hm. by rewrite Hm.
Qed.

(** C10, as the code has it: where an input of at most 64 characters holds
    a run of more than five digits followed by a
    unit, the match is not given up: the matches are those before the run,
    then the token made of the last five digits of the run and the unit,
    then those after it. Such a run and its unit alone give the number that
    the last five digits denote, in that unit: "123456s" is 23456 seconds. *)
Theorem parseDuration_long_digit_run :
  (∀ s p ds y u rest : string,
     (String.length s ≤ 64)%nat →
     toLowerCase s = p +:+ ds +:+ y →
     all_digits ds = true → (5 < String.length ds)%nat →
     match_unit y = Some (u, rest) →
     match_global (toLowerCase s)
     = Some (matches p ++ (last_chars 5 ds +:+ u) :: matches rest)%list
     ∧ token_unit (last_chars 5 ds +:+ u) = u
     ∧ token_value (last_chars 5 ds +:+ u) = decimal_value (last_chars 5 ds))
  ∧ (∀ ds u : string,
       all_digits ds = true → (5 < String.length ds)%nat →
       In u unit_alternatives → (String.length (ds +:+ u) ≤ 64)%nat →
       asMilliseconds (parseDuration (ds +:+ u)).1
       = Num (decimal_value (last_chars 5 ds) * unit_ms u))
  ∧ asMilliseconds (parseDuration "123456s").1 = Num 23456000.
Proof.
  assert (∀ s p ds y u rest : string,
     (String.length s ≤ 64)%nat →
     toLowerCase s = p +:+ ds +:+ y →
     all_digits ds = true → (5 < String.length ds)%nat →
     match_unit y = Some (u, rest) →
     match_global (toLowerCase s)
     = Some (matches p ++ (last_chars 5 ds +:+ u) :: matches rest)%list
     ∧ token_unit (last_chars 5 ds +:+ u) = u
     ∧ token_value (last_chars 5 ds +:+ u) = decimal_value (last_chars 5 ds))
    as Hgen.
  { intros s p ds y u rest Hlen Hs Hd Hlong Hu.
    destruct (last_chars_digits ds Hd Hlong) as [Hd5 _].
    destruct (match_unit_sound _ _ _ Hu) as [Hin _].
    destruct (token_split _ u Hd5 Hin) as [Hdigits Hunit].
    split; [|split; [done | unfold token_value; by rewrite Hdigits]].
    rewrite match_global_matches.
    rewrite Hs, (matches_long_run p ds y u rest) by done.
    by destruct (matches p). }
  split; [exact Hgen |]. split; [|by vm_compute].
  intros ds u Hd Hlong Hin Hlen.
  assert (toLowerCase (ds +:+ u) = "" +:+ ds +:+ u) as Hlow.
  { rewrite toLowerCase_app, toLowerCase_digits by done.
    change ("" +:+ ds +:+ u) with (ds +:+ u). f_equal.
    simpl in Hin. destruct Hin as [<-|[<-|[<-|[<-|[]]]]]; reflexivity. }
  destruct (Hgen (ds +:+ u) "" ds u u "" Hlen Hlow Hd Hlong
              (match_unit_alone u Hin)) as (Hparts & Hunit & Hvalue).
  rewrite (parseDuration_tokens _ _ Hlen Hparts). cbn [fst].
  rewrite asMilliseconds_plain. f_equal.
  change (matches "") with (@nil string). cbn [app].
  unfold contribution. cbn [last_value]. rewrite Hunit, Hvalue.
  simpl in Hin. destruct Hin as [<-|[<-|[<-|[<-|[]]]]];
    cbn -[Z.mul Z.add decimal_value last_chars]; unfold unit_ms; cbn [String.eqb Ascii.eqb Bool.eqb]; lia.
Qed.

Lemma parseDuration_long_digit_run_witness :
  match_global (toLowerCase "4m 00123456MS.") = Some ["4m"; "23456ms"]
  ∧ asMilliseconds (parseDuration "987654321h").1 = Num (54321 * 3600000).
Proof.
  destruct parseDuration_long_digit_run as (Hgen & Hrun & _). split.
  - apply (Hgen "4m 00123456MS." "4m " "00123456" "ms." "ms" ".");
      [simpl; lia | reflexivity | reflexivity | simpl; lia | reflexivity].
  - apply (Hrun "987654321" "h");
      [reflexivity | simpl; lia | simpl; tauto | simpl; lia].
Defined.

(** Against C10 as it is written: a run of 64 digits followed by s is an
    input of 65 characters, which the length test refuses before any
    matching: the duration is zero, not the 11111 seconds of the last five
    digits of the run. *)
Lemma parseDuration_long_digit_run_refused :
  let ds := "1111111111111111111111111111111111111111111111111111111111111111" in
  all_digits ds = true
  ∧ String.length ds = 64%nat
  ∧ match_unit "s" = Some ("s", "")
  ∧ decimal_value (last_chars 5 ds) = 11111
  ∧ asMilliseconds (parseDuration (ds +:+ "s")).1 = Num 0
  ∧ asMilliseconds (parseDuration (ds +:+ "s")).1 ≠ Num (11111 * 1000).
Proof.
  intros ds.
  assert (asMilliseconds (parseDuration (ds +:+ "s")).1 = Num 0) as Hzero
    by (by vm_compute).
  do 4 (split; [by vm_compute |]). split; [exact Hzero |].
  rewrite Hzero. by intros [=].
Qed.

(** ** [updatePools] as a function of the world *)

Lemma updatePools_blocks (headers : Headers) :
  updatePools headers =
  (when (has headers "x-ratelimit-limit-requests")
     (modify_this (set_requestPoolMax
        (parseInt (get_or headers "x-ratelimit-limit-requests" "0") None)));;;
   when (has headers "x-ratelimit-remaining-requests")
     (modify_this (set_requestPool
        (parseInt (get_or headers "x-ratelimit-remaining-requests" "0") None)));;;
   when (has headers "x-ratelimit-limit-tokens")
     (modify_this (set_tokenPoolMax
        (parseInt (get_or headers "x-ratelimit-limit-tokens" "0") None)));;;
   when (has headers "x-ratelimit-remaining-tokens")
     (modify_this (set_tokenPool
        (parseInt (get_or headers "x-ratelimit-remaining-tokens" "0") None)));;;
   when (has headers "x-ratelimit-reset-requests")
     (reset_block "x-ratelimit-reset-requests" ReqReset requestTimer
        set_requestTimer
        "Time to reset requests does not have a valid format"
        "WARNING: request reset time is greater than 10 seconds" headers);;;
   when (has headers "x-ratelimit-reset-tokens")
     (reset_block "x-ratelimit-reset-tokens" TokenReset tokenTimer
        set_tokenTimer
        "Time to reset tokens does not have a valid format"
        "WARNING: token reset time is greater than 10 seconds" headers))%js.
Proof. reflexivity. Qed.

Lemma when_modify_bind {A} (b : bool) (f : ClientState → ClientState)
    (k : unit → M A) (w : World) :
  bind (when b (modify_this f)) k w
  = k tt (with_this (if b then f else λ c, c) w).
Proof. destruct b, w; reflexivity. Qed.

(** A reset block never throws: the duration it parses is valid. *)
Lemma reset_block_run (name : string) (cb : TimerCallback)
    (handle : ClientState → option nat)
    (set_handle : option nat → ClientState → ClientState)
    (invalid text : string) (headers : Headers) (w : World) :
  (∀ v c, debug (set_handle v c) = debug c) →
  (∀ v c, model (set_handle v c) = model c) →
  when (has headers name)
    (reset_block name cb handle set_handle invalid text headers) w
  = (reset_applied name cb handle set_handle text headers w, Returned tt).
Proof.
  intros Hdebug Hmodel. unfold reset_applied, when.
  destruct (has headers name); [|done].
  unfold reset_block, bind, get_this, clearTimeout, logged.
  cbn [this timers next_timer console].
  rewrite parseDuration_valid. cbn [negb].
  unfold setTimeout, modify_this, with_this, reset_warning, when.
  cbn [this timers next_timer console].
  destruct (number_gt _ 10000); cbn [andb].
  - unfold bind, get_this. cbn [this timers next_timer console].
    rewrite Hdebug, Hmodel.
    destruct (debug (this w)); unfold console_log, ret;
      cbn [this timers next_timer console]; [done |].
    by rewrite app_nil_r.
  - unfold ret. by rewrite app_nil_r.
Qed.

(** [updatePools] always returns, and this is the world it leaves. *)
Lemma updatePools_run (headers : Headers) (w : World) :
  updatePools headers w = (updatePools_result headers w, Returned tt).
Proof.
  rewrite updatePools_blocks. rewrite !when_modify_bind.
  unfold bind at 1. rewrite reset_block_run by done.
  rewrite reset_block_run by done.
  unfold updatePools_result, tokens_reset_applied, requests_reset_applied.
  do 3 f_equal. unfold limits_applied.
  destruct w,
    (has headers "x-ratelimit-limit-requests"),
    (has headers "x-ratelimit-remaining-requests"),
    (has headers "x-ratelimit-limit-tokens"),
    (has headers "x-ratelimit-remaining-tokens"); reflexivity.
Qed.

Lemma has_absent (headers : Headers) (name : string) :
  headers !! name = None → has headers name = false.
Proof.
  intros H. unfold has. apply bool_decide_eq_false. rewrite H.
  by intros [? ?].
Qed.

Lemma has_present (headers : Headers) (name v : string) :
  headers !! name = Some v → has headers name = true.
Proof. intros H. unfold has. apply bool_decide_eq_true. by rewrite H. Qed.

Lemma limits_applied_timers (headers : Headers) (c : ClientState) :
  requestTimer (limits_applied headers c) = requestTimer c
  ∧ tokenTimer (limits_applied headers c) = tokenTimer c
  ∧ debug (limits_applied headers c) = debug c
  ∧ model (limits_applied headers c) = model c.
Proof.
  unfold limits_applied.
  by destruct (has headers "x-ratelimit-limit-requests"),
    (has headers "x-ratelimit-remaining-requests"),
    (has headers "x-ratelimit-limit-tokens"),
    (has headers "x-ratelimit-remaining-tokens").
Qed.

(** [updatePools] keeps the handles in order. *)
Lemma updatePools_handles_ok (headers : Headers) (w : World) :
  handles_ok w = true → handles_ok (updatePools headers w).1 = true.
Proof.
  rewrite updatePools_run. cbn [fst].
  unfold updatePools_result, tokens_reset_applied, requests_reset_applied,
    reset_applied, handles_ok.
  destruct (limits_applied_timers headers (this w)) as (Hr & Ht & _).
  destruct w as [c tm nt out]. cbn [this with_this next_timer] in *.
  destruct (has headers "x-ratelimit-reset-requests"),
    (has headers "x-ratelimit-reset-tokens");
    unfold with_this;
    cbn [this next_timer timers set_requestTimer set_tokenTimer
         requestTimer tokenTimer];
    rewrite ?Hr, ?Ht;
    destruct (requestTimer c), (tokenTimer c); intros H;
    repeat (apply andb_prop in H as [H ?]);
    repeat (apply andb_true_intro; split);
    rewrite ?Nat.ltb_lt, ?negb_true_iff, ?Nat.eqb_neq in *; try lia; done.
Qed.

(** ** Claims about [updatePools] *)

(** C1: whatever the headers hold, [updatePools] returns and does not
    throw: the duration that [parseDuration] gives for a reset header is
    valid for every string, so the two "does not have a valid format"
    branches are never taken; and a string that is too long or holds no
    token gives the zero duration. *)
Theorem updatePools_never_throws :
  (∀ (headers : Headers) (w : World),
     (updatePools headers w).2 = Returned tt)
  ∧ (∀ s : string, isValid (parseDuration s).1 = true)
  ∧ (∀ s : string,
       (64 < String.length s)%nat ∨ match_global (toLowerCase s) = None →
       (parseDuration s).1 = duration_of_number 0
       ∧ asMilliseconds (parseDuration s).1 = Num 0).
Proof.
  split; [|split].
  - intros headers w. by rewrite updatePools_run.
  - apply parseDuration_valid.
  - intros s Hs. by rewrite parseDuration_zero.
Qed.

Lemma updatePools_never_throws_witness :
  (parseDuration "in a while").1 = duration_of_number 0
  ∧ asMilliseconds (parseDuration "in a while").1 = Num 0.
Proof.
  destruct updatePools_never_throws as (_ & _ & H).
  apply (H "in a while"). right. reflexivity.
Defined.

(** C7: [updatePools] changes a field only when its header is there.
    Without "x-ratelimit-limit-requests" the maximum of the request pool
    stays; without "x-ratelimit-remaining-requests" the request pool stays;
    without "x-ratelimit-reset-requests" the handle of the request timer
    stays, and so does the pending timer under it; the same holds for the
    three headers of the token pool; and with none of the six headers the
    world is left as it was. *)
Theorem updatePools_frame (headers : Headers) (w : World) :
  let w' := (updatePools headers w).1 in
  (headers !! "x-ratelimit-limit-requests" = None →
   requestPoolMax (this w') = requestPoolMax (this w))
  ∧ (headers !! "x-ratelimit-remaining-requests" = None →
     requestPool (this w') = requestPool (this w))
  ∧ (headers !! "x-ratelimit-reset-requests" = None →
     requestTimer (this w') = requestTimer (this w)
     ∧ (handles_ok w = true →
        ∀ t, requestTimer (this w) = Some t → timers w' !! t = timers w !! t))
  ∧ (headers !! "x-ratelimit-limit-tokens" = None →
     tokenPoolMax (this w') = tokenPoolMax (this w))
  ∧ (headers !! "x-ratelimit-remaining-tokens" = None →
     tokenPool (this w') = tokenPool (this w))
  ∧ (headers !! "x-ratelimit-reset-tokens" = None →
     tokenTimer (this w') = tokenTimer (this w)
     ∧ (handles_ok w = true →
        ∀ t, tokenTimer (this w) = Some t → timers w' !! t = timers w !! t))
  ∧ (headers !! "x-ratelimit-limit-requests" = None →
     headers !! "x-ratelimit-remaining-requests" = None →
     headers !! "x-ratelimit-reset-requests" = None →
     headers !! "x-ratelimit-limit-tokens" = None →
     headers !! "x-ratelimit-remaining-tokens" = None →
     headers !! "x-ratelimit-reset-tokens" = None →
     w' = w).
Proof.
  intros w'. subst w'. rewrite updatePools_run. cbn [fst].
  unfold updatePools_result, tokens_reset_applied, requests_reset_applied,
    reset_applied.
  destruct (limits_applied_timers headers (this w)) as (Hreq & Htok & _).
  assert (headers !! "x-ratelimit-limit-requests" = None →
          requestPoolMax (limits_applied headers (this w))
          = requestPoolMax (this w)) as Hmaxr.
  { intros Habs%has_absent. unfold limits_applied. rewrite Habs.
    destruct (has headers "x-ratelimit-remaining-requests"),
      (has headers "x-ratelimit-limit-tokens"),
      (has headers "x-ratelimit-remaining-tokens"); reflexivity. }
  assert (headers !! "x-ratelimit-remaining-requests" = None →
          requestPool (limits_applied headers (this w))
          = requestPool (this w)) as Hpoolr.
  { intros Habs%has_absent. unfold limits_applied. rewrite Habs.
    destruct (has headers "x-ratelimit-limit-requests"),
      (has headers "x-ratelimit-limit-tokens"),
      (has headers "x-ratelimit-remaining-tokens"); reflexivity. }
  assert (headers !! "x-ratelimit-limit-tokens" = None →
          tokenPoolMax (limits_applied headers (this w))
          = tokenPoolMax (this w)) as Hmaxt.
  { intros Habs%has_absent. unfold limits_applied. rewrite Habs.
    destruct (has headers "x-ratelimit-limit-requests"),
      (has headers "x-ratelimit-remaining-requests"),
      (has headers "x-ratelimit-remaining-tokens"); reflexivity. }
  assert (headers !! "x-ratelimit-remaining-tokens" = None →
          tokenPool (limits_applied headers (this w))
          = tokenPool (this w)) as Hpoolt.
  { intros Habs%has_absent. unfold limits_applied. rewrite Habs.
    destruct (has headers "x-ratelimit-limit-requests"),
      (has headers "x-ratelimit-remaining-requests"),
      (has headers "x-ratelimit-limit-tokens"); reflexivity. }
  destruct w as [c tm nt out]. unfold with_this, handles_ok.
  cbn [this timers next_timer] in *.
  split; [|split; [|split; [|split; [|split; [|split]]]]].
  - intros Habs. rewrite <- (Hmaxr Habs).
    destruct (has headers "x-ratelimit-reset-requests"),
      (has headers "x-ratelimit-reset-tokens"); reflexivity.
  - intros Habs. rewrite <- (Hpoolr Habs).
    destruct (has headers "x-ratelimit-reset-requests"),
      (has headers "x-ratelimit-reset-tokens"); reflexivity.
  - intros ->%has_absent. split.
    + rewrite <- Hreq.
      destruct (has headers "x-ratelimit-reset-tokens"); reflexivity.
    + intros Hok t Ht. rewrite Ht in Hok.
      destruct (has headers "x-ratelimit-reset-tokens");
        cbn [this timers next_timer]; [|done].
      rewrite Htok. destruct (tokenTimer c) as [t0|].
      * apply andb_prop in Hok as [[Hlt _]%andb_prop Hne].
        apply Nat.ltb_lt in Hlt. apply negb_true_iff, Nat.eqb_neq in Hne.
        rewrite lookup_insert_ne by lia. by rewrite lookup_delete_ne.
      * apply Nat.ltb_lt in Hok. by rewrite lookup_insert_ne by lia.
  - intros Habs. rewrite <- (Hmaxt Habs).
    destruct (has headers "x-ratelimit-reset-requests"),
      (has headers "x-ratelimit-reset-tokens"); reflexivity.
  - intros Habs. rewrite <- (Hpoolt Habs).
    destruct (has headers "x-ratelimit-reset-requests"),
      (has headers "x-ratelimit-reset-tokens"); reflexivity.
  - intros ->%has_absent. split.
    + rewrite <- Htok.
      destruct (has headers "x-ratelimit-reset-requests"); reflexivity.
    + intros Hok t Ht. rewrite Ht in Hok.
      destruct (has headers "x-ratelimit-reset-requests");
        cbn [this timers next_timer]; [|done].
      rewrite Hreq. destruct (requestTimer c) as [t0|].
      * apply andb_prop in Hok as [[_ Hlt]%andb_prop Hne].
        apply Nat.ltb_lt in Hlt. apply negb_true_iff, Nat.eqb_neq in Hne.
        rewrite lookup_insert_ne by lia. by rewrite lookup_delete_ne.
      * apply Nat.ltb_lt in Hok. by rewrite lookup_insert_ne by lia.
  - unfold limits_applied.
    by intros ->%has_absent ->%has_absent ->%has_absent ->%has_absent
      ->%has_absent ->%has_absent.
Qed.

Lemma updatePools_frame_witness :
  let w := example_world false in
  let w' := (updatePools token_headers w).1 in
  requestPoolMax (this w') = Num 500
  ∧ requestPool (this w') = Num 120
  ∧ requestTimer (this w') = Some 3%nat
  ∧ timers w' !! 3%nat = Some {| callback := ReqReset; delay := Num 400 |}
  ∧ (updatePools ∅ w).1 = w.
Proof.
  intros w w'.
  destruct (updatePools_frame token_headers w) as (H1 & H2 & H3 & _).
  destruct (updatePools_frame ∅ w) as (_ & _ & _ & _ & _ & _ & H7).
  destruct H3 as [H3 H4]; [reflexivity |].
  split; [apply H1; reflexivity |].
  split; [apply H2; reflexivity |].
  split; [exact H3 |].
  split; [apply (H4 eq_refl 3%nat); reflexivity |].
  apply H7; reflexivity.
Defined.

(** ** The warning for a long reset time *)

Lemma filter_no_warning (text : string) (out : list LogEntry) :
  no_warning text out → List.filter (is_warning text) out = [].
Proof.
  induction 1 as [|e out He _ IH]; simpl; [done |]. by rewrite He.
Qed.

Lemma reduce_part_logs (text : string) (acc : Logged (JsObject number))
    (part : string) :
  text = request_warning ∨ text = token_warning →
  no_warning text acc.2 → no_warning text (reduce_part acc part).2.
Proof.
  intros Htext. destruct acc as [units out]. cbn [snd]. intros Hout.
  unfold reduce_part.
  destruct (match_groups part) as [[s1 s2]|].
  - destruct (parseInt s1 (Some 10)) as [|z]; cbn [isNaN snd].
    + apply Forall_app; split; [done |].
      constructor; [|constructor]. by destruct Htext as [-> | ->].
    + destruct (obj_get unit_names s2); cbn [snd]; [done |].
      apply Forall_app; split; [done |].
      constructor; [|constructor]. by destruct Htext as [-> | ->].
  - cbn [snd]. apply Forall_app; split; [done |].
    constructor; [|constructor]. by destruct Htext as [-> | ->].
Qed.

(** What [parseDuration] writes to the console is never the warning for a
    long reset time. *)
Lemma parseDuration_logs (text s : string) :
  text = request_warning ∨ text = token_warning →
  no_warning text (parseDuration s).2.
Proof.
  intros Htext. unfold parseDuration.
  destruct (64 <? String.length s)%nat.
  { cbn [snd]. constructor; [|constructor]. by destruct Htext as [-> | ->]. }
  destruct (match_global (toLowerCase s)) as [parts|].
  2: { cbn [snd]. constructor; [|constructor].
       by destruct Htext as [-> | ->]. }
  assert (∀ acc, no_warning text acc.2 →
                 no_warning text (fold_left reduce_part parts acc).2) as Hfold.
  { induction parts as [|t parts IH]; intros acc Hacc; cbn [fold_left];
      [done |]. by apply IH, reduce_part_logs. }
  specialize (Hfold ([], []) (List.Forall_nil _)).
  by destruct (fold_left reduce_part parts ([], [])).
Qed.

Lemma reset_warning_long (text : string) (w : World) (dur : Duration) (d : Z) :
  asMilliseconds dur = Num d → 10000 < d →
  reset_warning text w dur
  = if debug (this w) then
      [[LogStr text; LogRatio (QArith_base.Qmake d 1000);
        LogStr (id (model (this w)))]]
    else [].
Proof.
  intros Hms Hd. unfold reset_warning. rewrite Hms. cbn [number_gt].
  replace (10000 <? d) with true by (symmetry; by apply Z.ltb_lt).
  cbn [andb]. destruct (debug (this w)); [|done].
  unfold asMilliseconds in Hms. unfold asSeconds.
  destruct (isValid dur); [|done]. injection Hms as ->. done.
Qed.

Lemma reset_warning_quiet (text : string) (w : World) (dur : Duration) :
  debug (this w) = false → reset_warning text w dur = [].
Proof. intros H. unfold reset_warning. rewrite H. by rewrite andb_false_r. Qed.

Lemma timer_delay_in_range (d : Z) :
  1 ≤ d ≤ TIMEOUT_MAX → timer_delay (Num d) = Num d.
Proof.
  intros [Hlo Hhi]. unfold timer_delay.
  apply Z.leb_le in Hlo as ->. by apply Z.leb_le in Hhi as ->.
Qed.

Lemma reset_warning_other (text text' : string) (w : World) (dur : Duration) :
  String.eqb text' text = false →
  no_warning text (reset_warning text' w dur).
Proof.
  intros H. unfold reset_warning.
  destruct (_ && _); constructor; [|constructor]. simpl. exact H.
Qed.

(** C8, as the code has it: a reset header whose duration [d] is above
    10000 milliseconds, and not above the 2147483647 milliseconds that a
    timer of the runtime can hold, leaves the pool's reset timer pending
    with the delay [d] itself. The warning is written when the client's
    [debug] flag is set; without the flag nothing is written for it. *)
Theorem updatePools_long_reset (headers : Headers) (w : World) (d : Z) :
  let w' := (updatePools headers w).1 in
  (handles_ok w = true →
   is_Some (headers !! "x-ratelimit-reset-requests") →
   asMilliseconds
     (parseDuration (get_or headers "x-ratelimit-reset-requests" "0s")).1
   = Num d →
   10000 < d → d ≤ TIMEOUT_MAX →
   ∃ t, requestTimer (this w') = Some t
        ∧ timers w' !! t = Some {| callback := ReqReset; delay := Num d |}
        ∧ (debug (this w) = true →
           In [LogStr request_warning; LogRatio (QArith_base.Qmake d 1000);
               LogStr (id (model (this w)))] (console w'))
        ∧ (debug (this w) = false →
           List.filter (is_warning request_warning) (console w')
           = List.filter (is_warning request_warning) (console w)))
  ∧ (is_Some (headers !! "x-ratelimit-reset-tokens") →
     asMilliseconds
       (parseDuration (get_or headers "x-ratelimit-reset-tokens" "0s")).1
     = Num d →
     10000 < d → d ≤ TIMEOUT_MAX →
     ∃ t, tokenTimer (this w') = Some t
          ∧ timers w' !! t = Some {| callback := TokenReset; delay := Num d |}
          ∧ (debug (this w) = true →
             In [LogStr token_warning; LogRatio (QArith_base.Qmake d 1000);
                 LogStr (id (model (this w)))] (console w'))
          ∧ (debug (this w) = false →
             List.filter (is_warning token_warning) (console w')
             = List.filter (is_warning token_warning) (console w))).
Proof.
  intros w'. subst w'. rewrite updatePools_run. cbn [fst].
  unfold updatePools_result, tokens_reset_applied, requests_reset_applied,
    reset_applied.
  destruct (limits_applied_timers headers (this w))
    as (Hreq & Htok & Hdebug & Hmodel).
  fold request_warning token_warning.
  set (w1 := with_this (limits_applied headers) w).
  assert (debug (this w1) = debug (this w)) as Hd1 by (by destruct w).
  assert (model (this w1) = model (this w)) as Hm1 by (by destruct w).
  assert (tokenTimer (this w1) = tokenTimer (this w)) as Ht1 by (by destruct w).
  assert (next_timer w1 = next_timer w) as Hn1 by (by destruct w).
  assert (console w1 = console w) as Hc1 by (by destruct w).
  split.
  - intros Hok [v Hv] Hms Hlong Hmax.
    rewrite (has_present _ _ _ Hv).
    pose proof (reset_warning_long request_warning w1 _ d Hms Hlong) as Hwarn.
    rewrite Hd1, Hm1 in Hwarn.
    exists (next_timer w1).
    destruct (has headers "x-ratelimit-reset-tokens");
      cbn [this timers next_timer console set_tokenTimer set_requestTimer
           requestTimer tokenTimer debug model].
    + split; [done |]. split; [|split].
      * rewrite lookup_insert_ne by lia.
        rewrite Ht1, Hms, timer_delay_in_range by lia.
        unfold handles_ok in Hok. rewrite Hn1.
        destruct (tokenTimer (this w)) as [t0|].
        -- assert (t0 < next_timer w)%nat as Hlt.
           { destruct (requestTimer (this w));
               repeat (apply andb_prop in Hok as [Hok ?]);
               by apply Nat.ltb_lt. }
           rewrite lookup_delete_ne by lia. by rewrite lookup_insert_eq.
        -- by rewrite lookup_insert_eq.
      * intros Hdbg. rewrite Hwarn, Hdbg.
        apply in_or_app. left. apply in_or_app. left.
        apply in_or_app. right. by left.
      * intros Hdbg. rewrite Hwarn, Hdbg, Hc1.
        rewrite (reset_warning_quiet token_warning)
          by (cbn [this debug set_requestTimer]; by rewrite Hd1).
        rewrite !app_nil_r, !List.filter_app.
        rewrite !(filter_no_warning request_warning (parseDuration _).2)
          by (apply parseDuration_logs; by left).
        by rewrite !app_nil_r.
    + split; [done |]. split; [|split].
      * by rewrite Hms, timer_delay_in_range, lookup_insert_eq by lia.
      * intros Hdbg. rewrite Hwarn, Hdbg. apply in_or_app. right. by left.
      * intros Hdbg. rewrite Hwarn, Hdbg, Hc1.
        rewrite !app_nil_r, !List.filter_app.
        rewrite !(filter_no_warning request_warning (parseDuration _).2)
          by (apply parseDuration_logs; by left).
        by rewrite !app_nil_r.
  - intros [v Hv] Hms Hlong Hmax.
    rewrite (has_present _ _ _ Hv).
    destruct (has headers "x-ratelimit-reset-requests");
      cbn [this timers next_timer console set_tokenTimer set_requestTimer
           requestTimer tokenTimer debug model].
    + exists (S (next_timer w1)). split; [done |]. split; [|split].
      * by rewrite Hms, timer_delay_in_range, lookup_insert_eq by lia.
      * intros Hdbg.
        rewrite (reset_warning_long token_warning _ _ d Hms Hlong).
        cbn [this debug model set_requestTimer]. rewrite Hd1, Hm1, Hdbg.
        apply in_or_app. right. by left.
      * intros Hdbg.
        rewrite (reset_warning_quiet token_warning)
          by (cbn [this debug set_requestTimer]; by rewrite Hd1).
        rewrite (reset_warning_quiet request_warning) by (by rewrite Hd1).
        rewrite Hc1, !app_nil_r, !List.filter_app.
        rewrite !(filter_no_warning token_warning (parseDuration _).2)
          by (apply parseDuration_logs; by right).
        by rewrite !app_nil_r.
    + exists (next_timer w1). split; [done |]. split; [|split].
      * by rewrite Hms, timer_delay_in_range, lookup_insert_eq by lia.
      * intros Hdbg.
        rewrite (reset_warning_long token_warning _ _ d Hms Hlong).
        rewrite Hd1, Hm1, Hdbg. apply in_or_app. right. by left.
      * intros Hdbg.
        rewrite (reset_warning_quiet token_warning) by (by rewrite Hd1).
        rewrite Hc1, !app_nil_r, !List.filter_app.
        rewrite !(filter_no_warning token_warning (parseDuration _).2)
          by (apply parseDuration_logs; by right).
        by rewrite !app_nil_r.
Qed.

Lemma updatePools_long_reset_witness :
  let w := example_world true in
  let w' := (updatePools long_reset_headers w).1 in
  (∃ t, requestTimer (this w') = Some t
        ∧ timers w' !! t = Some {| callback := ReqReset; delay := Num 11000 |}
        ∧ In [LogStr request_warning; LogRatio (QArith_base.Qmake 11000 1000);
              LogStr "gpt-4"] (console w'))
  ∧ (∃ t, tokenTimer (this w') = Some t
          ∧ timers w' !! t
            = Some {| callback := TokenReset; delay := Num 22200000 |}
          ∧ In [LogStr token_warning;
                LogRatio (QArith_base.Qmake 22200000 1000);
                LogStr "gpt-4"] (console w')).
Proof.
  intros w w'. split.
  - destruct (updatePools_long_reset long_reset_headers w 11000) as [H _].
    destruct H as (t & H1 & H2 & H3 & _);
      [reflexivity | by eexists | reflexivity | lia | by vm_compute |].
    exists t. split; [exact H1 |]. split; [exact H2 |]. by apply H3.
  - destruct (updatePools_long_reset long_reset_headers w 22200000) as [_ H].
    destruct H as (t & H1 & H2 & H3 & _);
      [by eexists | reflexivity | lia | by vm_compute |].
    exists t. split; [exact H1 |]. split; [exact H2 |]. by apply H3.
Defined.

(** Against C8 as it is written: without the [debug] flag a reset time of
    eleven seconds leaves the timer pending with its 11000 milliseconds, and
    nothing at all is written to the console. And a reset time of 600 hours,
    2160000000 milliseconds, is more than a timer of the runtime holds: the
    timer is pending with a delay of 1 millisecond. *)
Lemma updatePools_long_reset_silent :
  let headers : Headers := {[ "x-ratelimit-reset-requests" := "11s" ]} in
  let w := example_world false in
  let w' := (updatePools headers w).1 in
  let late : Headers := {[ "x-ratelimit-reset-requests" := "600h" ]} in
  let w'' := (updatePools late w).1 in
  asMilliseconds (parseDuration "11s").1 = Num 11000
  ∧ requestTimer (this w') = Some 4%nat
  ∧ timers w' !! 4%nat = Some {| callback := ReqReset; delay := Num 11000 |}
  ∧ console w' = []
  ∧ ¬ (∃ e, In e (console w') ∧ is_warning request_warning e = true)
  ∧ asMilliseconds (parseDuration "600h").1 = Num 2160000000
  ∧ requestTimer (this w'') = Some 4%nat
  ∧ timers w'' !! 4%nat = Some {| callback := ReqReset; delay := Num 1 |}.
Proof.
  intros headers w w' late w''.
  assert (console w' = []) as Hc by (by vm_compute).
  split; [by vm_compute |]. split; [by vm_compute |].
  split; [by vm_compute |]. split; [exact Hc |].
  split; [rewrite Hc; by intros (e & [] & _) |].
  split; [by vm_compute |]. split; by vm_compute.
Qed.

(** ** Claims about [parseError] *)

(** C2, as the code has it: for every error other than [null] and
    [undefined], [parseError] gives one of the five reasons. Status 400 is
    [BAD_REQUEST]; status 429 is [INSUFFICIENT_QUOTA] exactly when the nested
    [error.code] is "insufficient_quota" and [TOO_MANY_REQUESTS] otherwise;
    status 500 is [SERVER_ERROR]; any other status, and a value that has no
    status, is [UNKNOWN]. For [null] and [undefined] the read of
    [error.status] throws a [TypeError]. *)
Theorem parseError_classification (error : JsValue) :
  let status := member_of error "status" in
  let quota := nested_code error = Some (JsString "insufficient_quota") in
  (error = JsNull ∨ error = JsUndefined →
   parseError error = Thrown "TypeError")
  ∧ (error ≠ JsNull → error ≠ JsUndefined →
     ∃ reason,
       parseError error = Returned reason
       ∧ In reason
           [BAD_REQUEST; TOO_MANY_REQUESTS; INSUFFICIENT_QUOTA; SERVER_ERROR;
            UNKNOWN]
       ∧ (status = JsNumber (Num 400) → reason = BAD_REQUEST)
       ∧ (status = JsNumber (Num 429) →
          (reason = INSUFFICIENT_QUOTA ↔ quota)
          ∧ (¬ quota → reason = TOO_MANY_REQUESTS))
       ∧ (status = JsNumber (Num 500) → reason = SERVER_ERROR)
       ∧ (status ≠ JsNumber (Num 400) → status ≠ JsNumber (Num 429) →
          status ≠ JsNumber (Num 500) → reason = UNKNOWN)).
Proof.
  intros status quota. subst status quota. split.
  { by intros [-> | ->]. }
  intros Hnull Hundef.
  assert (truthy (member_of error "error")
          && is_string (member_of (member_of error "error") "code")
               "insufficient_quota" = true
          ↔ nested_code error = Some (JsString "insufficient_quota")) as Hq.
  { destruct error as [| |b|n|s|fields]; try (cbn; split; intros; congruence).
    unfold nested_code, member_of, member.
    destruct (obj_get fields "error") as [[| |b|n|s|props]|]; cbn;
      try (rewrite ?andb_false_r; split; intros; congruence).
    unfold member. destruct (obj_get props "code") as [[| |b|n|s|props']|];
      cbn; try (split; intros; congruence).
    rewrite String.eqb_eq. split; intros; congruence. }
  assert (read_property error "status" = Returned (member_of error "status"))
    as Hread by (by destruct error).
  unfold parseError. rewrite Hread.
  destruct (member_of error "status") as [| |b|[|z]|s0|props];
    cbn [is_number];
    try (exists UNKNOWN; split; [done |]; split; [simpl; tauto |];
         split; [by intros |]; split; [by intros |];
         split; [by intros | done]).
  destruct (Z.eqb_spec z 400) as [->|N400].
  { exists BAD_REQUEST. split; [done |]. split; [simpl; tauto |].
    split; [done |]. split; [by intros |]. split; [by intros |].
    by intros H. }
  destruct (Z.eqb_spec z 429) as [->|N429].
  { destruct (truthy _ && _) eqn:Hb.
    - exists INSUFFICIENT_QUOTA. split; [done |]. split; [simpl; tauto |].
      split; [by intros |]. split; [|split; [by intros | by intros ? H]].
      intros _. split; [split; [intros _; by apply Hq | done] |].
      intros Hn. destruct Hn. by apply Hq.
    - exists TOO_MANY_REQUESTS. split; [done |]. split; [simpl; tauto |].
      split; [by intros |]. split; [|split; [by intros | by intros ? H]].
      intros _. split; [split; [done |] | done].
      intros Hcode%Hq. congruence. }
  destruct (Z.eqb_spec z 500) as [->|N500].
  { exists SERVER_ERROR. split; [done |]. split; [simpl; tauto |].
    split; [by intros |]. split; [by intros |]. split; [done |].
    by intros ? ? H. }
  exists UNKNOWN. split; [done |]. split; [simpl; tauto |].
  split; [intros [=]; lia |]. split; [intros [=]; lia |].
  split; [intros [=]; lia | done].
Qed.

Lemma parseError_classification_witness :
  parseError (JsObj [("status", JsNumber (Num 429));
                     ("error",
                      JsObj [("code", JsString "insufficient_quota")])])
  = Returned INSUFFICIENT_QUOTA
  ∧ parseError (JsObj [("status", JsNumber (Num 429)); ("error", JsNull)])
    = Returned TOO_MANY_REQUESTS
  ∧ parseError (JsObj [("status", JsNumber (Num 400))]) = Returned BAD_REQUEST
  ∧ parseError (JsObj [("status", JsString "400")]) = Returned UNKNOWN
  ∧ parseError (JsString "timeout") = Returned UNKNOWN
  ∧ parseError JsUndefined = Thrown "TypeError".
Proof.
  split; [|split; [|split; [|split; [|split]]]].
  - destruct (parseError_classification
                (JsObj [("status", JsNumber (Num 429));
                        ("error",
                         JsObj [("code", JsString "insufficient_quota")])]))
      as [_ H].
    destruct H as (reason & -> & _ & _ & H429 & _); [done | done |].
    f_equal. by apply H429.
  - destruct (parseError_classification
                (JsObj [("status", JsNumber (Num 429)); ("error", JsNull)]))
      as [_ H].
    destruct H as (reason & -> & _ & _ & H429 & _); [done | done |].
    f_equal. destruct (H429 eq_refl) as [_ Hnot]. apply Hnot.
    cbv. congruence.
  - destruct (parseError_classification
                (JsObj [("status", JsNumber (Num 400))])) as [_ H].
    destruct H as (reason & -> & _ & H400 & _); [done | done |].
    f_equal. by apply H400.
  - destruct (parseError_classification
                (JsObj [("status", JsString "400")])) as [_ H].
    destruct H as (reason & -> & _ & _ & _ & _ & Hother); [done | done |].
    f_equal. apply Hother; cbv; congruence.
  - destruct (parseError_classification (JsString "timeout")) as [_ H].
    destruct H as (reason & -> & _ & _ & _ & _ & Hother); [done | done |].
    f_equal. apply Hother; cbv; congruence.
  - apply parseError_classification. by right.
Defined.

(** Against C2 as it is written: [null] is an error value for which
    [parseError] returns none of the five reasons; reading [error.status]
    throws. *)
Lemma parseError_null_throws :
  parseError JsNull = Thrown "TypeError"
  ∧ ¬ ∃ reason, parseError JsNull = Returned reason.
Proof. split; [reflexivity |]. by intros [reason H]. Qed.

(** ** Claims about [createChatCompletion] *)

Section ChatCompletionFacts.

Context {Message Any Usage : Type}.
Variable JSON_stringify : list Message → Outcome string.
Variable encode : string → Outcome (list nat).

(** C9: when the model supports images, the cost that
    [createChatCompletion] hands to [enqueue] is the constant 1000, whatever
    the messages hold and whatever the serializer and the encoder would do
    with them. When the model does not support images (the flag is false or
    absent), the cost is [countTokens] of the JSON text of the messages of
    the request, where the serializer gives a text and the encoder counts
    it. The request that is enqueued carries these messages, and two
    requests with the same messages get the same cost, whatever their
    options. *)
Theorem createChatCompletion_estimate (model : ModelMetadata)
    (request : ChatCompletionRequest Message Any) :
  (supportsImages (card model) = Some true →
   ∃ openaiRequest,
     enqueued
       (createChatCompletion (Usage := Usage) JSON_stringify encode model
          request)
     = Some (1000%nat, openaiRequest)
     ∧ oa_messages openaiRequest = messages request)
  ∧ (supportsImages (card model) ≠ Some true →
     ∀ text tokens,
       JSON_stringify (messages request) = Returned text →
       countTokens encode text = Returned tokens →
       ∃ openaiRequest,
         enqueued
           (createChatCompletion (Usage := Usage) JSON_stringify encode model
              request)
         = Some (tokens, openaiRequest)
         ∧ oa_messages openaiRequest = messages request)
  ∧ (∀ request' : ChatCompletionRequest Message Any,
       messages request' = messages request →
       fst <$> enqueued
                 (createChatCompletion (Usage := Usage) JSON_stringify encode
                    model request')
       = fst <$> enqueued
                   (createChatCompletion (Usage := Usage) JSON_stringify
                      encode model request)).
Proof.
  split; [|split].
  - intros Himages. unfold createChatCompletion. rewrite Himages.
    eexists. split; reflexivity.
  - intros Htext text tokens Hjson Hcount.
    assert (flag_set (supportsImages (card model)) = false) as Hflag.
    { destruct (supportsImages (card model)) as [[|]|]; done. }
    unfold createChatCompletion, estimateTokens. rewrite Hflag.
    cbn [oa_messages]. rewrite Hjson, Hcount.
    eexists. split; reflexivity.
  - intros request' Hm. unfold createChatCompletion, estimateTokens.
    destruct (flag_set (supportsImages (card model))); [done |].
    cbn [oa_messages]. rewrite Hm.
    destruct (JSON_stringify (messages request)) as [text|e]; [|done].
    by destruct (countTokens encode text).
Qed.

End ChatCompletionFacts.

Lemma createChatCompletion_estimate_witness :
  let with_options : ChatCompletionRequest string unit :=
    {| options := Some {| tools := Some tt; response_format := None;
                          temperature := QArith_base.Qmake 7 10;
                          max_tokens := Some 256 |};
       request_model := "gpt-4"; messages := ["hello"; "world"] |} in
  let without_options : ChatCompletionRequest string unit :=
    {| options := None; request_model := "gpt-4";
       messages := ["hello"; "world"] |} in
  fst <$> enqueued
            (createChatCompletion (Usage := unit) bracketed
               one_token_per_character image_model with_options)
  = Some 1000%nat
  ∧ fst <$> enqueued
              (createChatCompletion (Usage := unit) circular
                 one_token_per_character image_model with_options)
    = Some 1000%nat
  ∧ fst <$> enqueued
              (createChatCompletion (Usage := unit) bracketed
                 one_token_per_character text_model without_options)
    = Some 13%nat
  ∧ fst <$> enqueued
              (createChatCompletion (Usage := unit) bracketed
                 one_token_per_character text_model with_options)
    = fst <$> enqueued
                (createChatCompletion (Usage := unit) bracketed
                   one_token_per_character text_model without_options).
Proof.
  intros with_options without_options.
  split; [|split; [|split]].
  - destruct (createChatCompletion_estimate (Usage := unit) bracketed
                one_token_per_character image_model with_options)
      as (Himage & _).
    by destruct (Himage eq_refl) as (openaiRequest & -> & _).
  - destruct (createChatCompletion_estimate (Usage := unit) circular
                one_token_per_character image_model with_options)
      as (Himage & _).
    by destruct (Himage eq_refl) as (openaiRequest & -> & _).
  - destruct (createChatCompletion_estimate (Usage := unit) bracketed
                one_token_per_character text_model without_options)
      as (_ & Htext & _).
    by destruct (Htext ltac:(done) "[hello,world]" 13%nat eq_refl eq_refl)
      as (openaiRequest & -> & _).
  - apply (createChatCompletion_estimate (Usage := unit) bracketed
             one_token_per_character text_model without_options).
    reflexivity.
Defined.

Example parseObject_examples :
  parseObject toy_parse "  {a{b}c} {d}" = Returned (7%nat, " {d}")
  ∧ parseObject toy_parse (brace_in_string +:+ "{}") = Returned (9%nat, "{}")
  ∧ parseObject toy_parse "   " = Thrown "Invalid JSON"
  ∧ parseObject toy_parse "{a" = Thrown "Invalid JSON"
  ∧ parseObject toy_parse "12" = Thrown "SyntaxError"
  ∧ parseMultipleObjects toy_parse "{a} {bc}{}" = Some (Returned [3; 4; 2]%nat)
  ∧ parseMultipleObjects toy_parse "{a} " = Some (Thrown "Invalid JSON")
  ∧ parseMultipleObjects toy_parse "" = Some (Returned []).
Proof. by vm_compute. Qed.

(** ** [parseObject] *)

Ltac str_norm :=
  repeat first [rewrite app_assoc_str | progress cbn [String.append]].

Section JsonObjectsFacts.

Context {Value : Type}.
Variable JSON_parse : string → Outcome Value.

Lemma app_single (a : string) (c : ascii) (b : string) :
  (a +:+ String c "") +:+ b = a +:+ String c b.
Proof. by rewrite app_assoc_str. Qed.

Lemma parseObject_loop_blank (objStr : string) (inString : bool)
    (prev : option ascii) (c : ascii) (rest : string) :
  is_blank c = true →
  parseObject_loop JSON_parse [] objStr inString prev (String c rest)
  = parseObject_loop JSON_parse [] objStr inString (Some c) rest.
Proof. intros Hc. cbn [parseObject_loop stack_empty andb]. by rewrite Hc. Qed.

(** Blanks before the first character of an object are passed over. *)
Lemma parseObject_loop_blanks (blanks source objStr : string)
    (inString : bool) (prev : option ascii) :
  all_blank blanks = true →
  ∃ prev',
    parseObject_loop JSON_parse [] objStr inString prev (blanks +:+ source)
    = parseObject_loop JSON_parse [] objStr inString prev' source.
Proof.
  revert prev. induction blanks as [|c blanks IH]; intros prev Hb.
  - by exists prev.
  - cbn [all_blank] in Hb. apply andb_prop in Hb as [Hc Hb].
    destruct (IH (Some c) Hb) as [prev' Hp]. exists prev'.
    cbn [String.append]. by rewrite parseObject_loop_blank.
Qed.

(** One character read while the stack is not empty, or that is not
    blank. *)
Lemma parseObject_loop_step (stack : list ascii) (objStr : string)
    (inString : bool) (prev : option ascii) (c : ascii) (rest : string) :
  stack_empty stack && is_blank c = false →
  parseObject_loop JSON_parse stack objStr inString prev (String c rest)
  = let inString :=
      if Ascii.eqb c double_quote
         && match prev with
            | None => true
            | Some p => negb (Ascii.eqb p backslash)
            end
      then negb inString else inString in
    let stack :=
      if negb inString then
        let stack :=
          if Ascii.eqb c "{" then (stack ++ [c])%list else stack in
        if Ascii.eqb c "}" then removelast stack else stack
      else stack in
    let objStr := objStr +:+ String c EmptyString in
    if stack_empty stack then
      match JSON_parse objStr with
      | Returned value => Returned (value, rest)
      | Thrown e => Thrown e
      end
    else parseObject_loop JSON_parse stack objStr inString (Some c) rest.
Proof. intros H. cbn [parseObject_loop]. by rewrite H. Qed.

Lemma stack_not_empty (stack : list ascii) (c : ascii) :
  stack ≠ [] → stack_empty stack && is_blank c = false.
Proof. by destruct stack. Qed.

(** Inside a string, up to the double quote that closes it. *)
Lemma parseObject_loop_string (body : string) :
  ∀ (stack : list ascii) (objStr : string) (p : ascii) (k : string),
    stack ≠ [] → string_body p body = true →
    parseObject_loop JSON_parse stack objStr true (Some p)
      (body +:+ String double_quote k)
    = parseObject_loop JSON_parse stack
        (objStr +:+ body +:+ String double_quote "") false
        (Some double_quote) k.
Proof.
  induction body as [|c body IH]; intros stack objStr p k Hs Hb.
  - cbn [string_body] in Hb. cbn [String.append].
    rewrite parseObject_loop_step by (by apply stack_not_empty).
    rewrite Ascii.eqb_refl, Hb. cbn [andb negb].
    change (Ascii.eqb double_quote "{") with false.
    change (Ascii.eqb double_quote "}") with false. cbv iota.
    by destruct stack.
  - cbn [string_body] in Hb. apply andb_prop in Hb as [Hq Hb].
    cbn [String.append].
    rewrite parseObject_loop_step by (by apply stack_not_empty).
    assert (Ascii.eqb c double_quote
            && negb (Ascii.eqb p backslash) = false) as ->.
    { destruct (Ascii.eqb c double_quote); [by rewrite Hq | done]. }
    cbn [negb]. cbv iota zeta.
    destruct stack as [|x stack]; [done |]. cbn [stack_empty].
    rewrite (IH (x :: stack)) by done.
    by rewrite app_single.
Qed.

(** The inside of an object is read without leaving it. *)
Lemma parseObject_loop_items (inner : string) :
  items inner →
  ∀ (stack : list ascii) (objStr : string) (p : ascii) (k : string),
    stack ≠ [] → Ascii.eqb p backslash = false →
    ∃ p', Ascii.eqb p' backslash = false
          ∧ parseObject_loop JSON_parse stack objStr false (Some p)
              (inner +:+ k)
            = parseObject_loop JSON_parse stack (objStr +:+ inner) false
                (Some p') k.
Proof.
  induction 1 as [|c r Hc _ IH|body r Hbody _ IH|inner r _ IHinner _ IHr];
    intros stack objStr p k Hs Hp.
  - exists p. by rewrite app_empty_r.
  - unfold is_plain in Hc.
    apply andb_prop in Hc as [[[Ho Hcl]%andb_prop Hq]%andb_prop Hb].
    apply negb_true_iff in Ho, Hcl, Hq, Hb.
    destruct (IH stack (objStr +:+ String c "") c k Hs Hb) as (p' & Hp' & Heq).
    exists p'. split; [done |]. cbn [String.append].
    rewrite parseObject_loop_step by (by apply stack_not_empty).
    rewrite Hq, Ho, Hcl. cbn [andb negb]. cbv iota zeta.
    destruct stack as [|x stack]; [done |]. cbn [stack_empty].
    by rewrite Heq, app_single.
  - destruct (IH stack ((objStr +:+ String double_quote "") +:+ body
                         +:+ String double_quote "") double_quote k Hs eq_refl)
      as (p' & Hp' & Heq).
    exists p'. split; [done |].
    cbn [String.append]. rewrite app_assoc_str. cbn [String.append].
    rewrite parseObject_loop_step by (by apply stack_not_empty).
    rewrite Ascii.eqb_refl, Hp. cbn [andb negb]. cbv iota zeta.
    destruct stack as [|x stack]; [done |]. cbn [stack_empty].
    rewrite parseObject_loop_string by done.
    rewrite Heq. f_equal. by str_norm.
  - destruct (IHinner (stack ++ ["{"%char])%list (objStr +:+ "{") "{"%char
                (String "}" (r +:+ k))) as (p1 & Hp1 & Heq1);
      [by destruct stack | done |].
    destruct (IHr stack (((objStr +:+ "{") +:+ inner) +:+ "}") "}"%char k Hs
                eq_refl) as (p' & Hp' & Heq).
    exists p'. split; [done |].
    rewrite !app_assoc_str. cbn [String.append].
    rewrite parseObject_loop_step by (by apply stack_not_empty).
    change (Ascii.eqb "{" double_quote) with false.
    cbn [andb negb Ascii.eqb Bool.eqb]. cbv iota zeta.
    replace (stack_empty (stack ++ ["{"%char])) with false
      by (by destruct stack).
    change (String "{" (inner +:+ String "}" (r +:+ k)))
      with ("{" +:+ inner +:+ String "}" (r +:+ k)) in Heq1.
    rewrite Heq1.
    rewrite parseObject_loop_step
      by (apply stack_not_empty; by destruct stack).
    rewrite (proj2 (Ascii.eqb_neq "}" double_quote)) by done.
    cbn [andb negb Ascii.eqb Bool.eqb]. cbv iota zeta.
    rewrite removelast_last.
    destruct stack as [|x stack]; [done |]. cbn [stack_empty].
    rewrite Heq. f_equal. by str_norm.
Qed.

End JsonObjectsFacts.

Section JsonObjectsTheorems.

Context {Value : Type}.
Variable JSON_parse : string → Outcome Value.



Lemma parseObject_loop_sound (source : string) :
  ∀ (stack : list ascii) (objStr : string) (inString : bool)
    (prev : option ascii) (value : Value) (rest : string),
    parseObject_loop JSON_parse stack objStr inString prev source
    = Returned (value, rest) →
    ∃ blanks text,
      source = blanks +:+ text +:+ rest
      ∧ all_blank blanks = true ∧ text ≠ ""
      ∧ JSON_parse (objStr +:+ text) = Returned value
      ∧ (stack = [] → starts_with_text text = true)
      ∧ (stack ≠ [] → blanks = "").
Proof.
  induction source as [|c source IH];
    intros stack objStr inString prev value rest; [done |].
  destruct (stack_empty stack && is_blank c) eqn:Hskip.
  - apply andb_prop in Hskip as [Hs Hc].
    destruct stack; [|done]. rewrite parseObject_loop_blank by done.
    intros (blanks & text & -> & Hb & Ht & Hp & Hstart & _)%IH.
    exists (String c blanks), text. cbn [all_blank]. rewrite Hc, Hb.
    by repeat split.
  - rewrite parseObject_loop_step by done. cbv zeta.
    set (inString' := if _ && _ then negb inString else inString).
    set (stack' := if negb inString' then _ else stack).
    assert (stack = [] → starts_with_text (String c "") = true) as Hfirst.
    { intros ->. cbn in Hskip. cbn. by rewrite Hskip. }
    destruct (stack_empty stack') eqn:Hempty.
    + destruct (JSON_parse (objStr +:+ String c "")) as [v|e] eqn:Hp; [|done].
      intros [= <- <-]. exists "", (String c "").
      repeat split; try done.
    + intros (blanks & text & -> & Hb & Ht & Hp & _ & Hblanks)%IH.
      rewrite Hblanks by (by destruct stack'). exists "", (String c text).
      rewrite app_single in Hp.
      by repeat split.
Qed.

Lemma parseObject_shorter (source rest : string) (value : Value) :
  parseObject JSON_parse source = Returned (value, rest) →
  (String.length rest < String.length source)%nat.
Proof.
  intros (blanks & text & -> & _ & Ht & _)%parseObject_loop_sound.
  rewrite !length_app. destruct text; [done | simpl; lia].
Qed.

(** X2. What [parseObject] returns is cut out of its input: the input is
    blanks, then a text that starts with a character that is not blank, then
    the rest that is returned; the value is [JSON.parse] of that text, and
    the rest is shorter than the input. *)
Theorem parseObject_sound (source rest : string) (value : Value) :
  parseObject JSON_parse source = Returned (value, rest) →
  (∃ blanks text,
     source = blanks +:+ text +:+ rest
     ∧ all_blank blanks = true ∧ starts_with_text text = true
     ∧ JSON_parse text = Returned value)
  ∧ (String.length rest < String.length source)%nat.
Proof.
  intros (blanks & text & -> & Hb & Ht & Hp & Hstart & _)%parseObject_loop_sound.
  split.
  - exists blanks, text. by repeat split; auto.
  - rewrite !length_app. destruct text; [done | simpl; lia].
Qed.

(** X3. A text whose first character after the blanks is not an opening
    brace is cut after that one character: only the character goes to
    [JSON.parse], and all that follows it is the rest. *)
Theorem parseObject_first_character (blanks rest : string) (c : ascii) :
  all_blank blanks = true → is_blank c = false → Ascii.eqb c "{" = false →
  parseObject JSON_parse (blanks +:+ String c rest)
  = match JSON_parse (String c "") with
    | Returned value => Returned (value, rest)
    | Thrown e => Thrown e
    end.
Proof.
  intros Hb Hc Hbrace. unfold parseObject.
  destruct (parseObject_loop_blanks JSON_parse blanks (String c rest) ""
              false None Hb) as [prev ->].
  rewrite parseObject_loop_step by (by rewrite Hc).
  rewrite Hbrace. cbv zeta.
  by destruct (_ && _), (Ascii.eqb c "}").
Qed.

Lemma parseObject_loop_suffix (source : string) :
  ∀ (stack : list ascii) (objStr : string) (inString : bool)
    (prev : option ascii) (value : Value) (rest k : string),
    parseObject_loop JSON_parse stack objStr inString prev source
    = Returned (value, rest) →
    parseObject_loop JSON_parse stack objStr inString prev (source +:+ k)
    = Returned (value, rest +:+ k).
Proof.
  induction source as [|c source IH];
    intros stack objStr inString prev value rest k; [done |].
  cbn [String.append].
  destruct (stack_empty stack && is_blank c) eqn:Hskip.
  - apply andb_prop in Hskip as [Hs Hc]. destruct stack; [|done].
    rewrite !parseObject_loop_blank by done. apply IH.
  - rewrite !parseObject_loop_step by done. cbv zeta.
    set (inString' := if _ && _ then negb inString else inString).
    set (stack' := if negb inString' then _ else stack).
    destruct (stack_empty stack').
    + destruct (JSON_parse _); [|done]. by intros [= <- <-].
    + apply IH.
Qed.

(** What follows the text of the first value does not change it. *)
Lemma parseObject_suffix (source rest k : string) (value : Value) :
  parseObject JSON_parse source = Returned (value, rest) →
  parseObject JSON_parse (source +:+ k) = Returned (value, rest +:+ k).
Proof. apply parseObject_loop_suffix. Qed.

Lemma parseObject_blank (source : string) :
  all_blank source = true →
  parseObject JSON_parse source = Thrown "Invalid JSON".
Proof.
  intros Hb. unfold parseObject.
  destruct (parseObject_loop_blanks JSON_parse source "" "" false None Hb)
    as [prev Heq].
  rewrite app_empty_r in Heq. by rewrite Heq.
Qed.

Lemma parseObject_loop_unclosed (s : string) :
  ∀ (stack : list ascii) (objStr : string) (p : ascii),
    stack ≠ [] → escaped_quotes p s = true →
    parseObject_loop JSON_parse stack objStr true (Some p) s
    = Thrown "Invalid JSON".
Proof.
  induction s as [|c s IH]; intros stack objStr p Hs Hq; [done |].
  cbn [escaped_quotes] in Hq. apply andb_prop in Hq as [Hc Hq].
  rewrite parseObject_loop_step by (by apply stack_not_empty).
  assert (Ascii.eqb c double_quote
          && negb (Ascii.eqb p backslash) = false) as ->.
  { destruct (Ascii.eqb c double_quote); [by rewrite Hc | done]. }
  cbn [negb]. cbv iota zeta.
  destruct stack as [|x stack]; [done |]. cbn [stack_empty].
  by apply IH.
Qed.

(** X4. A double quote that follows a backslash never closes a string,
    also when the backslash is itself escaped: an object with a string in
    which every later double quote follows a backslash is read to the end of
    the input and refused as "Invalid JSON", without a call of
    [JSON.parse]. *)
Theorem parseObject_escaped_quote (before text : string) :
  items before → escaped_quotes double_quote text = true →
  parseObject JSON_parse ("{" +:+ before +:+ String double_quote text)
  = Thrown "Invalid JSON".
Proof.
  intros Hitems Hq. unfold parseObject. str_norm.
  rewrite parseObject_loop_step by done.
  change (Ascii.eqb "{" double_quote) with false.
  cbn [andb negb Ascii.eqb Bool.eqb app stack_empty String.append].
  cbv iota zeta.
  destruct (parseObject_loop_items JSON_parse before Hitems ["{"%char] "{"
              "{"%char (String double_quote text)) as (p & Hp & Heq);
    [done.. |].
  rewrite Heq. rewrite parseObject_loop_step by done.
  rewrite Ascii.eqb_refl, Hp. cbn [andb negb stack_empty]. cbv iota zeta.
  by apply parseObject_loop_unclosed.
Qed.

End JsonObjectsTheorems.


Lemma parseObject_sound_witness :
  (∃ blanks text,
     "  {a{b}c} {d}" = blanks +:+ text +:+ " {d}"
     ∧ all_blank blanks = true ∧ starts_with_text text = true
     ∧ toy_parse text = Returned 7%nat)
  ∧ (String.length " {d}" < String.length "  {a{b}c} {d}")%nat.
Proof.
  apply (parseObject_sound toy_parse "  {a{b}c} {d}" " {d}" 7%nat).
  reflexivity.
Defined.

Lemma parseObject_first_character_witness :
  parseObject toy_parse " [1,2]" = Thrown "SyntaxError"
  ∧ parseObject (λ text, Returned text) "12" = Returned ("1", "2").
Proof.
  split.
  - apply (parseObject_first_character toy_parse " " "1,2]" "["%char);
      reflexivity.
  - apply (parseObject_first_character (λ text, Returned text) "" "2" "1"%char);
      reflexivity.
Defined.

Lemma parseObject_escaped_quote_witness :
  parseObject toy_parse escaped_backslash_object = Thrown "Invalid JSON".
Proof.
  apply (parseObject_escaped_quote toy_parse
           (String double_quote "a" +:+ String double_quote ":")
           ("\\" +:+ String double_quote "}")).
  - apply (items_string "a" ":"); [reflexivity |].
    apply items_plain; [reflexivity | apply items_end].
  - reflexivity.
Defined.

(** ** [parseMultipleObjects] *)

Section JsonObjectListFacts.

Context {Value : Type}.
Variable JSON_parse : string → Outcome Value.

Lemma prepend_nil (result : option (Outcome (list Value))) :
  prepend [] result = result.
Proof. by destruct result as [[more|e]|]. Qed.

Lemma prepend_prepend (a b : list Value)
    (result : option (Outcome (list Value))) :
  prepend a (prepend b result) = prepend (a ++ b)%list result.
Proof. destruct result as [[more|e]|]; simpl; [|done..]. by rewrite app_assoc. Qed.

Lemma parseMultipleObjects_loop_acc (fuel : nat) :
  ∀ (ret : list Value) (rest : string),
    parseMultipleObjects_loop JSON_parse fuel ret rest
    = prepend ret (parseMultipleObjects_loop JSON_parse fuel [] rest).
Proof.
  induction fuel as [|fuel IH]; intros ret rest; [done |].
  cbn [parseMultipleObjects_loop].
  destruct (String.length rest =? 0)%nat.
  - simpl. by rewrite app_nil_r.
  - destruct (parseObject JSON_parse rest) as [[obj next]|e]; [|done].
    rewrite (IH (ret ++ [obj])%list), (IH ([] ++ [obj])%list).
    by rewrite prepend_prepend.
Qed.

(** The loop ends before its fuel does. *)
Lemma parseMultipleObjects_loop_fuel (n : nat) :
  ∀ (fuel1 fuel2 : nat) (ret : list Value) (rest : string),
    (String.length rest ≤ n)%nat → (n < fuel1)%nat → (n < fuel2)%nat →
    parseMultipleObjects_loop JSON_parse fuel1 ret rest
    = parseMultipleObjects_loop JSON_parse fuel2 ret rest
    ∧ is_Some (parseMultipleObjects_loop JSON_parse fuel1 ret rest).
Proof.
  induction n as [|n IH]; intros fuel1 fuel2 ret rest Hlen H1 H2;
    (destruct fuel1 as [|fuel1]; [lia |]);
    (destruct fuel2 as [|fuel2]; [lia |]);
    cbn [parseMultipleObjects_loop].
  - destruct rest; [by split |]. simpl in Hlen. lia.
  - destruct (String.length rest =? 0)%nat; [by split |].
    destruct (parseObject JSON_parse rest) as [[obj next]|e] eqn:Hp;
      [|by split].
    pose proof (parseObject_shorter _ _ _ _ Hp) as Hlt.
    apply IH; lia.
Qed.

Lemma parseMultipleObjects_total (source : string) :
  is_Some (parseMultipleObjects JSON_parse source).
Proof.
  unfold parseMultipleObjects.
  destruct (parseMultipleObjects_loop_fuel (String.length source)
              (S (String.length source)) (S (String.length source))
              [] source) as [_ H]; [lia.. | exact H].
Qed.

Lemma parseMultipleObjects_eq (source : string) :
  parseMultipleObjects JSON_parse source
  = if (String.length source =? 0)%nat then Some (Returned [])
    else
      match parseObject JSON_parse source with
      | Returned (obj, next) =>
          prepend [obj] (parseMultipleObjects JSON_parse next)
      | Thrown e => Some (Thrown e)
      end.
Proof.
  unfold parseMultipleObjects. cbn [parseMultipleObjects_loop].
  destruct (String.length source =? 0)%nat; [done |].
  destruct (parseObject JSON_parse source) as [[obj next]|e] eqn:Hp;
    [|done].
  pose proof (parseObject_shorter _ _ _ _ Hp) as Hlt.
  rewrite parseMultipleObjects_loop_acc. f_equal.
  destruct (parseMultipleObjects_loop_fuel (String.length next)
              (String.length source) (S (String.length next))
              [] next) as [H _]; [lia.. | exact H].
Qed.

(** X5. [parseMultipleObjects] always ends, and it works one value at a
    time: nothing for the empty text; otherwise the first value that
    [parseObject] cuts off, then the values of the rest; an error of
    [parseObject] anywhere is the outcome of the whole call, and no value
    read before it is returned. *)
Theorem parseMultipleObjects_unfold (source : string) :
  is_Some (parseMultipleObjects JSON_parse source)
  ∧ parseMultipleObjects JSON_parse source
    = if (String.length source =? 0)%nat then Some (Returned [])
      else
        match parseObject JSON_parse source with
        | Returned (obj, next) =>
            prepend [obj] (parseMultipleObjects JSON_parse next)
        | Thrown e => Some (Thrown e)
        end.
Proof.
  split; [apply parseMultipleObjects_total | apply parseMultipleObjects_eq].
Qed.

Lemma parseMultipleObjects_append (source more : string)
    (values : list Value) :
  parseMultipleObjects JSON_parse source = Some (Returned values) →
  parseMultipleObjects JSON_parse (source +:+ more)
  = prepend values (parseMultipleObjects JSON_parse more).
Proof.
  remember (String.length source) as n eqn:Hn.
  revert source values Hn.
  induction n as [n IH] using lt_wf_ind. intros source values -> Hsource.
  rewrite parseMultipleObjects_eq in Hsource.
  destruct source as [|c source].
  - injection Hsource as <-. by rewrite prepend_nil.
  - change (String.length (String c source) =? 0)%nat with false in Hsource.
    destruct (parseObject JSON_parse (String c source)) as [[obj next]|e]
      eqn:Hp; [|done].
    pose proof (parseObject_shorter _ _ _ _ Hp) as Hlt.
    destruct (parseMultipleObjects JSON_parse next) as [[rest_values|e]|]
      eqn:Hnext; [|done..].
    injection Hsource as <-.
    rewrite (parseMultipleObjects_eq (String c source +:+ more)).
    change (String.length (String c source +:+ more) =? 0)%nat with false.
    rewrite (parseObject_suffix _ _ _ more _ Hp).
    rewrite (IH (String.length next) Hlt next rest_values eq_refl Hnext).
    by rewrite prepend_prepend.
Qed.

(** X6. Reading is compositional: when a text gives the values [values],
    the text followed by [more] gives [values] followed by the values of
    [more], or the error of [more]. *)
Theorem parseMultipleObjects_app (source more : string)
    (values : list Value) :
  parseMultipleObjects JSON_parse source = Some (Returned values) →
  parseMultipleObjects JSON_parse (source +:+ more)
  = prepend values (parseMultipleObjects JSON_parse more).
Proof. apply parseMultipleObjects_append. Qed.


(** X8. Blanks after the last value are an error: a text that reads well
    and is followed by one blank or more is refused as "Invalid JSON"; so is
    a text of blanks alone. *)
Theorem parseMultipleObjects_trailing_blanks (source blanks : string)
    (values : list Value) :
  parseMultipleObjects JSON_parse source = Some (Returned values) →
  all_blank blanks = true → blanks ≠ "" →
  parseMultipleObjects JSON_parse (source +:+ blanks)
  = Some (Thrown "Invalid JSON").
Proof.
  intros Hsource Hb Hne.
  rewrite (parseMultipleObjects_append _ _ _ Hsource).
  rewrite parseMultipleObjects_eq, parseObject_blank by done.
  by destruct blanks.
Qed.

End JsonObjectListFacts.

Lemma parseMultipleObjects_app_witness :
  parseMultipleObjects toy_parse ("{a} {bc}" +:+ "{}{d")
  = Some (Thrown "Invalid JSON")
  ∧ parseMultipleObjects toy_parse ("{a} {bc}" +:+ " {}")
    = Some (Returned [3; 4; 2]%nat).
Proof.
  split.
  - apply (parseMultipleObjects_app toy_parse "{a} {bc}" "{}{d" [3; 4]%nat).
    reflexivity.
  - apply (parseMultipleObjects_app toy_parse "{a} {bc}" " {}" [3; 4]%nat).
    reflexivity.
Defined.


Lemma parseMultipleObjects_trailing_blanks_witness :
  parseMultipleObjects toy_parse ("{a}{bc}" +:+ " ")
  = Some (Thrown "Invalid JSON").
Proof.
  apply (parseMultipleObjects_trailing_blanks toy_parse "{a}{bc}" " "
           [3; 4]%nat); [reflexivity | reflexivity | done].
Defined.

Example Timing_examples :
  Timing.new 50 (Some (Num 10)) (Some (Num 5))
  = Thrown "Timing end is before start"
  ∧ Timing.new 50 None None
    = Returned {| Timing._start := Num 50; Timing._end := None |}
  ∧ Timing.finish 70 {| Timing._start := Num 50; Timing._end := None |}
    = Returned {| Timing._start := Num 50; Timing._end := Some (Num 70) |}
  ∧ Timing.finish 40 {| Timing._start := Num 50; Timing._end := None |}
    = Thrown "Timing start is in the future"
  ∧ asMilliseconds
      (Timing.elapsed 99
         {| Timing._start := Num 50; Timing._end := Some (Num 70) |})
    = Num 20
  ∧ isValid (Timing.elapsed 99 {| Timing._start := NaN; Timing._end := None |})
    = false.
Proof. by vm_compute. Qed.

(** ** [Timing] *)

Lemma Timing_new_returned (now : Z) (start end_ : option Timing.Moment)
    (t : Timing.Timing) :
  Timing.new now start end_ = Returned t →
  t = {| Timing._start := default (Num now) start; Timing._end := end_ |}
  ∧ (is_Some start ∨ end_ = None → in_order t).
Proof.
  unfold Timing.new, in_order.
  destruct start as [s|], end_ as [e|]; try (by intros [= <-]).
  - destruct (Timing.isBefore e s) eqn:Hb; [done |]. by intros [= <-].
  - intros [= <-]. split; [done |]. by intros [[? [=]] | [=]].
Qed.

(** X9. The constructor refuses its arguments exactly when both a start
    and an end are given and the end is before the start. Otherwise the new
    timing holds the end as given and the start as given, or the current
    time when no start is given; its end is not before its start when a
    start was given or no end was. An end given without a start is not
    compared with anything: when it is before the current time, the new
    timing ends before it starts. *)
Theorem Timing_new_spec (now : Z) (start end_ : option Timing.Moment) :
  (Timing.new now start end_ = Thrown "Timing end is before start"
   ↔ ∃ s e, start = Some s ∧ end_ = Some e ∧ Timing.isBefore e s = true)
  ∧ (∀ t, Timing.new now start end_ = Returned t →
          Timing._start t = default (Num now) start
          ∧ Timing._end t = end_
          ∧ (is_Some start ∨ end_ = None → in_order t))
  ∧ (∀ e, e < now →
          Timing.new now None (Some (Num e))
          = Returned {| Timing._start := Num now; Timing._end := Some (Num e) |}
          ∧ Timing.isBefore (Num e) (Num now) = true).
Proof.
  split; [| split].
  - unfold Timing.new.
    destruct start as [s|], end_ as [e|];
      try (split; [done | by intros (? & ? & ? & ? & ?)]).
    destruct (Timing.isBefore e s) eqn:Hb.
    + split; [by exists s, e | done].
    + split; [done |]. intros (? & ? & [= <-] & [= <-] & ?). congruence.
  - intros t Hnew.
    by destruct (Timing_new_returned now start end_ t Hnew) as [-> ?].
  - intros e He. split; [done |]. by apply Z.ltb_lt.
Qed.

Lemma Timing_new_spec_witness :
  Timing.new 50 (Some (Num 10)) (Some (Num 5))
  = Thrown "Timing end is before start"
  ∧ in_order {| Timing._start := Num 50; Timing._end := None |}
  ∧ Timing.isBefore (Num 20) (Num 50) = true.
Proof.
  destruct (Timing_new_spec 50 (Some (Num 10)) (Some (Num 5))) as (H & _ & _).
  destruct (Timing_new_spec 50 None None) as (_ & H' & _).
  destruct (Timing_new_spec 50 None None) as (_ & _ & H'').
  split; [| split].
  - apply H. exists (Num 10), (Num 5). by repeat split.
  - apply (H' {| Timing._start := Num 50; Timing._end := None |} eq_refl).
    by right.
  - apply (H'' 20). lia.
Defined.

(** X10. [finish] ends a timing once: a call that returns leaves the timing
    ended at the current time, with its start as it was, and every later
    call throws "Timing has already ended"; a call that throws changes
    nothing. *)
Theorem Timing_finish_once (now : Z) (t t' : Timing.Timing) :
  Timing.finish now t = Returned t' →
  Timing.hasEnded t = false
  ∧ Timing._start t' = Timing._start t
  ∧ Timing._end t' = Some (Num now)
  ∧ Timing.hasEnded t' = true
  ∧ ∀ later, Timing.finish later t' = Thrown "Timing has already ended".
Proof.
  unfold Timing.finish.
  destruct (Timing.hasEnded t) eqn:He; [done |].
  destruct (Timing.isBefore (Num now) (Timing._start t)); [done |].
  by intros [= <-].
Qed.

Lemma Timing_finish_once_witness :
  Timing.finish 90 {| Timing._start := Num 50; Timing._end := Some (Num 70) |}
  = Thrown "Timing has already ended".
Proof.
  apply (Timing_finish_once 70
           {| Timing._start := Num 50; Timing._end := None |}).
  reflexivity.
Defined.

Lemma finish_at_in_order (t : Timing.Timing) (now : Z) :
  in_order t → in_order (finish_at t now).
Proof.
  unfold finish_at, Timing.finish, in_order.
  destruct (Timing.hasEnded t); [done |].
  destruct (Timing.isBefore (Num now) (Timing._start t)) eqn:Hb; [done |].
  by intros _.
Qed.

(** X11. A timing built with a start, or without an end, never ends before
    it starts: after calls of [finish] at any times and in any number it has
    no end or an end that is not before its start, and its start is the one
    it was built with. *)
Theorem Timing_in_order (now : Z) (start end_ : option Timing.Moment)
    (t : Timing.Timing) (times : list Z) :
  Timing.new now start end_ = Returned t →
  is_Some start ∨ end_ = None →
  in_order (fold_left finish_at times t)
  ∧ Timing._start (fold_left finish_at times t) = Timing._start t.
Proof.
  intros Hnew Hgiven.
  assert (in_order t) as Ht.
  { destruct (Timing_new_returned now start end_ t Hnew) as [_ H]. auto. }
  clear Hnew Hgiven. revert t Ht.
  induction times as [|time times IH]; intros t Ht; [done |].
  cbn [fold_left].
  destruct (IH (finish_at t time) (finish_at_in_order t time Ht)) as [Ho Hs].
  split; [done |]. rewrite Hs.
  unfold finish_at, Timing.finish.
  destruct (Timing.hasEnded t); [done |].
  by destruct (Timing.isBefore (Num time) (Timing._start t)).
Qed.

Lemma Timing_in_order_witness :
  let t := {| Timing._start := Num 50; Timing._end := None |} in
  fold_left finish_at [40; 70; 60] t
  = {| Timing._start := Num 50; Timing._end := Some (Num 70) |}
  ∧ in_order (fold_left finish_at [40; 70; 60] t).
Proof.
  intros t. split; [reflexivity |].
  apply (Timing_in_order 50 None None t [40; 70; 60]);
    [reflexivity | by right].
Defined.



(** X13. The life of a timing made without arguments at the time [t0]: it
    has not ended, and its elapsed time at [now] is [now - t0]; [finish] at
    a time [t1] not before [t0] ends it, and from then on its elapsed time
    is [t1 - t0] whatever the clock reads; [finish] at a time before [t0]
    (the clock went back) throws "Timing start is in the future" and leaves
    it running. *)
Theorem Timing_lifecycle (t0 t1 now : Z) :
  ∃ t, Timing.new t0 None None = Returned t
       ∧ Timing.hasEnded t = false
       ∧ asMilliseconds (Timing.elapsed now t) = Num (now - t0)
       ∧ (t0 ≤ t1 →
          ∃ t', Timing.finish t1 t = Returned t'
                ∧ Timing.hasEnded t' = true
                ∧ asMilliseconds (Timing.elapsed now t') = Num (t1 - t0))
       ∧ (t1 < t0 →
          Timing.finish t1 t = Thrown "Timing start is in the future"
          ∧ finish_at t t1 = t).
Proof.
  eexists. split; [reflexivity |]. split; [reflexivity |].
  assert (∀ a b, asMilliseconds (Timing.elapsed now
            {| Timing._start := Num a; Timing._end := Some (Num b) |})
          = Num (b - a)) as Hended.
  { intros a b. unfold Timing.elapsed, Timing.duration, new_Duration,
      asMilliseconds. cbn. change (monthsToDays_rounded _) with 0.
    f_equal. lia. }
  split; [|split].
  - unfold Timing.elapsed, Timing.duration, new_Duration, asMilliseconds. cbn.
    change (monthsToDays_rounded _) with 0. f_equal. lia.
  - intros Hle. unfold Timing.finish. cbn.
    replace (t1 <? t0) with false by (symmetry; apply Z.ltb_ge; lia).
    eexists. split; [reflexivity |]. split; [reflexivity |]. apply Hended.
  - intros Hlt. unfold finish_at, Timing.finish. cbn.
    by replace (t1 <? t0) with true by (symmetry; apply Z.ltb_lt; lia).
Qed.

Lemma Timing_lifecycle_witness :
  Timing.finish 170 {| Timing._start := Num 100; Timing._end := None |}
  = Returned {| Timing._start := Num 100; Timing._end := Some (Num 170) |}
  ∧ Timing.finish 90 {| Timing._start := Num 100; Timing._end := None |}
    = Thrown "Timing start is in the future".
Proof.
  destruct (Timing_lifecycle 100 170 0) as (t & [= <-] & _ & _ & Hfinish & _).
  destruct (Timing_lifecycle 100 90 0) as (t & [= <-] & _ & _ & _ & Hthrow).
  destruct Hfinish as (t' & Hreturned & _); [lia |].
  destruct Hthrow as [Hthrown _]; [lia |].
  split; [|exact Hthrown].
  rewrite Hreturned. unfold Timing.finish in Hreturned. cbn in Hreturned.
  by injection Hreturned as <-.
Defined.

(** ** Tokens written one after the other *)

Lemma written_starts (tokens : list (string * string)) :
  Forall well_formed tokens →
  written tokens = "" ∨ starts_with_digit (written tokens) = true.
Proof.
  destruct 1 as [|[ds u] tokens (Hd & Hne & _) _]; [by left | right].
  cbn [written fst snd] in *. destruct ds as [|c ds]; [done |].
  simpl in *. by apply andb_prop in Hd as [-> _].
Qed.

Lemma match_unit_before (u rest : string) :
  In u unit_alternatives → rest = "" ∨ starts_with_digit rest = true →
  match_unit (u +:+ rest) = Some (u, rest).
Proof.
  intros Hu [-> | Hr].
  - rewrite app_empty_r. by apply match_unit_alone.
  - rewrite match_unit_context; [by rewrite match_unit_alone | | done].
    simpl in Hu. by destruct Hu as [<-|[<-|[<-|[<-|[]]]]].
Qed.

Lemma search_token (ds u rest : string) :
  all_digits ds = true → ds ≠ "" → (String.length ds ≤ 5)%nat →
  match_unit (u +:+ rest) = Some (u, rest) →
  search (ds +:+ u +:+ rest) = Some (ds, u, rest).
Proof.
  intros Hd Hne Hlen Hu.
  assert (match_here (ds +:+ u +:+ rest) = Some (ds, u, rest)) as Hm
    by (by apply match_digits_exact).
  destruct ds; [done |]. cbn [String.append search].
  cbn [String.append] in Hm. by rewrite Hm.
Qed.

Lemma matches_written (tokens : list (string * string)) :
  Forall well_formed tokens →
  matches (written tokens) = map token_text tokens.
Proof.
  induction 1 as [|[ds u] tokens (Hd & Hne & Hlen & Hu) Hall IH]; [done |].
  cbn [written map fst snd] in *. rewrite matches_unfold, search_token;
    [by rewrite IH | done.. |].
  apply match_unit_before; [done | by apply written_starts].
Qed.

Lemma last_value_in (u : string) (tokens : list (string * string)) (v : Z) :
  Forall well_formed tokens →
  last_value u (map token_text tokens) = Some v → In u (map snd tokens).
Proof.
  induction 1 as [|[ds u0] tokens (Hd & _ & _ & Hu) _ IH]; [done |].
  cbn [map last_value fst snd] in *.
  destruct (last_value u (map token_text tokens)) as [v'|].
  - intros Hv. right. by apply IH.
  - unfold token_text. cbn [fst snd].
    destruct (token_split ds u0 Hd Hu) as [_ ->].
    destruct (String.eqb_spec u0 u) as [->|]; [by left | done].
Qed.

Lemma contribution_cons (ds u u' : string) (tokens : list (string * string)) :
  well_formed (ds, u) → Forall well_formed tokens →
  ¬ In u (map snd tokens) →
  contribution u' (map token_text ((ds, u) :: tokens))
  = contribution u' (map token_text tokens)
    + (if String.eqb u u' then decimal_value ds else 0).
Proof.
  intros (Hd & _ & _ & Hu) Hall Hfresh. cbn [fst snd] in *.
  unfold contribution. cbn [map last_value]. unfold token_text at 2 3.
  cbn [fst snd]. unfold token_value.
  destruct (token_split ds u Hd Hu) as [-> ->].
  destruct (last_value u' (map token_text tokens)) as [v|] eqn:Hlast.
  - destruct (String.eqb_spec u u') as [->|]; [|simpl; lia].
    by apply last_value_in in Hlast.
  - destruct (String.eqb u u'); simpl; lia.
Qed.

Lemma contribution_written (tokens : list (string * string)) :
  Forall well_formed tokens → List.NoDup (map snd tokens) →
  contribution "ms" (map token_text tokens)
  + contribution "s" (map token_text tokens) * 1000
  + contribution "m" (map token_text tokens) * 60000
  + contribution "h" (map token_text tokens) * 1000 * 60 * 60
  = total_ms tokens.
Proof.
  induction 1 as [|[ds u] tokens Ht Hall IH]; [done |].
  intros Hnd. change (List.NoDup (u :: map snd tokens)) in Hnd.
  apply List.NoDup_cons_iff in Hnd as [Hfresh Hnodup].
  rewrite !(contribution_cons ds u) by done.
  cbn [total_ms fst snd]. rewrite <- (IH Hnodup).
  destruct Ht as (_ & _ & _ & Hu). simpl in Hu.
  destruct Hu as [<-|[<-|[<-|[<-|[]]]]]; cbn; lia.
Qed.

(** The duration of an input whose matches are known tokens. *)
Lemma parseDuration_value (s : string) (tokens : list (string * string)) :
  (String.length s ≤ 64)%nat →
  matches (toLowerCase s) = map token_text tokens →
  Forall well_formed tokens → List.NoDup (map snd tokens) →
  asMilliseconds (parseDuration s).1 = Num (total_ms tokens).
Proof.
  intros Hlen Hm Hall Hnodup.
  destruct tokens as [|t tokens].
  - rewrite parseDuration_zero; [done |]. right.
    by rewrite match_global_matches, Hm.
  - rewrite (parseDuration_tokens s (map token_text (t :: tokens)));
      [|done | by rewrite match_global_matches, Hm].
    cbn [fst]. rewrite asMilliseconds_plain.
    by rewrite contribution_written.
Qed.

Lemma toLowerCase_unit (u : string) :
  In u unit_alternatives → toLowerCase u = u.
Proof. simpl. by intros [<-|[<-|[<-|[<-|[]]]]]. Qed.

Lemma toLowerCase_written (tokens : list (string * string)) :
  Forall well_formed tokens → toLowerCase (written tokens) = written tokens.
Proof.
  induction 1 as [|[ds u] tokens (Hd & _ & _ & Hu) _ IH]; [done |].
  cbn [written fst snd] in *.
  by rewrite !toLowerCase_app, toLowerCase_digits, toLowerCase_unit, IH.
Qed.

(** X14. An input that is, case apart, a row of well-formed tokens written
    one after the other (one to five digits and h, m, s or ms each) is
    matched as exactly these tokens, in order; where no unit comes twice its
    duration is the sum of the tokens, so that "AhBmCsDms" is A hours, B
    minutes, C seconds and D milliseconds, whichever of the four parts are
    there and in whatever order. *)
Theorem parseDuration_written (s : string) (tokens : list (string * string)) :
  (String.length s ≤ 64)%nat →
  toLowerCase s = written tokens →
  Forall well_formed tokens →
  match_global (toLowerCase s)
  = match tokens with
    | [] => None
    | _ => Some (map token_text tokens)
    end
  ∧ (List.NoDup (map snd tokens) →
     asMilliseconds (parseDuration s).1 = Num (total_ms tokens)).
Proof.
  intros Hlen Hs Hall.
  assert (matches (toLowerCase s) = map token_text tokens) as Hm
    by (rewrite Hs; by apply matches_written).
  split.
  - rewrite match_global_matches, Hm. by destruct tokens.
  - intros Hnodup. by apply parseDuration_value.
Qed.

Lemma parseDuration_written_witness :
  match_global (toLowerCase "6H10M0s0MS") = Some ["6h"; "10m"; "0s"; "0ms"]
  ∧ asMilliseconds (parseDuration "6H10M0s0MS").1 = Num 22200000.
Proof.
  assert (Forall well_formed [("6", "h"); ("10", "m"); ("0", "s"); ("0", "ms")])
    as Hall.
  { repeat (apply List.Forall_cons;
              [split; [reflexivity | split; [done | split; [simpl; lia |
                simpl; tauto]]] |]).
    apply List.Forall_nil. }
  destruct (parseDuration_written "6H10M0s0MS"
              [("6", "h"); ("10", "m"); ("0", "s"); ("0", "ms")])
    as [Hm Hv]; [simpl; lia | reflexivity | exact Hall |].
  split; [exact Hm |]. apply Hv.
  repeat (apply List.NoDup_cons; [simpl; intuition discriminate |]).
  apply List.NoDup_nil.
Defined.

(** ** Digits cut off from their unit *)

Lemma match_unit_blocked (c : ascii) (r : string) :
  begins_unit c = false → match_unit (String c r) = None.
Proof.
  unfold begins_unit, match_unit, unit_alternatives.
  cbn [first_alternative strip_prefix].
  by destruct (Ascii.eqb "h" c), (Ascii.eqb "m" c), (Ascii.eqb "s" c).
Qed.

Lemma match_digits_blocked (max : nat) (a : string) (c : ascii) (r : string) :
  all_digits a = true → is_digit c = false → begins_unit c = false →
  match_digits max (a +:+ String c r) = None.
Proof.
  intros Ha Hc Hu. revert a Ha.
  induction max as [|max IH]; intros [|d a] Ha; cbn [String.append];
    try (by apply match_digits_starts); [done |].
  cbn [match_digits]. simpl in Ha. apply andb_prop in Ha as [-> Ha].
  rewrite IH by done. destruct a as [|d' a]; cbn [String.append].
  - by rewrite match_unit_blocked.
  - simpl in Ha. apply andb_prop in Ha as [Hd' _].
    by rewrite match_unit_digit.
Qed.

Lemma search_blocked (a : string) (c : ascii) (r : string) :
  all_digits a = true → is_digit c = false → begins_unit c = false →
  search (a +:+ String c r) = search r.
Proof.
  intros Ha Hc Hu. induction a as [|d a IH].
  - pose proof (match_digits_blocked 5 "" c r Ha Hc Hu) as Hm.
    cbn [String.append search] in *. unfold match_here. by rewrite Hm.
  - pose proof (match_digits_blocked 5 (String d a) c r Ha Hc Hu) as Hm.
    cbn [String.append search] in *. unfold match_here. rewrite Hm.
    simpl in Ha. apply andb_prop in Ha as [_ Ha]. by apply IH.
Qed.

Lemma lower_char_facts (c : ascii) :
  lower_char (lower_char c) = lower_char c
  ∧ (is_digit c = false → is_digit (lower_char c) = false).
Proof. ascii_cases c; by vm_compute. Qed.

(** X15. Digits that are cut off from their unit count for nothing. Where
    the input is a row of digits, a character that is neither a digit nor
    the start of a unit (a decimal point, say), and then one well-formed
    token, only the token is matched, and the duration is the token's: the
    digits in front of the character are dropped, so that "1.5s" is five
    seconds. *)
Theorem parseDuration_separator (a b u : string) (c : ascii) :
  all_digits a = true → is_digit c = false →
  begins_unit (lower_char c) = false → well_formed (b, u) →
  (String.length (a +:+ String c (b +:+ u)) ≤ 64)%nat →
  match_global (toLowerCase (a +:+ String c (b +:+ u))) = Some [b +:+ u]
  ∧ asMilliseconds (parseDuration (a +:+ String c (b +:+ u))).1
    = Num (decimal_value b * unit_ms u).
Proof.
  intros Ha Hc Hu Hbu Hlen.
  assert (Forall well_formed [(b, u)]) as Hall
    by (apply List.Forall_cons; [done | apply List.Forall_nil]).
  assert (matches (toLowerCase (a +:+ String c (b +:+ u)))
          = map token_text [(b, u)]) as Hm.
  { rewrite toLowerCase_app, toLowerCase_digits by done.
    cbn [toLowerCase]. rewrite matches_unfold.
    rewrite search_blocked by (done || by apply lower_char_facts).
    rewrite <- matches_unfold.
    pose proof (toLowerCase_written [(b, u)]) as Hlow.
    pose proof (matches_written [(b, u)]) as Hw.
    cbn [written fst snd] in *. rewrite app_empty_r in *.
    by rewrite Hlow, Hw. }
  split.
  - by rewrite match_global_matches, Hm.
  - rewrite (parseDuration_value _ [(b, u)]); try done.
    + cbn [total_ms fst snd]. f_equal. lia.
    + apply List.NoDup_cons; [by intros [] | apply List.NoDup_nil].
Qed.

Lemma parseDuration_separator_witness :
  match_global (toLowerCase "1.5s") = Some ["5s"]
  ∧ asMilliseconds (parseDuration "1.5s").1 = Num 5000.
Proof.
  apply (parseDuration_separator "1" "5" "s" "."%char);
    [reflexivity | reflexivity | reflexivity | | simpl; lia].
  split; [reflexivity | split; [done | split; [simpl; lia | simpl; tauto]]].
Defined.

Lemma toLowerCase_idempotent (s : string) :
  toLowerCase (toLowerCase s) = toLowerCase s.
Proof.
  induction s as [|c s IH]; simpl; [done |].
  rewrite IH. by destruct (lower_char_facts c) as [-> _].
Qed.

(** X16. On inputs of code units below 256 (the strings of this
    development: header values are such), where lower-casing keeps the
    length, [parseDuration] does not tell capitals from small letters: an
    input and its lower-case form give the same duration; and when the input
    has at most 64 characters, the same console output too. *)
Theorem parseDuration_case (s : string) :
  (parseDuration s).1 = (parseDuration (toLowerCase s)).1
  ∧ ((String.length s ≤ 64)%nat →
     parseDuration s = parseDuration (toLowerCase s)).
Proof.
  unfold parseDuration.
  rewrite toLowerCase_length, toLowerCase_idempotent.
  destruct (64 <? String.length s)%nat eqn:Hlen.
  - split; [done |]. apply Nat.ltb_lt in Hlen. lia.
  - done.
Qed.

Lemma parseDuration_case_witness :
  parseDuration "2H30M" = parseDuration "2h30m".
Proof.
  destruct (parseDuration_case "2H30M") as [_ H]. apply H. simpl. lia.
Defined.

(** X17. [parseDuration] writes to the console only when it gives up: one
    line that quotes the input when it is longer than 64 characters, one
    line that quotes the lower-case input when no token is found in it, and
    nothing when a token is found. The three warnings of the reduction over
    the tokens (invalid part format, NaN, unknown unit) are never
    written. *)
Theorem parseDuration_console_lines (s : string) :
  (parseDuration s).2
  = if (64 <? String.length s)%nat then
      [[LogStr "WARNING: duration too long when parsing time in client:";
        LogStr s]]
    else
      match match_global (toLowerCase s) with
      | None =>
          [[LogStr "WARNING: no parts when parsing time in client:";
            LogStr (toLowerCase s)]]
      | Some _ => []
      end.
Proof.
  destruct (64 <? String.length s)%nat eqn:Hlen.
  - unfold parseDuration. by rewrite Hlen.
  - destruct (match_global (toLowerCase s)) as [parts|] eqn:Hparts.
    + apply Nat.ltb_ge in Hlen. by rewrite (parseDuration_tokens s parts).
    + unfold parseDuration. by rewrite Hlen, Hparts.
Qed.

(** ** The range of the durations *)

Lemma decimal_from_bound (ds : string) (acc : Z) :
  all_digits ds = true → 0 ≤ acc →
  0 ≤ decimal_from acc ds
  ∧ decimal_from acc ds + 1 ≤ (acc + 1) * 10 ^ Z.of_nat (String.length ds).
Proof.
  revert acc; induction ds as [|c ds IH]; intros acc Hd Hacc.
  - simpl. lia.
  - simpl in Hd. apply andb_prop in Hd as [Hc Hd].
    destruct (digit_facts c Hc) as (_ & _ & _ & Hr & _).
    cbn [decimal_from String.length].
    destruct (IH (acc * 10 + (Z.of_N (code c) - 48)) Hd) as [Hlo Hhi]; [lia |].
    split; [done |]. rewrite Nat2Z.inj_succ, Z.pow_succ_r by lia.
    assert (0 ≤ 10 ^ Z.of_nat (String.length ds)) as Hpow
      by (apply Z.pow_nonneg; lia).
    revert Hhi Hpow. generalize (10 ^ Z.of_nat (String.length ds)).
    generalize (decimal_from (acc * 10 + (Z.of_N (code c) - 48)) ds).
    intros x p Hhi Hp. nia.
Qed.

Lemma decimal_value_bound (ds : string) :
  all_digits ds = true → (String.length ds ≤ 5)%nat →
  0 ≤ decimal_value ds ≤ 99999.
Proof.
  intros Hd Hlen. unfold decimal_value.
  destruct (decimal_from_bound ds 0 Hd) as [Hlo Hhi]; [lia |].
  split; [done |].
  assert (10 ^ Z.of_nat (String.length ds) ≤ 10 ^ 5)
    by (apply Z.pow_le_mono_r; lia).
  change (10 ^ 5) with 100000 in *. lia.
Qed.

Lemma contribution_bound (u : string) (parts : list string) :
  Forall is_token parts → 0 ≤ contribution u parts ≤ 99999.
Proof.
  unfold contribution. induction 1 as [|t parts Ht _ IH]; [simpl; lia |].
  cbn [last_value]. destruct (last_value u parts) as [v|]; [done |].
  destruct (String.eqb (token_unit t) u); [|simpl; lia].
  apply token_parts in Ht as (_ & Hd & _ & Hlen & _).
  simpl. unfold token_value. by apply decimal_value_bound.
Qed.

(** X18. The duration that [parseDuration] gives is valid, is a whole number
    of milliseconds and lies between zero and 99999 of each unit taken
    together (366096438999 milliseconds), whatever the input; the largest
    value is reached. *)
Theorem parseDuration_range :
  (∀ s : string,
     isValid (parseDuration s).1 = true
     ∧ ∃ ms : Z, asMilliseconds (parseDuration s).1 = Num ms
                 ∧ 0 ≤ ms ≤ largest_ms)
  ∧ asMilliseconds (parseDuration "99999h99999m99999s99999ms").1
    = Num largest_ms
  ∧ largest_ms = 366096438999.
Proof.
  split; [|split; by vm_compute].
  intros s. split; [apply parseDuration_valid |].
  destruct (le_lt_dec (String.length s) 64) as [Hlen|Hlen].
  - destruct (match_global (toLowerCase s)) as [parts|] eqn:Hparts.
    + rewrite (parseDuration_tokens s parts) by done. cbn [fst].
      rewrite asMilliseconds_plain. eexists; split; [done |].
      pose proof (match_global_tokens _ _ Hparts) as Hall.
      pose proof (contribution_bound "ms" parts Hall).
      pose proof (contribution_bound "s" parts Hall).
      pose proof (contribution_bound "m" parts Hall).
      pose proof (contribution_bound "h" parts Hall).
      unfold largest_ms. lia.
    + rewrite parseDuration_zero by auto. exists 0. by vm_compute.
  - rewrite parseDuration_zero by auto. exists 0. by vm_compute.
Qed.

(** ** [parseInt] without a radix *)

Lemma not_digit_facts (c : ascii) :
  is_digit c = false →
  Ascii.eqb c "0" = false
  ∧ match digit_value c with Some d => d <? 10 | None => false end = false.
Proof. ascii_cases c; vm_compute; by intros. Qed.

Lemma digit_not_x (c : ascii) :
  is_digit c = true → Ascii.eqb c "x" || Ascii.eqb c "X" = false.
Proof. ascii_cases c; vm_compute; by intros. Qed.

Lemma parseInt_none_digits (ds : string) :
  all_digits ds = true → ds ≠ "" → parseInt ds None = Num (decimal_value ds).
Proof.
  intros Hd Hne. rewrite <- (parseInt_digits ds Hd Hne).
  destruct ds as [|c ds]; [done |]. simpl in Hd.
  apply andb_prop in Hd as [Hc Hd].
  destruct (digit_facts c Hc) as (_ & Hsp & _ & _ & Hm & Hp).
  unfold parseInt. cbn [trimStart]. rewrite Hsp. cbn [strip_sign].
  rewrite Hm, Hp.
  assert (strip_hex_prefix (String c ds) = None) as ->; [|done].
  destruct ds as [|c' ds]; [done |]. cbn [strip_hex_prefix].
  simpl in Hd. apply andb_prop in Hd as [Hc' _].
  by rewrite (digit_not_x c' Hc'), andb_false_r.
Qed.

Lemma parseInt_none_text (c : ascii) (r : string) :
  is_digit c = false → is_space c = false →
  Ascii.eqb c "-" = false → Ascii.eqb c "+" = false →
  parseInt (String c r) None = NaN.
Proof.
  intros Hc Hsp Hm Hp. unfold parseInt. cbn [trimStart]. rewrite Hsp.
  cbn [strip_sign]. rewrite Hm, Hp.
  destruct (not_digit_facts c Hc) as [H0 Hv].
  assert (strip_hex_prefix (String c r) = None) as ->.
  { destruct r as [|c' r]; [done |]. cbn [strip_hex_prefix]. by rewrite H0. }
  cbn [parse_digits]. destruct (digit_value c) as [d|]; [|done].
  by rewrite Hv.
Qed.

Lemma get_or_present (headers : Headers) (name fallback v : string) :
  headers !! name = Some v →
  get_or headers name fallback = if String.eqb v "" then fallback else v.
Proof. intros H. unfold get_or. by rewrite H. Qed.

Lemma updatePools_result_pools (headers : Headers) (w : World) :
  let c := this (updatePools_result headers w) in
  let c' := limits_applied headers (this w) in
  requestPoolMax c = requestPoolMax c' ∧ requestPool c = requestPool c'
  ∧ tokenPoolMax c = tokenPoolMax c' ∧ tokenPool c = tokenPool c'
  ∧ debug c = debug c' ∧ model c = model c'.
Proof.
  unfold updatePools_result, tokens_reset_applied, requests_reset_applied,
    reset_applied.
  by destruct (has headers "x-ratelimit-reset-requests"),
    (has headers "x-ratelimit-reset-tokens").
Qed.

(** X19. A limit or remaining header that is there overwrites its field
    with [parseInt] of its value, an empty value counting as "0", wherever
    the result is [NaN] or an integer of at most 2^53 - 1 in size (beyond
    that JavaScript rounds): the field becomes the number that a value made
    of digits denotes, when that is at most 2^53 - 1, and becomes [NaN] when
    the value starts with a character that is no digit, sign or white
    space. The call returns all the same. *)
Theorem updatePools_limits (headers : Headers) (w : World) :
  let w' := (updatePools headers w).1 in
  (updatePools headers w).2 = Returned tt
  ∧ (∀ v, headers !! "x-ratelimit-limit-requests" = Some v →
          safe (header_number v) →
          requestPoolMax (this w') = header_number v)
  ∧ (∀ v, headers !! "x-ratelimit-remaining-requests" = Some v →
          safe (header_number v) →
          requestPool (this w') = header_number v)
  ∧ (∀ v, headers !! "x-ratelimit-limit-tokens" = Some v →
          safe (header_number v) →
          tokenPoolMax (this w') = header_number v)
  ∧ (∀ v, headers !! "x-ratelimit-remaining-tokens" = Some v →
          safe (header_number v) →
          tokenPool (this w') = header_number v)
  ∧ header_number "" = Num 0
  ∧ (∀ ds, all_digits ds = true → ds ≠ "" →
           decimal_value ds ≤ MAX_SAFE_INTEGER →
           header_number ds = Num (decimal_value ds)
           ∧ safe (header_number ds))
  ∧ (∀ c r, is_digit c = false → is_space c = false →
            Ascii.eqb c "-" = false → Ascii.eqb c "+" = false →
            header_number (String c r) = NaN
            ∧ safe (header_number (String c r))).
Proof.
  intros w'. subst w'. rewrite updatePools_run. cbn [fst snd].
  destruct (updatePools_result_pools headers w) as (-> & -> & -> & -> & _).
  unfold limits_applied, header_number.
  split; [done |].
  split; [|split; [|split; [|split; [|split; [|split]]]]].
  - intros v Hv _.
    rewrite (has_present _ _ _ Hv), (get_or_present _ _ _ _ Hv).
    by destruct (has headers "x-ratelimit-remaining-requests"),
      (has headers "x-ratelimit-limit-tokens"),
      (has headers "x-ratelimit-remaining-tokens").
  - intros v Hv _.
    rewrite (has_present _ _ _ Hv), (get_or_present _ _ _ _ Hv).
    by destruct (has headers "x-ratelimit-limit-requests"),
      (has headers "x-ratelimit-limit-tokens"),
      (has headers "x-ratelimit-remaining-tokens").
  - intros v Hv _.
    rewrite (has_present _ _ _ Hv), (get_or_present _ _ _ _ Hv).
    by destruct (has headers "x-ratelimit-limit-requests"),
      (has headers "x-ratelimit-remaining-requests"),
      (has headers "x-ratelimit-remaining-tokens").
  - intros v Hv _.
    rewrite (has_present _ _ _ Hv), (get_or_present _ _ _ _ Hv).
    by destruct (has headers "x-ratelimit-limit-requests"),
      (has headers "x-ratelimit-remaining-requests"),
      (has headers "x-ratelimit-limit-tokens").
  - reflexivity.
  - intros ds Hd Hne Hmax. rewrite (proj2 (String.eqb_neq ds "") Hne).
    rewrite parseInt_none_digits by done. split; [done |].
    cbn [safe]. unfold decimal_value in *.
    destruct (decimal_from_bound ds 0 Hd) as [Hlo _]; lia.
  - intros c r Hc Hsp Hm Hp. cbn [String.eqb].
    by rewrite parseInt_none_text.
Qed.

Lemma updatePools_limits_witness :
  let headers : Headers :=
    {[ "x-ratelimit-limit-requests" := "500";
       "x-ratelimit-remaining-requests" := "";
       "x-ratelimit-remaining-tokens" := "unlimited" ]} in
  let w' := (updatePools headers (example_world false)).1 in
  requestPoolMax (this w') = Num 500
  ∧ requestPool (this w') = Num 0
  ∧ tokenPool (this w') = NaN.
Proof.
  intros headers w'.
  destruct (updatePools_limits headers (example_world false))
    as (_ & Hmax & Hreq & _ & Htok & H0 & Hds & Hnan).
  destruct (Hds "500") as [H500 Hsafe500];
    [reflexivity | done | by vm_compute |].
  destruct (Hnan "u"%char "nlimited") as [Htext Hsafetext];
    [reflexivity.. |].
  split; [|split].
  - etrans; [by apply Hmax |]. exact H500.
  - etrans; [apply Hreq; [done |] |]; [| exact H0].
    rewrite H0. by vm_compute.
  - etrans; [by apply Htok |]. exact Htext.
Defined.

(** ** The timers that [updatePools] leaves pending *)

Lemma updatePools_timers_ok (headers : Headers) (w : World) :
  timers_ok w → timers_ok (updatePools_result headers w).
Proof.
  intros [Hh Ht]. split.
  { pose proof (updatePools_handles_ok headers w Hh) as H.
    by rewrite updatePools_run in H. }
  intros h tm.
  unfold updatePools_result, tokens_reset_applied, requests_reset_applied,
    reset_applied.
  destruct (limits_applied_timers headers (this w)) as (Hr & Htk & _).
  destruct w as [c pending nt out]. cbn [this timers next_timer] in *.
  destruct (has headers "x-ratelimit-reset-requests"),
    (has headers "x-ratelimit-reset-tokens");
    unfold with_this;
    cbn [this next_timer timers set_requestTimer set_tokenTimer
         requestTimer tokenTimer];
    rewrite ?Hr, ?Htk;
    destruct (requestTimer c) as [r0|] eqn:Hr0,
      (tokenTimer c) as [t0|] eqn:Ht0;
    intros H;
    repeat first
      [ apply lookup_insert_Some in H as [[<- <-] | [? H]]
      | apply lookup_delete_Some in H as [? H] ];
    cbn [callback]; try done;
    apply Ht in H; destruct (callback tm); congruence.
Qed.

Lemma receive_timers_ok (responses : list Headers) (w : World) :
  timers_ok w → timers_ok (fold_left receive responses w).
Proof.
  revert w. induction responses as [|headers responses IH]; intros w Hw;
    [done |].
  cbn [fold_left]. apply IH. unfold receive. rewrite updatePools_run.
  by apply updatePools_timers_ok.
Qed.

(** X20. However many responses a client receives before a timer fires,
    each pool has at most one reset timer pending, and it is the one whose
    handle the client holds: every call of [updatePools] with a reset
    header clears the pool's old timer before it sets the new one. A client
    without timers starts in this state. *)
Theorem updatePools_one_timer (responses : list Headers) (w : World) :
  let w' := fold_left receive responses w in
  (∀ c, timers_ok (fresh_world c))
  ∧ (timers_ok w →
     timers_ok w'
     ∧ ∀ h h' tm tm',
         timers w' !! h = Some tm → timers w' !! h' = Some tm' →
         callback tm = callback tm' → h = h').
Proof.
  intros w'. subst w'. split.
  - intros c. split; [done |]. intros h tm H.
    unfold fresh_world in H. cbn [timers] in H.
    by rewrite lookup_empty in H.
  - intros Hw. pose proof (receive_timers_ok responses w Hw) as [Hh Ht].
    split; [done |]. intros h h' tm tm' H H' Heq.
    apply Ht in H. apply Ht in H'. rewrite Heq in H.
    destruct (callback tm'); congruence.
Qed.

Lemma updatePools_one_timer_witness :
  let w' :=
    fold_left receive [long_reset_headers; token_headers; long_reset_headers]
      (example_world false) in
  timers_ok w'
  ∧ ∀ h h' tm tm',
      timers w' !! h = Some tm → timers w' !! h' = Some tm' →
      callback tm = callback tm' → h = h'.
Proof.
  apply (updatePools_one_timer
           [long_reset_headers; token_headers; long_reset_headers]
           (example_world false)).
  split; [reflexivity |]. intros h tm H.
  unfold example_world in H. cbn [timers] in H.
  apply lookup_singleton_Some in H as [<- <-]. reflexivity.
Defined.

Lemma header_duration_zero (v : string) :
  (v = "" → timer_delay (asMilliseconds (header_duration v).1) = Num 1
            ∧ (header_duration v).2 = [])
  ∧ (v ≠ "" → (String.length v ≤ 64)%nat →
     match_global (toLowerCase v) = None →
     timer_delay (asMilliseconds (header_duration v).1) = Num 1
     ∧ (header_duration v).2
       = [[LogStr "WARNING: no parts when parsing time in client:";
           LogStr (toLowerCase v)]]).
Proof.
  split.
  - intros ->. by vm_compute.
  - intros Hne Hlen Hnone. unfold header_duration.
    rewrite (proj2 (String.eqb_neq v "") Hne).
    rewrite parseDuration_zero by auto. split; [done |].
    unfold parseDuration. rewrite Hnone.
    by replace (64 <? String.length v)%nat with false
      by (symmetry; apply Nat.ltb_ge; lia).
Qed.

Lemma timer_delay_cases (ms : number) (d : Z) :
  ms = Num d →
  (1 ≤ d ≤ TIMEOUT_MAX → timer_delay ms = Num d)
  ∧ (d < 1 ∨ TIMEOUT_MAX < d → timer_delay ms = Num 1).
Proof.
  intros ->. split; [apply timer_delay_in_range |].
  unfold timer_delay. intros [H | H].
  - by replace (1 <=? d) with false by (symmetry; apply Z.leb_gt; lia).
  - replace (d <=? TIMEOUT_MAX) with false by (symmetry; apply Z.leb_gt; lia).
    by rewrite andb_false_r.
Qed.

(** X21. A reset header that is there always arms the pool's timer anew,
    whatever its value: the timer the pool held is no longer pending, the
    new one is pending under a fresh handle that the client now holds, and
    what [parseDuration] wrote is on the console whether or not [debug] is
    set. The delay of the new timer is the one the runtime keeps for the
    duration that [parseDuration] reads from the value ("0s" for an empty
    value): the duration itself when it is between 1 and 2147483647
    milliseconds, and 1 millisecond when it is zero or larger than that. So
    an empty value and a value without any token arm the timer with 1
    millisecond; the second also leaves the no-parts warning. *)
Theorem updatePools_rearms (headers : Headers) (w : World) (v : string) :
  let w' := (updatePools headers w).1 in
  handles_ok w = true →
  (headers !! "x-ratelimit-reset-requests" = Some v →
   requestTimer (this w') = Some (next_timer w)
   ∧ timers w' !! next_timer w
     = Some {| callback := ReqReset;
               delay := timer_delay (asMilliseconds (header_duration v).1) |}
   ∧ (∀ r, requestTimer (this w) = Some r → timers w' !! r = None)
   ∧ ∃ tail, console w' = ((console w ++ (header_duration v).2) ++ tail)%list)
  ∧ (headers !! "x-ratelimit-reset-tokens" = Some v →
     let t := if has headers "x-ratelimit-reset-requests"
              then S (next_timer w) else next_timer w in
     tokenTimer (this w') = Some t
     ∧ timers w' !! t
       = Some {| callback := TokenReset;
                 delay := timer_delay (asMilliseconds (header_duration v).1) |}
     ∧ (∀ r, tokenTimer (this w) = Some r → timers w' !! r = None)
     ∧ ∃ front tail,
         console w'
         = ((front ++ (header_duration v).2) ++ tail)%list)
  ∧ (∀ d, asMilliseconds (header_duration v).1 = Num d →
          (1 ≤ d ≤ 2147483647 →
           timer_delay (asMilliseconds (header_duration v).1) = Num d)
          ∧ (d < 1 ∨ 2147483647 < d →
             timer_delay (asMilliseconds (header_duration v).1) = Num 1))
  ∧ (v = "" → timer_delay (asMilliseconds (header_duration v).1) = Num 1
              ∧ (header_duration v).2 = [])
  ∧ (v ≠ "" → (String.length v ≤ 64)%nat →
     match_global (toLowerCase v) = None →
     timer_delay (asMilliseconds (header_duration v).1) = Num 1
     ∧ (header_duration v).2
       = [[LogStr "WARNING: no parts when parsing time in client:";
           LogStr (toLowerCase v)]]).
Proof.
  intros w' Hh. subst w'. rewrite updatePools_run. cbn [fst].
  split; [|split; [|split; [|apply header_duration_zero]]].
  - intros Hv. unfold updatePools_result, tokens_reset_applied,
      requests_reset_applied, reset_applied, header_duration.
    rewrite (has_present _ _ _ Hv), (get_or_present _ _ _ _ Hv).
    destruct (limits_applied_timers headers (this w)) as (Hr & Htk & _).
    unfold handles_ok in Hh.
    destruct w as [c pending nt out]. cbn [this timers next_timer console] in *.
    destruct (has headers "x-ratelimit-reset-tokens");
      unfold with_this;
      cbn [this next_timer timers console set_requestTimer set_tokenTimer
           requestTimer tokenTimer];
      rewrite ?Hr, ?Htk;
      destruct (requestTimer c) as [r0|] eqn:Hr0,
        (tokenTimer c) as [t0|] eqn:Ht0;
      repeat (apply andb_prop in Hh as [Hh ?]);
      rewrite ?Nat.ltb_lt, ?negb_true_iff, ?Nat.eqb_neq in *;
      (split; [done |]);
      (split; [by simplify_map_eq by lia |]);
      (split; [intros r [= <-]; by simplify_map_eq by lia |]);
      eexists; by rewrite <- ?app_assoc.
  - intros Hv. unfold updatePools_result, tokens_reset_applied,
      requests_reset_applied, reset_applied, header_duration.
    rewrite (has_present _ _ _ Hv), (get_or_present _ _ _ _ Hv).
    destruct (limits_applied_timers headers (this w)) as (Hr & Htk & _).
    unfold handles_ok in Hh.
    destruct w as [c pending nt out]. cbn [this timers next_timer console] in *.
    destruct (has headers "x-ratelimit-reset-requests");
      unfold with_this;
      cbn [this next_timer timers console set_requestTimer set_tokenTimer
           requestTimer tokenTimer];
      rewrite ?Hr, ?Htk;
      destruct (requestTimer c) as [r0|] eqn:Hr0,
        (tokenTimer c) as [t0|] eqn:Ht0;
      repeat (apply andb_prop in Hh as [Hh ?]);
      rewrite ?Nat.ltb_lt, ?negb_true_iff, ?Nat.eqb_neq in *;
      (split; [done |]);
      (split; [by simplify_map_eq by lia |]);
      (split; [intros r [= <-]; by simplify_map_eq by lia |]);
      eexists; eexists; reflexivity.
  - intros d Hd. by apply timer_delay_cases.
Qed.

Lemma updatePools_rearms_witness :
  let soon : Headers := {[ "x-ratelimit-reset-requests" := "soon" ]} in
  let late : Headers := {[ "x-ratelimit-reset-tokens" := "600h" ]} in
  let w' := (updatePools soon (example_world false)).1 in
  let w'' := (updatePools late (example_world false)).1 in
  requestTimer (this w') = Some 4%nat
  ∧ timers w' !! 4%nat = Some {| callback := ReqReset; delay := Num 1 |}
  ∧ timers w' !! 3%nat = None
  ∧ (header_duration "soon").2
    = [[LogStr "WARNING: no parts when parsing time in client:";
        LogStr "soon"]]
  ∧ asMilliseconds (header_duration "600h").1 = Num 2160000000
  ∧ timers w'' !! 4%nat = Some {| callback := TokenReset; delay := Num 1 |}.
Proof.
  intros soon late w' w''.
  destruct (updatePools_rearms soon (example_world false) "soon" eq_refl)
    as (Hreq & _ & _ & _ & Hnone).
  destruct (updatePools_rearms late (example_world false) "600h" eq_refl)
    as (_ & Htok & Hrange & _).
  destruct (Hreq eq_refl) as (Hhandle & Htimer & Hold & _).
  destruct (Htok eq_refl) as (_ & Htimer' & _).
  destruct Hnone as [Hdelay Hlog]; [done | simpl; lia | reflexivity |].
  destruct (Hrange 2160000000 eq_refl) as [_ Hover].
  split; [exact Hhandle |].
  split; [etrans; [exact Htimer |]; by rewrite Hdelay |].
  split; [by apply Hold |]. split; [exact Hlog |].
  split; [reflexivity |].
  etrans; [exact Htimer' |]. rewrite Hover; [done | right; lia].
Defined.

Section ChatCompletionResponses.

Context {Message Any Usage : Type}.
Variable JSON_stringify : list Message → Outcome string.
Variable encode : string → Outcome (list nat).

(** X22. How [createChatCompletion] settles. For a model that does not
    support images, an error thrown by [JSON.stringify] or by the encoder
    rejects the call with that error before anything is enqueued. A request
    that is enqueued is for the checkpoint of the client's model and carries
    the caller's temperature, [max_tokens], tools and response format, or
    leaves the four undefined when no options are given; when [enqueue]
    rejects, the call rejects with the same error, and when it delivers a
    completion, the call resolves with the usage of the completion and the
    message of each of its choices, in their order. The model that the
    caller names in the request is not read. *)
Theorem createChatCompletion_response (model : ModelMetadata)
    (request : ChatCompletionRequest Message Any)
    (enqueue : nat → OpenAIRequest Message Any
               → Outcome (ChatCompletion Message Usage)) :
  let call :=
    createChatCompletion (Usage := Usage) JSON_stringify encode model
      request in
  (supportsImages (card model) ≠ Some true →
   ∀ e, JSON_stringify (messages request) = Thrown e
        ∨ (∃ text, JSON_stringify (messages request) = Returned text
                   ∧ encode text = Thrown e) →
        call = Reject e ∧ enqueued call = None
        ∧ run enqueue call = Thrown e)
  ∧ (∀ tokens openaiRequest,
       enqueued call = Some (tokens, openaiRequest) →
       oa_model openaiRequest = checkpoint (card model)
       ∧ oa_temperature openaiRequest = temperature <$> options request
       ∧ oa_max_tokens openaiRequest = options request ≫= max_tokens
       ∧ oa_tools openaiRequest = options request ≫= tools
       ∧ oa_response_format openaiRequest
         = options request ≫= response_format
       ∧ (∀ e, enqueue tokens openaiRequest = Thrown e →
               run enqueue call = Thrown e)
       ∧ (∀ response,
            enqueue tokens openaiRequest = Returned response →
            ∃ answer,
              run enqueue call = Returned answer
              ∧ usage answer = completion_usage response
              ∧ response_messages answer = map message (choices response)))
  ∧ ∀ name,
      createChatCompletion (Usage := Usage) JSON_stringify encode model
        (with_model name request)
      = call.
Proof.
  intros call. subst call. split; [|split].
  - intros Htext e He.
    assert (flag_set (supportsImages (card model)) = false) as Hflag.
    { destruct (supportsImages (card model)) as [[|]|]; done. }
    assert (createChatCompletion (Usage := Usage) JSON_stringify encode model
              request = Reject e) as ->; [|done].
    unfold createChatCompletion, estimateTokens, countTokens.
    rewrite Hflag. cbn [oa_messages].
    destruct He as [-> | (text & -> & ->)]; done.
  - intros tokens openaiRequest. unfold createChatCompletion.
    destruct (flag_set (supportsImages (card model))).
    + intros [= <- <-]. cbn.
      do 5 (split; [done |]). split.
      * by intros e ->.
      * intros response ->. by eexists.
    + destruct (estimateTokens _ _ _ _ _) as [n|e]; [|done].
      intros [= <- <-]. cbn.
      do 5 (split; [done |]). split.
      * by intros e ->.
      * intros response ->. by eexists.
  - done.
Qed.

End ChatCompletionResponses.

Lemma createChatCompletion_response_witness :
  let request : ChatCompletionRequest string unit :=
    {| options := None; request_model := "gpt-3.5-turbo";
       messages := ["hello"; "world"] |} in
  let busy (tokens : nat) (r : OpenAIRequest string unit)
    : Outcome (ChatCompletion string unit) := Thrown "queue is closed" in
  createChatCompletion (Usage := unit) circular one_token_per_character
    text_model request
  = Reject "TypeError"
  ∧ run busy
      (createChatCompletion (Usage := unit) bracketed one_token_per_character
         text_model request)
    = Thrown "queue is closed".
Proof.
  intros request busy. split.
  - destruct (createChatCompletion_response (Usage := unit) circular
                one_token_per_character text_model request busy)
      as (Hthrown & _).
    destruct (Hthrown ltac:(done) "TypeError") as (Hreject & _);
      [by left | exact Hreject].
  - destruct (createChatCompletion_response (Usage := unit) bracketed
                one_token_per_character text_model request busy)
      as (_ & Henqueued & _).
    destruct (Henqueued 13%nat
                {| oa_model := "gpt-4-0613"; oa_temperature := None;
                   oa_max_tokens := None; oa_tools := None;
                   oa_response_format := None;
                   oa_messages := ["hello"; "world"] |} eq_refl)
      as (_ & _ & _ & _ & _ & Hrejects & _).
    by apply Hrejects.
Defined.

(** ** The catalog of models *)

(** X23. The catalog is consistent. The five model types have five
    different strings, so that no entry of [pricing] or [models] replaces
    another; every type has its entry in both tables, the pricing in its
    [models] entry is its [pricing] entry, and both name the same provider;
    [availableModels] lists the five strings once each, in the order of
    declaration. Every model costs at least as much for a completion token
    as for a prompt token, and only "gpt-4-vision-preview" supports
    images. *)
Theorem models_consistent :
  (∀ m m' : Models.ModelType,
     Models.model_value m = Models.model_value m' → m = m')
  ∧ (∀ m : Models.ModelType,
       ∃ p, obj_get Models.pricing (Models.model_value m) = Some p
            ∧ obj_get Models.models (Models.model_value m)
              = Some {| Models.provider := Models.pricing_provider p;
                        Models.pricing_of := Some p |}
            ∧ QArith_base.Qle (Models.prompt p) (Models.completion p)
            ∧ 0 < Models.contextSize p ∧ 0 < Models.rpm p ∧ 0 < Models.tpm p
            ∧ (Models.pricing_supportsImages p = Some true
               ↔ m = Models.GPT4Vision))
  ∧ Models.availableModels = map Models.model_value model_types
  ∧ List.NoDup Models.availableModels
  ∧ keys Models.pricing = Models.availableModels.
Proof.
  split; [|split; [|split; [|split]]].
  - by intros [] [].
  - intros []; eexists; (split; [reflexivity |]); (split; [reflexivity |]);
      (split; [by vm_compute |]); do 3 (split; [done |]);
      vm_compute; split; intros H; done || discriminate H.
  - reflexivity.
  - unfold Models.availableModels. vm_compute.
    repeat (apply List.NoDup_cons;
            [simpl; intuition discriminate |]).
    apply List.NoDup_nil.
  - reflexivity.
Qed.

Lemma models_consistent_witness :
  ∃ p, obj_get Models.pricing "gpt-4-vision-preview" = Some p
       ∧ Models.pricing_supportsImages p = Some true
       ∧ Models.tpm p = 10000.
Proof.
  destruct models_consistent as (Hinj & Hall & _).
  destruct (Hall Models.GPT4Vision) as (p & Hp & _ & _ & _ & _ & _ & Himages).
  exists p. split; [exact Hp |]. split.
  - apply Himages. apply Hinj. reflexivity.
  - injection Hp as <-. reflexivity.
Defined.
